(** * stable_whisper.alignment: align, refine and locate

    A shallow embedding of the control algorithms of
    [stable_whisper/alignment.py] and the properties they satisfy.

    Conventions of the embedding.
    - Python [int] and numpy [int64] frame and sample counts are [Z].
    - Python and numpy floats (seconds, probabilities) are exact rationals
      [Q]; the rounding the source asks for ([round], [ndarray.round]) is
      written out as round-half-to-even.  The result of a numpy float
      division is an [npfloat], which keeps the IEEE infinities and NaN
      a zero divisor produces.
    - The sequence model, the tokenizer and the word-timestamp extractor
      are external collaborators: they enter as section variables.
    - Python exceptions are the [Raise] outcomes of [outcome]; loops that
      the source writes as [while] take a fuel argument and return
      [OutOfFuel] when it is exhausted. *)

From Stdlib Require Import ZArith QArith Qround Lia Lqa Bool List String Ascii.
From stdpp Require Import base option list gmap.
Import ListNotations.

Local Open Scope Z_scope.

(** ** Outcomes of fallible code *)

Inductive exn : Type :=
| ValueError
| TypeError
| NotImplementedError
| IndexError
| RuntimeError.

(** An exception leaves the objects the code has already mutated as they
    are: [Raise] and [OutOfFuel] carry the store of type [S] at that
    point. *)
Inductive outcome (S A : Type) : Type :=
| Ok (a : A)
| Raise (e : exn) (s : S)
| OutOfFuel (s : S).

Arguments Ok {S A} a.
Arguments Raise {S A} e s.
Arguments OutOfFuel {S A} s.

Definition obind {S A B} (m : outcome S A) (k : A -> outcome S B) : outcome S B :=
  match m with
  | Ok a => k a
  | Raise e s => Raise e s
  | OutOfFuel s => OutOfFuel s
  end.

Notation "x <- m ;;; k" := (obind m (fun x => k))
  (at level 100, m at next level, right associativity).

(** The store an outcome leaves behind, [proj] extracting it from a
    returned value. *)
Definition store_of {S A} (proj : A -> S) (x : outcome S A) : S :=
  match x with
  | Ok a => proj a
  | Raise _ s => s
  | OutOfFuel s => s
  end.

(** The computation came to an end, by returning or by raising. *)
Definition terminates {S A} (x : outcome S A) : Prop :=
  match x with
  | OutOfFuel _ => False
  | _ => True
  end.

(** ** Constants of [whisper.audio] *)

Definition SAMPLE_RATE : Z := 16000.
Definition HOP_LENGTH : Z := 160.
Definition CHUNK_LENGTH : Z := 30.
Definition N_SAMPLES : Z := CHUNK_LENGTH * SAMPLE_RATE.
Definition N_FRAMES : Z := N_SAMPLES / HOP_LENGTH.
Definition FRAMES_PER_SECOND : Z := SAMPLE_RATE / HOP_LENGTH.

(** ** Rounding *)

(** Python's [round(x)] and numpy's [x.round()]: nearest integer, ties to
    the even neighbour. *)
Definition round_half_even (x : Q) : Z :=
  let f := Qfloor x in
  match Qcompare (x - inject_Z f) (1 # 2) with
  | Lt => f
  | Gt => f + 1
  | Eq => if Z.even f then f else f + 1
  end.

(** [round(x, 3)]. *)
Definition round3 (x : Q) : Q := inject_Z (round_half_even (x * 1000)) / 1000.

(** [round((b - a) / 2)] for integers [a], [b]. *)
Definition half_round (w : Z) : Z := round_half_even (inject_Z w / 2).

Definition Qlt_bool (a b : Q) : bool := negb (Qle_bool b a).

(** Python's [max] and [min] keep the first of two equal arguments. *)
Definition qmax (a b : Q) : Q := if Qlt_bool a b then b else a.
Definition qmin (a b : Q) : Q := if Qlt_bool b a then b else a.

(** Truth value of a Python list. *)
Definition nonempty {A} (l : list A) : bool :=
  match l with [] => false | _ :: _ => true end.

(** ** align *)

Module Align.

(** A pending word is its text; [word_tokens] holds its token ids in a
    parallel list. *)
Definition token := Z.

Record queue : Type := mkQueue {
  words : list string;
  word_tokens : list (list token)
}.

(** Lines 162-166: the token budget is validated before anything else. *)
Definition check_token_step (n_text_ctx token_step : Z) : outcome unit Z :=
  let max_token_step := n_text_ctx - 6 in
  if token_step <? 1 then Ok max_token_step
  else if token_step >? max_token_step then Raise ValueError tt
  else Ok token_step.

(** The body of [for _ in range(len(words))] in [get_curr_words]; [n] is
    the number of iterations left.  [word_tokens[0]] and [words.pop(0)]
    raise [IndexError] on an empty list. *)
Fixpoint get_curr_words_loop (n : nat) (token_step curr_tk_count : Z)
    (w : list string) (wt : list (list token)) (q : queue)
  : outcome queue (list string * list (list token) * queue) :=
  match n with
  | O => Ok (w, wt, q)
  | S n' =>
    match word_tokens q with
    | [] => Raise IndexError q
    | tks :: rest_tokens =>
      let tk_count := Z.of_nat (length tks) in
      if (curr_tk_count + tk_count >? token_step) && nonempty w
      then Ok (w, wt, q)
      else
        match words q with
        | [] => Raise IndexError q
        | x :: rest =>
          get_curr_words_loop n' token_step (curr_tk_count + tk_count)
            (w ++ [x]) (wt ++ [tks]) (mkQueue rest rest_tokens)
        end
    end
  end.

Definition get_curr_words (token_step : Z) (q : queue)
  : outcome queue (list string * list (list token) * queue) :=
  get_curr_words_loop (length (words q)) token_step 0 [] [] q.

(** Number of tokens of a request. *)
Definition token_count (wt : list (list token)) : Z :=
  fold_right (fun tks acc => Z.of_nat (length tks) + acc) 0 wt.

(** A queue of three pending words with two, one and two tokens. *)
Definition sample_queue : queue :=
  mkQueue [" a"; " b"; " c"]%string [[1; 2]; [3]; [4; 5]].

End Align.

(** ** refine *)

Module Refine.

(** *** The result container (the part [refine] touches)

    [Word.segment_id] and [Word.id] are read only by the messages
    [update_ts] prints and are left out. *)
Record Word : Type := mkWord {
  word : string;
  tokens : list Z;
  start : Q;
  end_ : Q;
  probability : Q
}.

Record Segment : Type := mkSegment { seg_words : list Word }.

Record WhisperResult : Type := mkResult { segments : list Segment }.

(** [result.all_words()]: the words of all segments, in order. *)
Definition all_words (r : WhisperResult) : list Word :=
  concat (map seg_words (segments r)).

(** Assignment to a field of the word object that [all_words()] lists at
    position [i]: the object lives in its segment. *)
Fixpoint update_word (segs : list Segment) (i : nat) (f : Word -> Word)
  : list Segment :=
  match segs with
  | [] => []
  | s :: rest =>
    let n := length (seg_words s) in
    if (i <? n)%nat then mkSegment (alter f i (seg_words s)) :: rest
    else s :: update_word rest (i - n) f
  end.

Definition set_start (ts : Q) (w : Word) : Word :=
  mkWord (word w) (tokens w) ts (end_ w) (probability w).

Definition set_end (ts : Q) (w : Word) : Word :=
  mkWord (word w) (tokens w) (start w) ts (probability w).

(** *** numpy float division

    [a / b] on float arrays never raises: a zero divisor gives an
    infinity with the sign of [a], or NaN for [0 / 0] (probabilities are
    softmax outputs, so the zero is [+0.0]). *)
Inductive npfloat : Type :=
| Finite (q : Q)
| PosInf
| NegInf
| NaN.

Definition np_div (a b : Q) : npfloat :=
  if Qeq_bool b 0 then
    match Qcompare a 0 with
    | Eq => NaN
    | Gt => PosInf
    | Lt => NegInf
    end
  else Finite (a / b).

(** [x > t]: false whenever [x] is NaN. *)
Definition np_gt (x : npfloat) (t : Q) : bool :=
  match x with
  | Finite q => Qlt_bool t q
  | PosInf => true
  | NegInf => false
  | NaN => false
  end.

(** *** Mel features under muting

    A row of [mel_segment] has [N_FRAMES] time frames; each frame either
    still holds the original features or has been zeroed.  [true] marks a
    zeroed frame. *)
Definition mel : Type := list (list bool).

Definition orig_mel_row : list bool := repeat false (Z.to_nat N_FRAMES).

(** [orig_mel_segment.clone().repeat_interleave(2, 0)] *)
Definition fresh_mel_segment : mel := [orig_mel_row; orig_mel_row].

(** Bounds of a Python slice [a:b] over a dimension of length [len]. *)
Definition slice_index (len i : Z) : Z :=
  if i <? 0 then Z.max 0 (i + len) else Z.min i len.

Definition fill_slice (v : bool) (a b : Z) (r : list bool) : list bool :=
  let len := Z.of_nat (length r) in
  let a' := slice_index len a in
  let b' := slice_index len b in
  imap (fun j x => if (a' <=? Z.of_nat j) && (Z.of_nat j <? b') then v else x) r.

(** [mel_segment[row, :, a:b] = 0] *)
Definition mute (m : mel) (row : nat) (a b : Z) : mel :=
  alter (fill_slice true a b) row m.

(** [mel_segment[row, :, a:b] = orig_mel_segment[0, :, a:b]] *)
Definition restore (m : mel) (row : nat) (a b : Z) : mel :=
  alter (fill_slice false a b) row m.

(** *** Arguments of [refine] *)
Record options : Type := mkOptions {
  steps : option string;
  rel_prob_decrease : Q;
  abs_prob_decrease : Q;
  rel_rel_prob_decrease : option Q;
  prob_threshold : Q;
  rel_dur_change : option Q;
  abs_dur_change : option Q;
  word_level : bool;
  precision : option Q;
  inplace : bool;
  verbose : option bool
}.

(** The defaults of the signature. *)
Definition default_options : options :=
  mkOptions None (3 # 100) (5 # 100) None (1 # 2) (Some (1 # 2)) None
            true None true (Some false).

(** Truth value of [verbose], which is [True], [False] or [None]. *)
Definition truthy (v : option bool) : bool :=
  match v with Some true => true | _ => false end.

(** Line 441. *)
Definition frame_precision (o : options) : Z :=
  let precision := match precision o with None => 1 # 10 | Some p => p end in
  Z.max (round_half_even (precision * inject_Z FRAMES_PER_SECOND)) 2.

(** Line 442. *)
Definition total_duration (total_samples : Z) : Q :=
  round3 (inject_Z total_samples / inject_Z SAMPLE_RATE).

Definition ts_to_frames (ts : Q) : Z :=
  round_half_even (ts * inject_Z FRAMES_PER_SECOND).

(** *** Per-word search state

    The source keeps parallel arrays indexed by the position of the word
    in its batch; an [interval] is the row of these arrays at one index.
    [starts] is [(min_starts[idx], max_starts[idx], mid_starts[idx])],
    [ends] the same for the [*_ends] arrays, [changes] is [changes[idx]].
    [orig_probs] is the array that the names [orig_probs] and [new_probs]
    both refer to (line 620 binds them to one object). *)
Record interval : Type := mkInterval {
  starts : Z * Z * Z;
  ends : Z * Z * Z;
  is_finish : bool;
  changes : Z * Z * Z;
  orig_probs : Q;
  prev_probs : Q;
  orig_tk_poss : Z
}.

Definition bounds (is_end_ts : bool) (e : interval) : Z * Z * Z :=
  if is_end_ts then ends e else starts e.

Definition set_bounds (is_end_ts : bool) (b : Z * Z * Z) (e : interval) : interval :=
  if is_end_ts
  then mkInterval (starts e) b (is_finish e) (changes e) (orig_probs e) (prev_probs e) (orig_tk_poss e)
  else mkInterval b (ends e) (is_finish e) (changes e) (orig_probs e) (prev_probs e) (orig_tk_poss e).

Definition set_finish (e : interval) : interval :=
  mkInterval (starts e) (ends e) true (changes e) (orig_probs e) (prev_probs e) (orig_tk_poss e).

Definition set_changes (c : Z * Z * Z) (e : interval) : interval :=
  mkInterval (starts e) (ends e) (is_finish e) c (orig_probs e) (prev_probs e) (orig_tk_poss e).

Definition set_orig_probs (p : Q) (e : interval) : interval :=
  mkInterval (starts e) (ends e) (is_finish e) (changes e) p (prev_probs e) (orig_tk_poss e).

Definition set_prev_probs (p : Q) (e : interval) : interval :=
  mkInterval (starts e) (ends e) (is_finish e) (changes e) (orig_probs e) p (orig_tk_poss e).

Definition set_orig_tk_poss (k : Z) (e : interval) : interval :=
  mkInterval (starts e) (ends e) (is_finish e) (changes e) (orig_probs e) (prev_probs e) k.

(** [mid - min]: the half-width the source calls [new_mid_change]. *)
Definition half_width (is_end_ts : bool) (e : interval) : Z :=
  let '(mn, _, md) := bounds is_end_ts e in md - mn.

(** [max - min], and the relation the source keeps between the three
    bounds: [mid = min + round((max - min) / 2)]. *)
Definition width (is_end_ts : bool) (e : interval) : Z :=
  let '(mn, mx, _) := bounds is_end_ts e in mx - mn.

Definition centred (is_end_ts : bool) (e : interval) : Prop :=
  let '(mn, mx, md) := bounds is_end_ts e in md = mn + half_round (mx - mn).

(** [ceil(a / b)] and the bound [ceil(log2(h / fp)) + 2] on the number of
    turns an endpoint of half-width [h] takes. *)
Definition ceil_div (a b : Z) : Z := (a + b - 1) / b.

Definition endpoint_bound (fp h : Z) : nat :=
  (2 + Z.to_nat (Z.log2_up (ceil_div h fp)))%nat.

Definition iteration_bound (fp : Z) (is_end_ts : bool) (es : list interval) : nat :=
  fold_right Nat.max 0%nat
    (map (fun e => if is_finish e then 0%nat
                   else endpoint_bound fp (half_width is_end_ts e)) es).

(** State of the [while] loop of a batch. *)
Definition state : Type := (list interval * mel * WhisperResult)%type.

(** A batch yielded by [curr_segments]: [curr_words] is the run of
    [length curr_starts] words of [all_words()] that begins at position
    [first]; the word objects are shared with the result. *)
Record batch : Type := mkBatch {
  first : nat;
  curr_starts : list Q;
  curr_ends : list Q;
  edge_mask : list Z
}.

(** Objects live in a heap; a variable holds the address of its object. *)
Abbreviation heap := (gmap nat WhisperResult).

Section Engine.

(** External collaborators.
    - [duration]: the [duration] property of a word ([result.py]);
    - [has_words]: the [has_words] property of the result;
    - [update_all_segs_with_words]: the method of that name, applied to
      the result object once all passes are done;
    - [get_prob batch words is_end_ts prob_indices mel idx]: what the
      closure [get_prob] computes for the word at [idx] from one model
      call on the muted features: the probability of its boundary token
      and the position of that token in the sorted distribution. *)
Variable duration : Word -> Q.
Variable has_words : WhisperResult -> bool.
Variable update_all_segs_with_words : WhisperResult -> WhisperResult.
Variable get_prob : batch -> list Word -> bool -> list nat -> mel -> nat -> Q * Z.

(** [model.dims.n_text_ctx], [audio.shape[-1]] after [prep_audio], and the
    arguments of the call. *)
Variable n_text_ctx : Z.
Variable total_samples : Z.
Variable o : options.

Definition max_inference_tokens : Z := n_text_ctx - 6.

(** *** [curr_segments] *)

Definition seg_edge_mask (r : WhisperResult) : list Z :=
  concat (map (fun seg =>
    imap (fun _i (_ : Word) =>
      if Z.of_nat _i =? 0 then 1
      else if Z.of_nat _i =? Z.of_nat (length (seg_words seg)) - 1 then 2
      else 0) (seg_words seg)) (segments r)).

Definition qmax3 (a b c : Q) : Q := qmax (qmax a b) c.
Definition qmin3 (a b c : Q) : Q := qmin (qmin a b) c.

(** [start_times[i]], for [w = all_words[i]]. *)
Definition start_time (ws : list Word) (i : nat) (w : Word) : Q :=
  qmax3
    (match abs_dur_change o with None => 0 | Some a => start w - a end)
    (match rel_dur_change o with None => 0 | Some c => start w - duration w * c end)
    (match i with
     | O => 0
     | S j =>
       match ws !! j with
       | Some prev => qmax3 (end_ prev) (end_ w - (29 # 2)) 0
       | None => 0
       end
     end)%Q.

(** [end_times[i]], for [w = all_words[i]]; the source counts from 1 and
    tests [i == len(all_words)] where this tests for a next word. *)
Definition end_time (ws : list Word) (i : nat) (w : Word) : Q :=
  let total := total_duration total_samples in
  qmin3
    (match abs_dur_change o with None => total | Some a => end_ w + a end)
    (match rel_dur_change o with None => total | Some c => end_ w + duration w * c end)
    (match ws !! (S i) with
     | None => total
     | Some next => qmin3 (start next) (start w + (29 # 2)) total
     end)%Q.

(** [seg_edge_mask[a:a+n]] *)
Definition mask_slice (mask : list Z) (a n : nat) : list Z := take n (drop a mask).

(** The [for i, w in enumerate(all_words, 1)] loop: [times] are the
    entries of [start_times] and [end_times] not yet popped, [i] counts
    from 1, [n] is [len(all_words)].  The result lists the batches in the
    order they are yielded. *)
Fixpoint curr_segments_loop (mask : list Z) (n : nat) (times : list (Q * Q))
    (i : nat) (start_ : Q) (prev_i : nat) (cs ce : list Q) : list batch :=
  match times with
  | [] => []
  | (st, et) :: rest =>
    let over :=
      Qlt_bool 30 (et - start_)
      || (max_inference_tokens <? Z.of_nat (length cs) + 1) in
    let yielded :=
      if over && nonempty cs
      then [mkBatch prev_i cs ce (mask_slice mask prev_i (length cs))]
      else [] in
    let cs1 := if over && nonempty cs then [] else cs in
    let ce1 := if over && nonempty cs then [] else ce in
    let start1 := if over then st else start_ in
    let prev1 := if over then (i - 1)%nat else prev_i in
    let cs2 := cs1 ++ [st] in
    let ce2 := ce1 ++ [et] in
    let last :=
      if (i =? n)%nat
      then [mkBatch prev1 cs2 ce2 (mask_slice mask prev1 (length cs2))]
      else [] in
    yielded ++ last ++ curr_segments_loop mask n rest (S i) start1 prev1 cs2 ce2
  end.

(** [start_times[0]] raises [IndexError] when there is no word. *)
Definition curr_segments (r : WhisperResult) : outcome WhisperResult (list batch) :=
  let ws := all_words r in
  let start_times := imap (start_time ws) ws in
  let end_times := imap (end_time ws) ws in
  match start_times with
  | [] => Raise IndexError r
  | start0 :: _ =>
    Ok (curr_segments_loop (seg_edge_mask r) (length ws)
          (zip start_times end_times) 1 start0 0 [] [])
  end.

(** The [words] of a batch, read from the result. *)
Definition batch_words (r : WhisperResult) (b : batch) : list Word :=
  take (length (curr_starts b)) (drop (first b) (all_words r)).

(** *** [_refine]: set-up of one batch *)

(** Row [idx] of the arrays computed on lines 505-511 and 595-598, for
    the word [w] with clamps [cs], [ce] and edge mark [m]. *)
Definition init_interval (is_end_ts : bool) (time_offset : Q)
    (w : Word) (cs ce : Q) (m : Z) : interval :=
  let max_start := ts_to_frames (end_ w - time_offset) in
  let min_end := ts_to_frames (start w - time_offset) in
  let min_start := ts_to_frames (cs - time_offset) in
  let max_end := ts_to_frames (ce - time_offset) in
  let mid_start := min_start + half_round (max_start - min_start) in
  let mid_end := min_end + half_round (max_end - min_end) in
  let fin := Qlt_bool (probability w) (prob_threshold o) || Qeq_bool (duration w) 0 in
  let fin :=
    if word_level o then fin
    else if negb (m =? (if is_end_ts then 2 else 1)) then true else fin in
  mkInterval (min_start, max_start, mid_start) (min_end, max_end, mid_end)
             fin (0, 0, -1) 0 0 0.

Definition init_intervals (is_end_ts : bool) (time_offset : Q)
    (words : list Word) (b : batch) : list interval :=
  zip_with (fun w '(cs, (ce, m)) => init_interval is_end_ts time_offset w cs ce m)
    words (zip (curr_starts b) (zip (curr_ends b) (edge_mask b))).

(** [prob_indices] after the loop of lines 599-609. *)
Definition make_prob_indices (words : list Word) : list nat :=
  concat (imap (fun idx w => repeat (idx mod 2)%nat (length (tokens w))) words).

Definition min_of (t : Z * Z * Z) : Z := fst (fst t).
Definition max_of (t : Z * Z * Z) : Z := snd (fst t).
Definition mid_of (t : Z * Z * Z) : Z := snd t.

(** Lines 599-609: the audio outside the word is zeroed before the
    baseline probabilities are taken. *)
Definition mute_outside (is_end_ts : bool) (es : list interval) (m : mel) : mel :=
  fold_left (fun m '(idx, e) =>
    let row := (idx mod 2)%nat in
    if is_finish e then m
    else if is_end_ts then
      let _i := max_of (starts e) in
      let _p :=
        if (idx =? length es - 1)%nat then N_FRAMES
        else match es !! S idx with Some e' => mid_of (ends e') | None => 0 end in
      mute m row _i _p
    else
      let _i := min_of (ends e) in
      let _p :=
        if (idx =? 0)%nat then 0
        else match es !! (idx - 1)%nat with Some e' => mid_of (starts e') | None => 0 end in
      mute m row _p _i)
    (imap pair es) m.

(** Lines 613-618: the first candidate is zeroed. *)
Definition mute_first (is_end_ts : bool) (es : list interval) (m : mel) : mel :=
  fold_left (fun m '(idx, e) =>
    let row := (idx mod 2)%nat in
    let '(_s, _e) :=
      if is_end_ts then (mid_of (ends e), max_of (starts e))
      else (min_of (ends e), mid_of (starts e)) in
    if is_finish e then m else mute m row _s _e)
    (imap pair es) m.

(** [curr_mel_segment] of [get_prob]. *)
Definition curr_mel_segment (prob_indices : list nat) (m : mel) : mel :=
  if nonempty prob_indices then m else [orig_mel_row].

(** *** [update_ts]

    Called with [idx] the word being processed; [gi] is the position of
    [words[idx]] in [all_words()], which exists for every [idx] the loops
    enumerate.  The two [print] calls are left out. *)
Definition update_ts (is_end_ts : bool) (time_offset : Q) (gi : nat)
    (e : interval) (r : WhisperResult) : WhisperResult :=
  let '(c0, c1, c_last) := changes e in
  if negb (is_finish e) || (c_last =? -1) then r
  else
    let new_ts :=
      round3 (time_offset + inject_Z c_last / inject_Z FRAMES_PER_SECOND) in
    match all_words r !! gi with
    | None => r
    | Some w =>
      if negb (c0 =? 0) && (c1 =? 0)
         && (if is_end_ts then Qle_bool new_ts (end_ w)
             else Qle_bool (start w) new_ts)
      then r
      else if negb (truthy (verbose o)) then r
      else if is_end_ts
      then mkResult (update_word (segments r) gi (set_end new_ts))
      else mkResult (update_word (segments r) gi (set_start new_ts))
    end.

(** *** The bisection loop *)

(** Lines 638-644. *)
Definition failed_requirements (abs_diff : Q) (rel_diff rel_change_diff : npfloat)
    (prob : Q) (best_tks_changed : bool) : bool :=
  Qlt_bool (abs_prob_decrease o) abs_diff
  || np_gt rel_diff (rel_prob_decrease o)
  || match rel_rel_prob_decrease o with
     | Some t => np_gt rel_change_diff t
     | None => false
     end
  || Qlt_bool prob (prob_threshold o)
  || best_tks_changed.

(** The locals of [_refine] that the loop reads but does not change. *)
Record context : Type := mkContext {
  is_end_ts : bool;
  time_offset : Q;
  prob_indices : list nat;
  first_word : nat
}.

(** One turn of the [for idx, ... in enumerate(zip(...))] loop of lines
    627-683 for the word at [idx], whose new probability is [prob] and
    whose token sits at [tk_pos].  [prev_probs = probs] (line 626) has
    rebound the whole array before the loop starts. *)
Definition refine_idx (c : context) (idx : nat) (prob : Q) (tk_pos : Z)
    (e : interval) (m : mel) (r : WhisperResult)
  : outcome WhisperResult (interval * mel * WhisperResult) :=
  let abs_diff := (orig_probs e - prob)%Q in
  let rel_diff := np_div abs_diff (orig_probs e) in
  let rel_change_diff := np_div (prev_probs e - prob)%Q (prev_probs e) in
  let e := set_prev_probs prob e in
  if is_finish e then Ok (e, m, r)
  else
    let '(curr_min, curr_max, curr_mid) := bounds (is_end_ts c) e in
    match prob_indices c !! idx with
    | None => Raise IndexError r
    | Some row =>
      let best_tks_changed := orig_tk_poss e >? tk_pos in
      let failed :=
        failed_requirements abs_diff rel_diff rel_change_diff prob best_tks_changed in
      let '(c0, c1, c_last) := changes e in
      let e := if failed then set_changes (1, c1, c_last) e
               else set_changes (c0, 1, c_last) e in
      let '(curr_min, curr_max) :=
        if failed
        then (if is_end_ts c then (curr_mid, curr_max) else (curr_min, curr_mid))
        else (if is_end_ts c then (curr_min, curr_mid) else (curr_mid, curr_max)) in
      let new_mid_change := half_round (curr_max - curr_min) in
      if new_mid_change <? frame_precision o then
        let e := set_finish e in
        Ok (e, m, update_ts (is_end_ts c) (time_offset c) (first_word c + idx)%nat e r)
      else
        let new_mid := curr_min + new_mid_change in
        let m :=
          if failed
          then (if is_end_ts c then restore m row curr_min new_mid
                else restore m row new_mid curr_max)
          else (if is_end_ts c then mute m row new_mid curr_max
                else mute m row curr_min new_mid) in
        let e := set_bounds (is_end_ts c) (curr_min, curr_max, new_mid) e in
        let '(c0, c1, c_last) := changes e in
        let e := if best_tks_changed then e else set_changes (c0, c1, new_mid) e in
        let e := set_orig_probs prob e in
        Ok (e, m, r)
    end.

(** The [for] loop over the words of the batch, from index [idx] on. *)
Fixpoint refine_for (c : context) (probs : nat -> Q * Z) (idx : nat)
    (es : list interval) (m : mel) (r : WhisperResult)
  : outcome WhisperResult (list interval * mel * WhisperResult) :=
  match es with
  | [] => Ok ([], m, r)
  | e :: rest =>
    obind (refine_idx c idx (fst (probs idx)) (snd (probs idx)) e m r)
      (fun '(e', m1, r1) =>
    obind (refine_for c probs (S idx) rest m1 r1)
      (fun '(rest', m2, r2) =>
    Ok (e' :: rest', m2, r2)))
  end.

(** One turn of the [while] loop: a model call on the current features,
    then the [for] loop. *)
Definition refine_body (b : batch) (c : context)
    (st : list interval * mel * WhisperResult)
  : outcome WhisperResult (list interval * mel * WhisperResult) :=
  let '(es, m, r) := st in
  let probs :=
    get_prob b (batch_words r b) (is_end_ts c) (prob_indices c)
             (curr_mel_segment (prob_indices c) m) in
  refine_for c probs 0 es m r.

(** [while not np.all(is_finish)] *)
Fixpoint refine_while (fuel : nat) (b : batch) (c : context)
    (st : list interval * mel * WhisperResult)
  : outcome WhisperResult (list interval * mel * WhisperResult) :=
  if forallb is_finish (fst (fst st)) then Ok st
  else
    match fuel with
    | O => OutOfFuel (snd st)
    | S fuel' => st' <- refine_body b c st ;;; refine_while fuel' b c st'
    end.

(** [n] turns of the loop, whether or not a word is left to refine. *)
Fixpoint refine_iter (n : nat) (b : batch) (c : context)
    (st : list interval * mel * WhisperResult)
  : outcome WhisperResult (list interval * mel * WhisperResult) :=
  match n with
  | O => Ok st
  | S n' => st' <- refine_body b c st ;;; refine_iter n' b c st'
  end.

(** The state of a batch when its [while] loop is entered. *)
Definition refine_init (e_ts : bool) (b : batch) (r : WhisperResult)
  : outcome WhisperResult (context * list interval * mel) :=
  match curr_starts b with
  | [] => Raise IndexError r
  | t0 :: _ =>
    let words := batch_words r b in
    let es := init_intervals e_ts t0 words b in
    let c := mkContext e_ts t0 (make_prob_indices words) (first b) in
    let m := mute_outside e_ts es fresh_mel_segment in
    let orig := get_prob b words e_ts (prob_indices c)
                  (curr_mel_segment (prob_indices c) m) in
    let es := imap (fun idx e =>
      set_orig_tk_poss (snd (orig idx))
        (set_prev_probs (fst (orig idx)) (set_orig_probs (fst (orig idx)) e))) es in
    Ok (c, es, mute_first e_ts es m)
  end.

(** The body of [for words, min_starts, max_ends, edge_mask in
    curr_segments()] for one batch. *)
Definition refine_batch (fuel : nat) (e_ts : bool) (b : batch) (r : WhisperResult)
  : outcome WhisperResult WhisperResult :=
  obind (refine_init e_ts b r)
    (fun '(c, es, m) =>
  obind (refine_while fuel b c (es, m, r))
    (fun '(_, _, r') => Ok r')).

Fixpoint refine_batches (fuel : nat) (e_ts : bool) (bs : list batch)
    (r : WhisperResult) : outcome WhisperResult WhisperResult :=
  match bs with
  | [] => Ok r
  | b :: rest =>
    r' <- refine_batch fuel e_ts b r ;;;
    refine_batches fuel e_ts rest r'
  end.

(** [_refine(_step)] *)
Definition _refine (fuel : nat) (_step : ascii) (r : WhisperResult)
  : outcome WhisperResult WhisperResult :=
  bs <- curr_segments r ;;;
  refine_batches fuel (Ascii.eqb _step "e") bs r.

(** Progress measure of the loop.  [good k e]: the endpoint is finished, or is centred and at most
    [k + 1] turns away from finishing. *)
Definition good (e_ts : bool) (k : nat) (e : interval) : Prop :=
  is_finish e = true
  \/ (centred e_ts e
      /\ width e_ts e - 1 <= (4 * frame_precision o - 5) * 2 ^ Z.of_nat k).

(** *** [refine] *)

Definition is_step_letter (ch : ascii) : bool :=
  Ascii.eqb ch "s" || Ascii.eqb ch "e".

(** [steps.replace('s', '').replace('e', '')] *)
Definition invalid_steps (s : string) : list ascii :=
  filter (fun ch => is_step_letter ch = false) (list_ascii_of_string s).

Definition effective_steps : string :=
  match steps o with
  | None => "se"
  | Some EmptyString => "se"
  | Some s => s
  end.

Fixpoint refine_steps (fuel : nat) (ss : list ascii) (r : WhisperResult)
  : outcome WhisperResult WhisperResult :=
  match ss with
  | [] => Ok r
  | s :: rest =>
    r' <- _refine fuel s r ;;;
    refine_steps fuel rest r'
  end.

(** What [refine] does to the object it works on, once the arguments
    are validated and the copy, if any, is made. *)
Definition refine_object (fuel : nat) (r : WhisperResult)
  : outcome WhisperResult WhisperResult :=
  r' <- refine_steps fuel (list_ascii_of_string effective_steps) r ;;;
  Ok (update_all_segs_with_words r').

(** [copy.deepcopy] allocates a new object with the same contents. *)
Definition deepcopy (h : heap) (r : WhisperResult) : heap * nat :=
  let a := fresh (dom h) in (<[a := r]> h, a).

(** [refine(model, audio, result, ...)], [result] being the address of
    the caller's object.  The heap is returned in every case; the value is
    the address of the returned object. *)
Definition refine (fuel : nat) (h : heap) (result : nat)
  : heap * outcome unit nat :=
  match h !! result with
  | None => (h, Raise TypeError tt)
  | Some r0 =>
    if nonempty (invalid_steps effective_steps) then (h, Raise ValueError tt)
    else if negb (has_words r0) then (h, Raise NotImplementedError tt)
    else
      let '(h1, result1) := if inplace o then (h, result) else deepcopy h r0 in
      match refine_object fuel r0 with
      | Ok r' => (<[result1 := r']> h1, Ok result1)
      | Raise e r' => (<[result1 := r']> h1, Raise e tt)
      | OutOfFuel r' => (<[result1 := r']> h1, OutOfFuel tt)
      end
  end.

End Engine.

(** *** The acceptance test as the documentation words it

    [abs_prob_decrease] and [rel_prob_decrease] bound the decrease from
    the original probability, [rel_rel_prob_decrease] the decrease from
    the probability of the previous turn. *)
Definition failed_requirements_doc (o : options) (baseline prev prob : Q)
    (rank_regressed : bool) : bool :=
  Qlt_bool (abs_prob_decrease o) (baseline - prob)
  || np_gt (np_div (baseline - prob) baseline) (rel_prob_decrease o)
  || match rel_rel_prob_decrease o with
     | Some t => np_gt (np_div (prev - prob) prev) t
     | None => false
     end
  || Qlt_bool prob (prob_threshold o)
  || rank_regressed.

(** *** Sample inputs *)

(** A word's duration as the difference of its timestamps. *)
Definition sample_duration (w : Word) : Q := round3 (end_ w - start w).


(** One word from 1 s to 2 s in three seconds of audio. *)
Definition sample_word : Word := mkWord " hello" [1] 1 2 (9 # 10).
Definition sample_result : WhisperResult := mkResult [mkSegment [sample_word]].
Definition sample_total_samples : Z := 48000.

(** The batch [curr_segments] yields for it under the default options. *)
Definition sample_batch : batch := mkBatch 0 [1 # 2] [5 # 2] [1].

(** A word without duration before the sample word, and the batch
    [curr_segments] yields for the two under the options below. *)
Definition two_word_result : WhisperResult :=
  mkResult [mkSegment [mkWord " hm" [2] 1 1 (9 # 10); sample_word]].
Definition two_word_batch : batch :=
  mkBatch 0 [2000 # 2000; 1 # 1] [2000 # 2000; 5000 # 2000] [1; 2].

(** Start timestamps only, with and without [verbose]. *)
Definition start_options (v : option bool) : options :=
  mkOptions (Some "s"%string) (3 # 100) (5 # 100) None (1 # 2) (Some (1 # 2)) None
            true None true v.



(** Number of zeroed frames in the first row. *)
Definition muted_frames (m : mel) : nat :=
  match m with
  | [] => 0%nat
  | row :: _ => length (filter (fun x => x = true) row)
  end.

(** A model whose answer does not depend on the muting. *)
Definition steady_model : batch -> list Word -> bool -> list nat -> mel -> nat -> Q * Z :=
  fun _ _ _ _ _ _ => (9 # 10, 5).

(** A model that loses two points of probability with each further
    stretch of muted audio: 0.90, 0.88, 0.86, 0.84. *)
Definition drifting_model : batch -> list Word -> bool -> list nat -> mel -> nat -> Q * Z :=
  fun _ _ _ _ m _ =>
    let k := muted_frames m in
    if (k <=? 50)%nat then (90 # 100, 5)
    else if (k <=? 75)%nat then (88 # 100, 5)
    else if (k <=? 113)%nat then (86 # 100, 5)
    else (84 # 100, 5).

(** A model that gives the token no probability until more audio is
    muted. *)
Definition silent_baseline_model
  : batch -> list Word -> bool -> list nat -> mel -> nat -> Q * Z :=
  fun _ _ _ _ m _ =>
    if (muted_frames m <=? 50)%nat then (0 # 1, 5) else (6 # 10, 5).

(** What a run of the loop of a batch leaves behind: for every word
    [is_finish], [changes] and [orig_probs], and the timestamps of the
    words of the result. *)
Definition report (st : state) : list (bool * (Z * Z * Z) * Q) * list (Q * Q) :=
  let '(es, _, r) := st in
  (map (fun e => (is_finish e, changes e, orig_probs e)) es,
   map (fun w => (start w, end_ w)) (all_words r)).

Definition run_report (x : outcome WhisperResult state)
  : option (list (bool * (Z * Z * Z) * Q) * list (Q * Q)) :=
  match x with
  | Ok st => Some (report st)
  | _ => None
  end.

(** [n] turns of the loop of the sample batch, start timestamps. *)
Definition sample_turns (get_prob : batch -> list Word -> bool -> list nat -> mel -> nat -> Q * Z)
    (o : options) (n : nat) : outcome WhisperResult state :=
  obind (refine_init sample_duration get_prob o false sample_batch sample_result)
    (fun '(c, es, m) => refine_iter get_prob o n sample_batch c (es, m, sample_result)).

(** The whole loop of the sample batch. *)
Definition sample_run (get_prob : batch -> list Word -> bool -> list nat -> mel -> nat -> Q * Z)
    (o : options) (fuel : nat) : outcome WhisperResult state :=
  obind (refine_init sample_duration get_prob o false sample_batch sample_result)
    (fun '(c, es, m) => refine_while get_prob o fuel sample_batch c (es, m, sample_result)).

End Refine.

(** ** locate *)

Module Locate.

(** [CHUNK_SAMPLES = round(CHUNK_LENGTH * SAMPLE_RATE)] *)
Definition CHUNK_SAMPLES : Z := round_half_even (inject_Z CHUNK_LENGTH * inject_Z SAMPLE_RATE).

(** *** The search cursor *)

(** The nonlocals of [_locate]. *)
Record cursor : Type := mkCursor {
  seek_sample : Z;
  found : Z;
  prev_target_end : option Q
}.

(** [prev_target_end == target_end], where [prev_target_end] starts as
    [None]. *)
Definition same_estimate (prev : option Q) (target_end : Q) : bool :=
  match prev with
  | None => false
  | Some p => Qeq_bool p target_end
  end.

(** Lines 900-914: what a probe does in mode 2 once the attention peak
    [target_end] is known.  Returns the new cursor and the value of
    the [target_end] entry of the returned dictionary. *)
Definition probe_mode2 (count total_samples : Z) (target_end : Q) (c : cursor)
  : cursor * Q :=
  let seek := round3 (inject_Z (seek_sample c) / inject_Z SAMPLE_RATE) in
  let found1 := found c + 1 in
  let seek_sample1 :=
    if (seek_sample c + CHUNK_SAMPLES >=? total_samples)
       || (negb (count =? 0) && (found1 >=? count))
       || same_estimate (prev_target_end c) target_end
    then total_samples
    else seek_sample c + round_half_even (target_end * inject_Z SAMPLE_RATE) in
  (mkCursor seek_sample1 found1 (Some target_end), (target_end + seek)%Q).

(** The guard of the search loop (line 1058). *)
Definition searching (count total_samples : Z) (c : cursor) : bool :=
  (seek_sample c <? total_samples) && ((count =? 0) || (found c <? count)).

(** [locate] with [mode = 2]: [estimate] gives the attention peak of the
    chunk that starts at a sample. *)
Fixpoint locate_mode2 (estimate : Z -> Q) (count total_samples : Z)
    (fuel : nat) (c : cursor) (matches : list Q)
  : outcome cursor (list Q) :=
  if searching count total_samples c then
    match fuel with
    | O => OutOfFuel c
    | S fuel' =>
      let '(c', m) := probe_mode2 count total_samples (estimate (seek_sample c)) c in
      locate_mode2 estimate count total_samples fuel' c' (matches ++ [m])
    end
  else Ok matches.

(** *** The confirmation decode *)

(** What one decoder call yields after suppression: the two tokens with
    the largest logits ([sorted_logits_idxs[-1]] and [[-2]]) and the
    softmax over the tokens below [eot]. *)
Record logits : Type := mkLogits {
  top : Z;
  second : Z;
  softmax : Z -> Q
}.

(** The locals of the [while not_end] loop.  [cache] lists the tokens the
    key-value cache holds; [infer_tokens] is kept flat. *)
Record decoding : Type := mkDecoding {
  predictions : list (Z * option Q);
  target_token_idx : nat;
  not_end : bool;
  found_target : bool;
  curr_eots : Z;
  tokens_to_decode : list Z;
  replace_found_tokens : list Z;
  infer_tokens : list Z;
  temp_tokens : list Z;
  cache : list Z;
  n_found : Z
}.

(** [logits[:tokenizer.eot].softmax(dim=-1)[i]] for a token id [i] that
    comes from the caller: the tensor has [eot] entries, a negative index
    counts from its end, and an index outside it raises [IndexError]. *)
Definition softmax_at (lg : logits) (eot i : Z) : option Q :=
  if (0 <=? i) && (i <? eot) then Some (softmax lg i)
  else if (- eot <=? i) && (i <? 0) then Some (softmax lg (i + eot))
  else None.

(** The token ids that index that tensor without raising. *)
Definition in_vocabulary (eot t : Z) : Prop := - eot <= t < eot.

(** [s.endswith(suffix)] on lists of characters. *)
Fixpoint starts_with (p s : list ascii) : bool :=
  match p, s with
  | [], _ => true
  | _ :: _, [] => false
  | a :: p', b :: s' => Ascii.eqb a b && starts_with p' s'
  end.

Definition endswith (s suffix : string) : bool :=
  starts_with (rev (list_ascii_of_string suffix)) (rev (list_ascii_of_string s)).

(** Replace the last element of a list: a tensor stored in a list and
    then written in place. *)
Definition set_last {A} (x : A) (l : list A) : list A :=
  match rev l with
  | [] => []
  | _ :: r => rev (x :: r)
  end.

Section Confirm.

(** External collaborators and arguments: the decoder as a function of
    the tokens it has been fed since the cache was last cleared,
    [tokenizer.decode], [str.lower], [tokenizer.eot], and the arguments
    of [locate]. *)
Variable decoder : list Z -> logits.
Variable tokenizer_decode : list Z -> string.
Variable lower : string -> string.
Variable eot : Z.
Variable text : string.
Variable text_tokens : list Z.
Variable probability_threshold : Q.
Variable eots : Z.
Variable max_token_per_seg : Z.
Variable exact_token : bool.
Variable case_sensitive : bool.

(** State before the first decoder call (lines 921-933). *)
Definition decoding_init (initial_tokens : list Z) (found0 : Z) : decoding :=
  mkDecoding [] 0 true false 0 [] [] initial_tokens initial_tokens [] found0.

(** Lines 984-987: [torch.cat] along dimension 0 of a [(1, L - k)] and a
    [(1, k)] tensor needs [L - k = k]. *)
Definition cat_fits (L k : nat) : bool := (L - k =? k)%nat.

(** Lines 957-964, for a step at which [found_target] is false. *)
Definition accepts (target_word_prob : Q) (best_non_eot_token target : Z)
    (is_match : bool) : bool :=
  Qle_bool probability_threshold target_word_prob
  || (best_non_eot_token =? target)
  || is_match.

(** Lines 1001-1006. *)
Definition finish_step (s : decoding) (best_token : Z) (token_prob : option Q)
  : decoding :=
  let preds := predictions s ++ [(best_token, token_prob)] in
  let not_end1 :=
    if Z.of_nat (length preds) >? max_token_per_seg then false else not_end s in
  mkDecoding preds (target_token_idx s) not_end1 (found_target s) (curr_eots s)
    (tokens_to_decode s) (replace_found_tokens s)
    (if not_end1 then infer_tokens s ++ [best_token] else infer_tokens s)
    (if not_end1 then [best_token] else temp_tokens s)
    (cache s) (n_found s).

(** Lines 981-999: the branch taken when the step is not accepted. *)
Definition reject_step (s : decoding) (lg : logits) (best_non_eot_token : Z)
  : outcome decoding decoding :=
  let rewind := negb (found_target s) && nonempty (replace_found_tokens s) in
  if rewind
     && negb (cat_fits (length (infer_tokens s)) (length (replace_found_tokens s)))
  then Raise RuntimeError s
  else
    let replace1 := if rewind then [] else replace_found_tokens s in
    let cache1 := if rewind then [] else cache s in
    let idx1 := if found_target s then target_token_idx s else 0%nat in
    let is_eot := top lg =? eot in
    let halt := is_eot && ((curr_eots s >=? eots) || found_target s) in
    let curr_eots1 :=
      if is_eot then (if halt then curr_eots s else curr_eots s + 1) else 0 in
    let best_token :=
      if is_eot && negb halt then best_non_eot_token else top lg in
    let token_prob :=
      if best_token =? eot then None else Some (softmax lg best_token) in
    Ok (finish_step
          (mkDecoding (predictions s) idx1 (if halt then false else not_end s)
             (found_target s) curr_eots1 (tokens_to_decode s) replace1
             (infer_tokens s) (temp_tokens s) cache1 (n_found s))
          best_token token_prob).

(** One turn of [while not_end] (lines 935-1006). *)
Definition decode_step (s : decoding) : outcome decoding decoding :=
  let lg := decoder (cache s ++ temp_tokens s) in
  let s := mkDecoding (predictions s) (target_token_idx s) (not_end s)
             (found_target s) (curr_eots s) (tokens_to_decode s)
             (replace_found_tokens s) (infer_tokens s) (temp_tokens s)
             (cache s ++ temp_tokens s) (n_found s) in
  let best_non_eot_token := if top lg =? eot then second lg else top lg in
  if found_target s then reject_step s lg best_non_eot_token
  else
    let ttd :=
      if exact_token then tokens_to_decode s
      else tokens_to_decode s ++ [best_non_eot_token] in
    let temp_text :=
      if case_sensitive then tokenizer_decode ttd else lower (tokenizer_decode ttd) in
    let is_match := if exact_token then false else endswith temp_text text in
    let ttd := if is_match then [] else ttd in
    match text_tokens !! target_token_idx s with
    | None => Raise IndexError s
    | Some target =>
      let s := mkDecoding (predictions s) (target_token_idx s) (not_end s)
                 (found_target s) (curr_eots s) ttd
                 (replace_found_tokens s) (infer_tokens s) (temp_tokens s)
                 (cache s) (n_found s) in
      match softmax_at lg eot target with
      | None => Raise IndexError s
      | Some target_word_prob =>
        if accepts target_word_prob best_non_eot_token target is_match then
          if is_match then
            Ok (finish_step
                  (mkDecoding (predictions s) (target_token_idx s) (not_end s)
                     true 0 ttd (replace_found_tokens s) (infer_tokens s)
                     (temp_tokens s) (cache s) (n_found s + 1))
                  best_non_eot_token (Some (softmax lg best_non_eot_token)))
          else
            (* [best_token[None] = target] writes the tensor in place; when
               the top token is not [eot], [best_non_eot_token] and the last
               element of [tokens_to_decode] are that same tensor. *)
            let aliased := negb (top lg =? eot) in
            let best_non_eot_token := if aliased then target else best_non_eot_token in
            let ttd := if aliased && negb exact_token then set_last target ttd else ttd in
            let replace1 :=
              if nonempty (replace_found_tokens s) || negb (best_non_eot_token =? target)
              then replace_found_tokens s ++ [best_non_eot_token]
              else replace_found_tokens s in
            let idx1 := S (target_token_idx s) in
            let found1 := (idx1 =? length text_tokens)%nat in
            Ok (finish_step
                  (mkDecoding (predictions s) idx1 (not_end s) found1 0 ttd replace1
                     (infer_tokens s) (temp_tokens s) (cache s)
                     (if found1 then n_found s + 1 else n_found s))
                  target (Some target_word_prob))
        else reject_step s lg best_non_eot_token
      end
    end.

Fixpoint decode_loop (fuel : nat) (s : decoding) : outcome decoding decoding :=
  if not_end s then
    match fuel with
    | O => OutOfFuel s
    | S fuel' => s' <- decode_step s ;;; decode_loop fuel' s'
    end
  else Ok s.

End Confirm.

(** *** Sample inputs *)


(** A decoder that answers token 7 with probability 0.9. *)
Definition echo_decoder : list Z -> logits :=
  fun _ => mkLogits 7 3 (fun _ => 9 # 10).

(** [tokenizer.decode] and [str.lower] are not consulted in exact-token
    mode. *)
Definition no_text : list Z -> string := fun _ => EmptyString.


(** [final_tokens] of line 1015. *)
Definition final_tokens (s : decoding) : list Z := map fst (predictions s).

(** *** Windows that are not confirmed (modes 0 and 1) *)

(** [assert CHUNK_SAMPLES > window_sum], for [duration_window = (dw0,
    dw1)]: a number of samples compared with a sum of seconds. *)
Definition window_assert (dw0 dw1 : Q) : bool :=
  Qlt_bool (dw0 + dw1) (inject_Z CHUNK_SAMPLES).

(** [adjusted_chunk_size = CHUNK_SAMPLES - round(duration_window[0] * SAMPLE_RATE)] *)
Definition adjusted_chunk_size (dw0 : Q) : Z :=
  CHUNK_SAMPLES - round_half_even (dw0 * inject_Z SAMPLE_RATE).

(** [audio[seek_sample: seek_sample + CHUNK_SAMPLES].shape[-1]] *)
Definition audio_segment_len (total_samples seek : Z) : Z :=
  Z.max 0 (Refine.slice_index total_samples (seek + CHUNK_SAMPLES)
           - Refine.slice_index total_samples seek).

(** Line 1051: the cursor after a window in which the target was not
    found. *)
Definition unconfirmed_seek (total_samples seek : Z) (dw0 : Q) : Z :=
  let n := audio_segment_len total_samples seek in
  seek + (if n =? CHUNK_SAMPLES then adjusted_chunk_size dw0 else n).

End Locate.

(** ** Runs that come to an end *)


(** A computation with a step budget settles: from some budget on it
    comes to an end, by returning or by raising, and a larger budget
    changes nothing. *)
Definition settles {S A} (run : nat -> outcome S A) : Prop :=
  exists n, forall fuel, (n <= fuel)%nat -> terminates (run fuel) /\ run fuel = run n.

(** ** refine: what a pass may change *)

Module RefineFrame.
Import Refine.

(** [r'] differs from [r] at most in timestamps of words: the same
    segments with the same number of words, and every word keeps its
    text, tokens and probability. *)
Definition only_timestamps (r r' : WhisperResult) : Prop :=
  map (fun s => length (seg_words s)) (segments r')
    = map (fun s => length (seg_words s)) (segments r)
  /\ map word (all_words r') = map word (all_words r)
  /\ map tokens (all_words r') = map tokens (all_words r)
  /\ map probability (all_words r') = map probability (all_words r).

(** A pass over end timestamps leaves the starts alone, and a pass over
    start timestamps the ends. *)
Definition other_endpoint_kept (is_end_ts : bool) (r r' : WhisperResult) : Prop :=
  if is_end_ts then map start (all_words r') = map start (all_words r)
  else map end_ (all_words r') = map end_ (all_words r).

(** The word at position [t] of [all_words()] is the same in both. *)
Definition word_kept (t : nat) (r r' : WhisperResult) : Prop :=
  all_words r' !! t = all_words r !! t.

(** Words that are finished before the loop of a batch starts (line
    595-596). *)
Definition skipped (duration : Word -> Q) (o : options) (w : Word) : bool :=
  Qlt_bool (probability w) (prob_threshold o) || Qeq_bool (duration w) 0.

(** The positions of [all_words()] a batch stands for. *)
Definition batch_range (b : batch) : list nat :=
  seq (first b) (length (curr_starts b)).

(** A batch as [curr_segments] forms them: not empty, a clamp pair for
    every word, no more words than the model takes tokens (at least
    one), and every end clamp but the first within 30 seconds of the
    first start clamp. *)
Definition well_formed_batch (n_text_ctx : Z) (b : batch) : Prop :=
  curr_starts b <> []
  /\ length (curr_ends b) = length (curr_starts b)
  /\ Z.of_nat (length (curr_starts b)) <= Z.max 1 (max_inference_tokens n_text_ctx)
  /\ forall s0, head (curr_starts b) = Some s0 ->
       Forall (fun e => (e - s0 <= 30)%Q) (tail (curr_ends b)).

(** [changes[idx, -1]]: the last midpoint that did not move the best
    token, or [-1]. *)
Definition last_change (e : interval) : Z := snd (changes e).

(** [new_ts] of line 571 for the frame [f]. *)
Definition frame_time (t0 : Q) (f : Z) : Q :=
  round3 (t0 + inject_Z f / inject_Z FRAMES_PER_SECOND).

(** The search of an endpoint stays among the frames [P]: while it is
    not finished its midpoint is centred and every frame between its
    bounds is in [P], and so is the midpoint it has recorded, if any. *)
Definition in_search (is_end_ts : bool) (P : Z -> Prop) (e : interval) : Prop :=
  (is_finish e = false ->
     centred is_end_ts e
     /\ forall f,
          min_of (bounds is_end_ts e) <= f <= max_of (bounds is_end_ts e) -> P f)
  /\ (last_change e = -1 \/ P (last_change e)).

(** Every word of [r'] is the word of [r] at its position, or that word
    with the timestamp of the pass set to the time of a frame that [P]
    admits for its index in the batch. *)
Definition rewritten (is_end_ts : bool) (t0 : Q) (first_word : nat)
    (P : nat -> Z -> Prop) (r r' : WhisperResult) : Prop :=
  forall t w, all_words r !! t = Some w ->
    exists w', all_words r' !! t = Some w'
      /\ (w' = w
          \/ exists idx f, t = (first_word + idx)%nat /\ P idx f
               /\ w' = (if is_end_ts then set_end else set_start) (frame_time t0 f) w).

(** The frames the search of the word at index [idx] of batch [b] starts
    from: between the clamp and the other endpoint of the word, relative
    to the start clamp [t0] of the batch. *)
Definition search_frames (is_end_ts : bool) (b : batch) (r : WhisperResult) (t0 : Q)
    (idx : nat) (f : Z) : Prop :=
  exists w cs ce,
    all_words r !! (first b + idx)%nat = Some w
    /\ curr_starts b !! idx = Some cs /\ curr_ends b !! idx = Some ce
    /\ (if is_end_ts
        then ts_to_frames (start w - t0) <= f <= ts_to_frames (ce - t0)
        else ts_to_frames (cs - t0) <= f <= ts_to_frames (end_ w - t0)).

End RefineFrame.

(** ** align: the windowing loop *)

Module AlignLoop.
Import Align.

(** An entry of [segment['words']], as the extractor returns it. *)
Record word_dict : Type := mkWordDict {
  word : string;
  tokens : list token;
  start : Q;
  end_ : Q;
  probability : Q
}.

(** [words.insert(0, word['word']); word_tokens.insert(0, word['tokens'])] *)
Definition push_back (wd : word_dict) (q : queue) : queue :=
  mkQueue (word wd :: words q) (tokens wd :: word_tokens q).

(** Lines 258-270, on [segment['words']] read from its last entry
    backwards; returns what is left of it, reversed, and the queue.  The
    turn that sets [break_next] leaves the list as it is, and the turn
    after it pushes the same last entry back and breaks: the [elif]
    branch below does both. *)
Fixpoint requeue_loop (rev_words : list word_dict) (q : queue)
  : list word_dict * queue :=
  match rev_words with
  | [] => ([], q)
  | wd :: rest =>
    if Qeq_bool (end_ wd - start wd) 0 then requeue_loop rest (push_back wd q)
    else if nonempty (words q) then (rest, push_back wd q)
    else (wd :: rest, q)
  end.

Definition requeue (segment_words : list word_dict) (q : queue)
  : list word_dict * queue :=
  let '(kept, q') := requeue_loop (rev segment_words) q in (rev kept, q').

(** The nonlocals of the loop. *)
Record progress : Type := mkProgress {
  pending : queue;
  seek_sample : Z;
  finished_tokens : Z;
  result : list word_dict
}.

(** [audio[seek_sample:seek_sample_end].shape[-1]] *)
Definition segment_samples (total_samples seek : Z) : Z :=
  Z.max 0 (Refine.slice_index total_samples (seek + N_SAMPLES)
           - Refine.slice_index total_samples seek).

Definition dict_token_count (ws : list word_dict) : Z :=
  fold_right (fun w acc => Z.of_nat (length (tokens w)) + acc) 0 ws.

(** [word['end'] - word['start'] == 0] *)
Definition zero_duration (w : word_dict) : Prop := (end_ w - start w == 0)%Q.

(** [words] and [word_tokens] have an entry each for every pending
    word. *)
Definition aligned (q : queue) : Prop := length (words q) = length (word_tokens q).

Section Loop.

(** [extract seek_sample curr_words curr_word_tokens]: the value
    [add_word_timestamps_stable] leaves in [segment['words']] for the
    window that starts at [seek_sample]. *)
Variable extract : Z -> list string -> list (list token) -> list word_dict.
Variable token_step : Z.
Variable total_samples : Z.
Variable remove_instant_words : bool.

(** One turn of the [while] loop of lines 231-288. *)
Definition align_step (p : progress) : outcome queue progress :=
  obind (get_curr_words token_step (pending p))
    (fun '(curr_words, curr_word_tokens, q1) =>
       let n := segment_samples total_samples (seek_sample p) in
       let segment_words := extract (seek_sample p) curr_words curr_word_tokens in
       let '(kept, q2) := requeue segment_words q1 in
       let seek1 :=
         match last kept with
         | Some w => round_half_even (end_ w * inject_Z SAMPLE_RATE)
         | None => seek_sample p + n
         end in
       Ok (mkProgress q2 seek1 (finished_tokens p + dict_token_count kept)
             (result p ++ kept))).

(** [while words and seek_sample < total_samples] *)
Fixpoint align_loop (fuel : nat) (p : progress) : outcome queue progress :=
  if nonempty (words (pending p)) && (seek_sample p <? total_samples) then
    match fuel with
    | O => OutOfFuel (pending p)
    | S fuel' => obind (align_step p) (align_loop fuel')
    end
  else Ok p.

(** Lines 293-304: the words still pending get the total duration and
    probability zero, unless they are to be removed; an empty result is
    returned as [None]. *)
Definition finish_align (p : progress) : option (list word_dict) :=
  let total_duration := round3 (inject_Z total_samples / inject_Z SAMPLE_RATE) in
  let rest :=
    if nonempty (words (pending p)) && negb remove_instant_words
    then zip_with (fun w wt => mkWordDict w wt total_duration total_duration 0)
           (words (pending p)) (word_tokens (pending p))
    else [] in
  let res := result p ++ rest in
  if nonempty res then Some res else None.

End Loop.

(** The number of windows between [seek] and the end of the audio. *)
Definition windows_left (total_samples seek : Z) : Z :=
  (total_samples - seek + N_SAMPLES - 1) / N_SAMPLES.

(** What the loop needs of [add_word_timestamps_stable] to advance: asked
    for words with their tokens at a position in the audio, it returns
    words that carry the same number of tokens in all and do not end
    before time zero, and no word without tokens unless it was given
    one. *)
Definition extractor_keeps_tokens
    (extract : Z -> list string -> list (list token) -> list word_dict) : Prop :=
  forall seek ws wts,
    length ws = length wts -> 0 <= seek ->
    dict_token_count (extract seek ws wts) = token_count wts
    /\ Forall (fun w => (0 <= end_ w)%Q) (extract seek ws wts)
    /\ (Forall (fun t => t <> []) wts ->
        Forall (fun w => tokens w <> []) (extract seek ws wts)).

(** *** Sample inputs *)

(** An extractor that gives every word it is asked for one second from
    the start of the window. *)
Definition echo_extract : Z -> list string -> list (list token) -> list word_dict :=
  fun seek ws wts =>
    zip_with (fun w wt =>
      mkWordDict w wt (inject_Z seek / inject_Z SAMPLE_RATE)
        (inject_Z seek / inject_Z SAMPLE_RATE + 1) (9 # 10)) ws wts.

(** An extractor that resolves nothing. *)
Definition no_extract : Z -> list string -> list (list token) -> list word_dict :=
  fun _ _ _ => [].

(** The sample queue at the start of one minute of audio. *)
Definition sample_progress : progress := mkProgress sample_queue 0 0 [].

End AlignLoop.

(** * Properties *)

(** ** Rounding *)

Lemma half_round_eq (w : Z) :
  half_round w = w / 2 + (if Z.odd w && Z.odd (w / 2) then 1 else 0).
Proof.
  unfold half_round, round_half_even.
  assert (Hf : Qfloor (inject_Z w / 2) = w / 2).
  { unfold Qfloor, Qdiv, Qmult, Qinv, inject_Z. simpl. rewrite Z.mul_1_r. reflexivity. }
  rewrite Hf.
  unfold Qcompare, Qminus, Qplus, Qopp, Qdiv, Qmult, Qinv, inject_Z. simpl.
  rewrite !Z.mul_1_r.
  change (Z.pos (1 * 2)) with 2. change (1 * Z.pos (1 * 2 * 1)) with 2.
  pose proof (Z.div_mod w 2 ltac:(lia)) as Hdm.
  pose proof (Zmod_odd w) as Hodd.
  rewrite <- Z.negb_odd.
  destruct (Z.odd w); destruct (Z.odd (w / 2)); simpl;
    destruct (Z.compare_spec ((w + - (w / 2) * 2) * 2) 2); lia.
Qed.

Lemma half_round_bounds (w : Z) : 2 * half_round w - 1 <= w <= 2 * half_round w + 1.
Proof.
  rewrite half_round_eq.
  pose proof (Z.div_mod w 2 ltac:(lia)) as Hdm.
  pose proof (Zmod_odd w) as Hodd.
  destruct (Z.odd w); destruct (Z.odd (w / 2)); simpl; lia.
Qed.

Lemma half_round_mono (a b : Z) : a <= b -> half_round a <= half_round b.
Proof.
  intros Hab. rewrite !half_round_eq.
  pose proof (Z.div_mod a 2 ltac:(lia)) as Ha.
  pose proof (Z.div_mod b 2 ltac:(lia)) as Hb.
  pose proof (Zmod_odd a) as Hoa. pose proof (Zmod_odd b) as Hob.
  pose proof (Zmod_odd (a / 2)) as Hoa2. pose proof (Zmod_odd (b / 2)) as Hob2.
  pose proof (Z.div_mod (a / 2) 2 ltac:(lia)) as Ha2.
  pose proof (Z.div_mod (b / 2) 2 ltac:(lia)) as Hb2.
  assert (a / 2 <= b / 2) by (apply Z.div_le_mono; lia).
  destruct (Z.odd a); destruct (Z.odd (a / 2)); destruct (Z.odd b); destruct (Z.odd (b / 2));
    simpl; lia.
Qed.

(** [round] and [round(x, 3)] stay within half a unit of their argument. *)
Lemma round_half_even_near (x : Q) :
  (x - (1 # 2) <= inject_Z (round_half_even x) <= x + (1 # 2))%Q.
Proof.
  unfold round_half_even. cbn zeta.
  pose proof (Qfloor_le x) as Hlo. pose proof (Qlt_floor x) as Hhi.
  rewrite inject_Z_plus in Hhi. change (inject_Z 1) with 1%Q in Hhi.
  destruct (Qcompare (x - inject_Z (Qfloor x)) (1 # 2)) eqn:Hcmp.
  - apply Qeq_alt in Hcmp.
    destruct (Z.even (Qfloor x)); [|rewrite inject_Z_plus; change (inject_Z 1) with 1%Q];
      split; lra.
  - apply Qlt_alt in Hcmp. split; lra.
  - apply Qgt_alt in Hcmp. rewrite inject_Z_plus. change (inject_Z 1) with 1%Q.
    split; lra.
Qed.

Lemma round3_near (x : Q) :
  (x - (1 # 2000) <= round3 x <= x + (1 # 2000))%Q.
Proof.
  unfold round3. pose proof (round_half_even_near (x * 1000)) as H.
  unfold Qdiv. change (/ 1000)%Q with (1 # 1000)%Q. split; lra.
Qed.

(** ** align *)

Module AlignProofs.
Import Align.

Lemma token_count_nonneg (wt : list (list token)) : 0 <= token_count wt.
Proof. induction wt as [|t wt IH]; simpl; lia. Qed.

Lemma token_count_app (a b : list (list token)) :
  token_count (a ++ b) = token_count a + token_count b.
Proof. induction a as [|t a IH]; simpl; lia. Qed.

(** Once a word has been selected, the loop takes words exactly as long
    as the running count stays within the budget. *)
Lemma get_curr_words_loop_acc (token_step : Z) :
  forall (wts : list (list token)) (ws : list string) (n : nat) (curr : Z)
         (w : list string) (wt : list (list token)),
    w <> [] -> length ws = length wts -> n = length ws ->
    exists p q ws' wts',
      get_curr_words_loop n token_step curr w wt (mkQueue ws wts)
        = Ok (w ++ p, wt ++ q, mkQueue ws' wts')
      /\ ws = p ++ ws' /\ wts = q ++ wts' /\ length p = length q
      /\ (q = [] \/ curr + token_count q <= token_step)
      /\ (forall t more, wts' = t :: more ->
            token_step < curr + token_count q + Z.of_nat (length t)).
Proof.
  induction wts as [|t ts IH]; intros ws n curr w wt Hw Hlen Hn.
  - destruct ws; [|discriminate]. subst n. simpl.
    exists [], [], [], []. rewrite !app_nil_r. repeat split; auto.
    intros t more H; discriminate.
  - destruct ws as [|x xs]; [discriminate|]. subst n. simpl.
    destruct w as [|w0 w']; [congruence|]. simpl nonempty. rewrite andb_true_r.
    destruct (Z.gtb_spec (curr + Z.of_nat (length t)) token_step) as [Hgt|Hgt].
    + exists [], [], (x :: xs), (t :: ts). rewrite !app_nil_r.
      repeat split; auto.
      intros t' more H. injection H as -> ->. simpl. clear - Hgt. lia.
    + destruct (IH xs (length xs) (curr + Z.of_nat (length t))
                  ((w0 :: w') ++ [x]) (wt ++ [t]))
        as (p & q & ws' & wts' & Hrun & Hws & Hwts & Hpq & Hsum & Hmax);
        [by destruct w' | simpl in Hlen; lia | reflexivity |].
      exists (x :: p), (t :: q), ws', wts'.
      rewrite Hrun. rewrite <- !app_assoc. simpl.
      split; [reflexivity|]. split; [congruence|]. split; [congruence|].
      split; [simpl; congruence|]. split.
      * right. destruct Hsum as [-> | Hsum]; simpl; lia.
      * intros t' more H. specialize (Hmax t' more H). simpl. lia.
Qed.

Theorem get_curr_words_longest_prefix (token_step : Z) (q : queue) :
  words q <> [] ->
  length (words q) = length (word_tokens q) ->
  exists w wt rest rest_tokens,
    get_curr_words token_step q = Ok (w, wt, mkQueue rest rest_tokens)
    /\ words q = w ++ rest
    /\ word_tokens q = wt ++ rest_tokens
    /\ length w = length wt
    /\ w <> []
    /\ ((token_count wt <= token_step
         /\ forall k, (length wt < k <= length (word_tokens q))%nat ->
              token_step < token_count (take k (word_tokens q)))
        \/ (length wt = 1%nat /\ token_step < token_count wt)).
Proof.
  destruct q as [ws wts]. simpl. intros Hne Hlen.
  destruct ws as [|x xs]; [congruence|].
  destruct wts as [|t ts]; [discriminate|].
  unfold get_curr_words. simpl. rewrite andb_false_r.
  destruct (get_curr_words_loop_acc token_step ts xs (length xs)
              (0 + Z.of_nat (length t)) [x] [t])
    as (p & q & ws' & wts' & Hrun & Hws & Hwts & Hpq & Hsum & Hmax);
    [discriminate | simpl in Hlen; lia | reflexivity |].
  exists (x :: p), (t :: q), ws', wts'.
  rewrite Hrun. simpl.
  split; [reflexivity|]. split; [congruence|]. split; [congruence|].
  split; [congruence|]. split; [discriminate|].
  pose proof (token_count_nonneg q) as Hq.
  destruct (Z_le_gt_dec (Z.of_nat (length t) + token_count q) token_step) as [Hle|Hgt].
  - left. split; [exact Hle|].
      intros k [Hk1 Hk2].
      assert (Hk : exists j, k = (S (length q) + S j)%nat) by (exists (k - S (length q) - 1)%nat; simpl in Hk1; lia).
      destruct Hk as [j ->].
      destruct wts' as [|t' more].
      { rewrite app_nil_r in Hwts. subst ts. simpl in Hk2. lia. }
      specialize (Hmax t' more eq_refl).
      subst ts.
      change (t :: q ++ t' :: more) with ((t :: q) ++ t' :: more).
      rewrite take_app_add'; [|reflexivity].
      rewrite token_count_app. simpl.
      pose proof (token_count_nonneg (take j more)). lia.
  - right. destruct Hsum as [-> | Hsum]; [simpl in *; split; [reflexivity|lia] | lia].
Qed.

Lemma get_curr_words_longest_prefix_witness :
  exists w wt rest,
    get_curr_words 3 sample_queue = Ok (w, wt, rest)
    /\ w <> [] /\ token_count wt <= 3.
Proof.
  destruct (get_curr_words_longest_prefix 3 sample_queue)
    as (w & wt & rest & rest_tokens & Hrun & _ & _ & _ & Hne & Hsum).
  - discriminate.
  - reflexivity.
  - exists w, wt, (mkQueue rest rest_tokens).
    split; [exact Hrun|]. split; [exact Hne|].
    vm_compute in Hrun. injection Hrun as <- <- <- <-. vm_compute. discriminate.
Defined.

Theorem token_step_validation (n_text_ctx token_step : Z) :
  (token_step < 1 -> check_token_step n_text_ctx token_step = Ok (n_text_ctx - 6))
  /\ (1 <= token_step ->
      (check_token_step n_text_ctx token_step = Raise ValueError tt
       <-> token_step > n_text_ctx - 6))
  /\ (6 <= n_text_ctx ->
      (check_token_step n_text_ctx token_step = Raise ValueError tt
       <-> token_step > n_text_ctx - 6)).
Proof.
  unfold check_token_step.
  destruct (Z.ltb_spec token_step 1) as [H1|H1];
    destruct (Z.gtb_spec token_step (n_text_ctx - 6)) as [H2|H2];
    repeat split; intros; try lia; try discriminate; try reflexivity.
Qed.

Lemma token_step_validation_witness :
  check_token_step 448 0 = Ok 442
  /\ (check_token_step 448 443 = Raise ValueError tt <-> 443 > 448 - 6).
Proof.
  destruct (token_step_validation 448 0) as (H0 & _ & _).
  destruct (token_step_validation 448 443) as (_ & _ & H).
  split; [apply H0; lia | apply H; lia].
Defined.

End AlignProofs.

(** ** refine *)

Module RefineProofs.
Import Refine.

Section Bisection.
Variable duration : Word -> Q.
Variable get_prob : batch -> list Word -> bool -> list nat -> mel -> nat -> Q * Z.
Variable o : options.

Lemma frame_precision_ge_2 : 2 <= frame_precision o.
Proof. unfold frame_precision. lia. Qed.

Lemma frame_precision_default : precision o = None -> frame_precision o = 10.
Proof. unfold frame_precision. intros ->. reflexivity. Qed.

(** Shape of one turn for one word: a finished word is skipped; an
    unfinished one finishes with its bounds untouched, or moves one bound
    to the midpoint and re-centres. *)
Lemma refine_idx_cases (c : context) (idx : nat) (prob : Q) (pos : Z)
    (e e' : interval) (m m' : mel) (r r' : WhisperResult) :
  refine_idx o c idx prob pos e m r = Ok (e', m', r') ->
  (is_finish e = true /\ is_finish e' = true
     /\ bounds (is_end_ts c) e' = bounds (is_end_ts c) e /\ r' = r)
  \/ (is_finish e = false /\ is_finish e' = true
      /\ bounds (is_end_ts c) e' = bounds (is_end_ts c) e
      /\ (half_round (mid_of (bounds (is_end_ts c) e) - min_of (bounds (is_end_ts c) e))
            < frame_precision o
          \/ half_round (max_of (bounds (is_end_ts c) e) - mid_of (bounds (is_end_ts c) e))
            < frame_precision o))
  \/ (is_finish e = false /\ is_finish e' = false
      /\ centred (is_end_ts c) e'
      /\ frame_precision o <= half_width (is_end_ts c) e'
      /\ ((min_of (bounds (is_end_ts c) e') = min_of (bounds (is_end_ts c) e)
           /\ max_of (bounds (is_end_ts c) e') = mid_of (bounds (is_end_ts c) e))
          \/ (min_of (bounds (is_end_ts c) e') = mid_of (bounds (is_end_ts c) e)
              /\ max_of (bounds (is_end_ts c) e') = max_of (bounds (is_end_ts c) e)))
      /\ r' = r).
Proof.
  unfold refine_idx.
  destruct e as [[[smn smx] smd] [[emn emx] emd] fin [[c0 c1] cl] op pp otp].
  cbn [is_finish set_prev_probs starts ends changes orig_probs prev_probs orig_tk_poss].
  destruct fin.
  - intros [= <- <- <-]. left. destruct (is_end_ts c); auto.
  - unfold bounds, centred, width, half_width, min_of, max_of, mid_of, bounds.
    destruct (is_end_ts c);
      cbn [is_finish set_prev_probs starts ends changes orig_probs prev_probs orig_tk_poss fst snd];
      (destruct (prob_indices c !! idx) as [row|]; [|discriminate]);
      destruct (failed_requirements _ _ _ _ _ _);
      cbn [is_finish set_changes set_finish starts ends changes orig_probs prev_probs orig_tk_poss fst snd];
      match goal with |- context [half_round ?w <? _] =>
        destruct (Z.ltb_spec (half_round w) (frame_precision o)) as [Hlt|Hge] end;
      intros [= <- <- <-]; right.
    all: try (left; cbn; repeat split; auto; solve [left; exact Hlt | right; exact Hlt]).
    all: right; destruct (_ >? _); cbn; repeat split; auto; lia.
Qed.

Lemma good_mono (e_ts : bool) (k k' : nat) (e : interval) :
  (k <= k')%nat -> good o e_ts k e -> good o e_ts k' e.
Proof.
  intros Hk [Hf | [Hc Hw]]; [left; exact Hf | right; split; [exact Hc|]].
  pose proof frame_precision_ge_2 as Hfp.
  assert (2 ^ Z.of_nat k <= 2 ^ Z.of_nat k') by (apply Z.pow_le_mono_r; lia).
  nia.
Qed.

Lemma centred_unfold (e_ts : bool) (e : interval) :
  centred e_ts e <->
  mid_of (bounds e_ts e) = min_of (bounds e_ts e) + half_round (width e_ts e).
Proof.
  unfold centred, width, mid_of, min_of. destruct (bounds e_ts e) as [[mn mx] md]. simpl. tauto.
Qed.

Lemma width_unfold (e_ts : bool) (e : interval) :
  width e_ts e = max_of (bounds e_ts e) - min_of (bounds e_ts e).
Proof.
  unfold width, max_of, min_of. destruct (bounds e_ts e) as [[mn mx] md]. reflexivity.
Qed.

Lemma half_width_unfold (e_ts : bool) (e : interval) :
  half_width e_ts e = mid_of (bounds e_ts e) - min_of (bounds e_ts e).
Proof.
  unfold half_width, mid_of, min_of. destruct (bounds e_ts e) as [[mn mx] md]. reflexivity.
Qed.

Lemma refine_idx_good (c : context) (idx : nat) (prob : Q) (pos : Z) (k : nat)
    (e e' : interval) (m m' : mel) (r r' : WhisperResult) :
  refine_idx o c idx prob pos e m r = Ok (e', m', r') ->
  good o (is_end_ts c) k e ->
  good o (is_end_ts c) (pred k) e' /\ (k = 0%nat -> is_finish e' = true).
Proof.
  intros Hrun Hgood.
  pose proof frame_precision_ge_2 as Hfp.
  destruct (refine_idx_cases _ _ _ _ _ _ _ _ _ _ Hrun)
    as [(Hf & Hf' & _) | [(Hf & Hf' & _) | (Hf & Hf' & Hc' & Hhw & Hb & _)]].
  - split; [left; exact Hf' | auto].
  - split; [left; exact Hf' | auto].
  - destruct Hgood as [Hfin | [Hc Hw]]; [congruence|].
    pose proof Hc' as Hcentred.
    apply centred_unfold in Hc, Hc'.
    rewrite half_width_unfold in Hhw. rewrite width_unfold in *.
    set (mn := min_of (bounds (is_end_ts c) e)) in *.
    set (mx := max_of (bounds (is_end_ts c) e)) in *.
    set (md := mid_of (bounds (is_end_ts c) e)) in *.
    set (mn' := min_of (bounds (is_end_ts c) e')) in *.
    set (mx' := max_of (bounds (is_end_ts c) e')) in *.
    set (md' := mid_of (bounds (is_end_ts c) e')) in *.
    pose proof (half_round_bounds (mx - mn)) as B.
    pose proof (half_round_bounds (mx' - mn')) as B'.
    destruct k as [|k].
    + exfalso. change (2 ^ Z.of_nat 0) with 1 in Hw. destruct Hb as [[-> ->] | [-> ->]]; lia.
    + split; [|discriminate]. right. split; [exact Hcentred|].
      rewrite width_unfold. fold mn' mx'. simpl pred.
      rewrite Nat2Z.inj_succ, Z.pow_succ_r in Hw by lia.
      set (P := 2 ^ Z.of_nat k) in *.
      destruct Hb as [[-> ->] | [-> ->]]; lia.
Qed.

Lemma refine_idx_half_width (c : context) (idx : nat) (prob : Q) (pos : Z)
    (e e' : interval) (m m' : mel) (r r' : WhisperResult) :
  refine_idx o c idx prob pos e m r = Ok (e', m', r') ->
  is_finish e = true \/ centred (is_end_ts c) e ->
  (is_finish e' = true \/ centred (is_end_ts c) e')
  /\ half_width (is_end_ts c) e' <= half_width (is_end_ts c) e.
Proof.
  intros Hrun Hinv.
  pose proof frame_precision_ge_2 as Hfp.
  destruct (refine_idx_cases _ _ _ _ _ _ _ _ _ _ Hrun)
    as [(Hf & Hf' & Hb & _) | [(Hf & Hf' & Hb & _) | (Hf & Hf' & Hc' & Hhw & Hb & _)]].
  - split; [left; exact Hf'|]. rewrite !half_width_unfold, Hb. lia.
  - split; [left; exact Hf'|]. rewrite !half_width_unfold, Hb. lia.
  - split; [right; exact Hc'|].
    destruct Hinv as [Hfin | Hc]; [congruence|].
    apply centred_unfold in Hc, Hc'.
    rewrite !half_width_unfold in *. rewrite width_unfold in *.
    set (mn := min_of (bounds (is_end_ts c) e)) in *.
    set (mx := max_of (bounds (is_end_ts c) e)) in *.
    set (md := mid_of (bounds (is_end_ts c) e)) in *.
    set (mn' := min_of (bounds (is_end_ts c) e')) in *.
    set (mx' := max_of (bounds (is_end_ts c) e')) in *.
    set (md' := mid_of (bounds (is_end_ts c) e')) in *.
    pose proof (half_round_bounds (mx - mn)) as B.
    pose proof (half_round_bounds (mx' - mn')) as B'.
    destruct Hb as [[-> ->] | [-> ->]]; lia.
Qed.

(** The [for] loop treats every word by [refine_idx]. *)
Lemma refine_for_lookup (c : context) (probs : nat -> Q * Z) :
  forall (es : list interval) (i : nat) (m : mel) (r : WhisperResult)
         (es' : list interval) (m' : mel) (r' : WhisperResult),
    refine_for o c probs i es m r = Ok (es', m', r') ->
    length es' = length es
    /\ forall j e, es !! j = Some e ->
         exists e' m1 r1 m2 r2,
           es' !! j = Some e'
           /\ refine_idx o c (i + j) (fst (probs (i + j)%nat)) (snd (probs (i + j)%nat)) e m1 r1
              = Ok (e', m2, r2).
Proof.
  induction es as [|e0 es IH]; intros i m r es' m' r' Hrun; simpl in Hrun.
  - injection Hrun as <- <- <-. split; [reflexivity|]. intros j e H; discriminate.
  - destruct (refine_idx o c i (fst (probs i)) (snd (probs i)) e0 m r)
      as [[[e1 m1] r1]| |] eqn:Hidx; simpl in Hrun; try discriminate.
    destruct (refine_for o c probs (S i) es m1 r1)
      as [[[es1 m2] r2]| |] eqn:Hfor; simpl in Hrun; try discriminate.
    injection Hrun as <- <- <-.
    destruct (IH _ _ _ _ _ _ Hfor) as [Hlen Hlk].
    split; [simpl; congruence|].
    intros [|j] e He; simpl in He.
    + injection He as <-. exists e1, m, r, m1, r1. rewrite Nat.add_0_r. auto.
    + destruct (Hlk j e He) as (e' & ma & ra & mb & rb & Hl & Hr).
      exists e', ma, ra, mb, rb. split; [exact Hl|].
      replace (i + S j)%nat with (S i + j)%nat by lia. exact Hr.
Qed.

Lemma refine_body_lookup (b : batch) (c : context) (st st' : state) :
  refine_body get_prob o b c st = Ok st' ->
  length (fst (fst st')) = length (fst (fst st))
  /\ forall j e, fst (fst st) !! j = Some e ->
       exists e' prob pos m1 r1 m2 r2,
         fst (fst st') !! j = Some e'
         /\ refine_idx o c j prob pos e m1 r1 = Ok (e', m2, r2).
Proof.
  destruct st as [[es m] r], st' as [[es' m'] r']. unfold refine_body. intros Hrun.
  destruct (refine_for_lookup _ _ _ _ _ _ _ _ _ Hrun) as [Hlen Hlk].
  split; [exact Hlen|]. intros j e He.
  destruct (Hlk j e He) as (e' & m1 & r1 & m2 & r2 & Hl & Hr).
  simpl in Hr. eauto 10.
Qed.

Lemma refine_body_good (b : batch) (c : context) (st st' : state) (k : nat) :
  refine_body get_prob o b c st = Ok st' ->
  Forall (good o (is_end_ts c) k) (fst (fst st)) ->
  Forall (good o (is_end_ts c) (pred k)) (fst (fst st'))
  /\ (k = 0%nat -> forallb is_finish (fst (fst st')) = true).
Proof.
  intros Hrun Hgood.
  destruct (refine_body_lookup _ _ _ _ Hrun) as [Hlen Hlk].
  assert (Hall : forall j e', fst (fst st') !! j = Some e' ->
            good o (is_end_ts c) (pred k) e' /\ (k = 0%nat -> is_finish e' = true)).
  { intros j e' He'.
    destruct (lookup_lt_is_Some_2 (fst (fst st)) j) as [e He].
    { rewrite <- Hlen. eapply lookup_lt_Some; eauto. }
    destruct (Hlk j e He) as (e1 & prob & pos & m1 & r1 & m2 & r2 & Hl & Hr).
    assert (e1 = e') by congruence. subst e1.
    eapply refine_idx_good; eauto.
    eapply Forall_lookup_1; eauto. }
  split.
  - apply Forall_lookup_2. intros j e' He'. apply (Hall j e' He').
  - intros Hk. apply forallb_forall. intros e' Hin.
    apply list_elem_of_In, list_elem_of_lookup in Hin. destruct Hin as [j He'].
    apply (Hall j e' He'); exact Hk.
Qed.

Lemma refine_body_half_width (b : batch) (c : context) (st st' : state) :
  refine_body get_prob o b c st = Ok st' ->
  Forall (fun e => is_finish e = true \/ centred (is_end_ts c) e) (fst (fst st)) ->
  Forall (fun e => is_finish e = true \/ centred (is_end_ts c) e) (fst (fst st'))
  /\ Forall2 (fun e e' => half_width (is_end_ts c) e' <= half_width (is_end_ts c) e)
       (fst (fst st)) (fst (fst st')).
Proof.
  intros Hrun Hinv.
  destruct (refine_body_lookup _ _ _ _ Hrun) as [Hlen Hlk].
  assert (Hall : forall j e e', fst (fst st) !! j = Some e -> fst (fst st') !! j = Some e' ->
            (is_finish e' = true \/ centred (is_end_ts c) e')
            /\ half_width (is_end_ts c) e' <= half_width (is_end_ts c) e).
  { intros j e e' He He'.
    destruct (Hlk j e He) as (e1 & prob & pos & m1 & r1 & m2 & r2 & Hl & Hr).
    assert (e1 = e') by congruence. subst e1.
    eapply refine_idx_half_width; eauto.
    eapply (Forall_lookup_1 _ _ _ _ Hinv); eauto. }
  split.
  - apply Forall_lookup_2. intros j e' He'.
    destruct (lookup_lt_is_Some_2 (fst (fst st)) j) as [e He].
    { rewrite <- Hlen. eapply lookup_lt_Some; eauto. }
    apply (Hall j e e' He He').
  - apply Forall2_same_length_lookup_2; [symmetry; exact Hlen|].
    intros j e e' He He'. apply (Hall j e e' He He').
Qed.

Lemma refine_idx_terminates (c : context) (idx : nat) (prob : Q) (pos : Z)
    (e : interval) (m : mel) (r : WhisperResult) :
  terminates (refine_idx o c idx prob pos e m r).
Proof.
  unfold refine_idx.
  destruct (is_finish (set_prev_probs prob e)); [exact I|].
  destruct (bounds (is_end_ts c) (set_prev_probs prob e)) as [[mn mx] md].
  destruct (prob_indices c !! idx); [|exact I].
  destruct (changes (set_prev_probs prob e)) as [[c0 c1] cl].
  destruct (failed_requirements _ _ _ _ _ _); destruct (is_end_ts c);
    destruct (_ <? _); try exact I;
    match goal with |- context [changes ?x] => destruct (changes x) as [[? ?] ?] end;
    exact I.
Qed.

Lemma refine_for_terminates (c : context) (probs : nat -> Q * Z) :
  forall (es : list interval) (i : nat) (m : mel) (r : WhisperResult),
    terminates (refine_for o c probs i es m r).
Proof.
  induction es as [|e es IH]; intros i m r; simpl; [exact I|].
  pose proof (refine_idx_terminates c i (fst (probs i)) (snd (probs i)) e m r) as H.
  destruct (refine_idx o c i (fst (probs i)) (snd (probs i)) e m r)
    as [[[e1 m1] r1]| |]; simpl; try exact I; [|destruct H].
  specialize (IH (S i) m1 r1).
  destruct (refine_for o c probs (S i) es m1 r1) as [[[es1 m2] r2]| |]; simpl;
    try exact I. destruct IH.
Qed.

Lemma refine_body_terminates (b : batch) (c : context) (st : state) :
  terminates (refine_body get_prob o b c st).
Proof. destruct st as [[es m] r]. apply refine_for_terminates. Qed.

(** With every endpoint at most [k + 1] turns from finishing, [k + 1]
    turns of fuel are enough. *)
Lemma refine_while_terminates (b : batch) (c : context) :
  forall (k fuel : nat) (st : state),
    Forall (good o (is_end_ts c) k) (fst (fst st)) ->
    (k < fuel)%nat ->
    terminates (refine_while get_prob o fuel b c st).
Proof.
  induction k as [|k IH]; intros fuel st Hgood Hfuel;
    (destruct fuel as [|fuel]; [lia|]); simpl;
    destruct (forallb is_finish (fst (fst st))); try exact I;
    pose proof (refine_body_terminates b c st) as Hterm;
    destruct (refine_body get_prob o b c st) as [st'| |] eqn:Hbody; simpl; try exact I;
    try (destruct Hterm; fail);
    destruct (refine_body_good _ _ _ _ _ Hbody Hgood) as [Hg Hfin].
  - destruct fuel; simpl; rewrite (Hfin eq_refl); exact I.
  - apply IH; [exact Hg | lia].
Qed.

Lemma refine_iter_finishes (b : batch) (c : context) :
  forall (n k : nat) (st st' : state) (j : nat) (e : interval),
    refine_iter get_prob o n b c st = Ok st' ->
    fst (fst st) !! j = Some e ->
    good o (is_end_ts c) k e ->
    (k < n)%nat ->
    exists e', fst (fst st') !! j = Some e' /\ is_finish e' = true.
Proof.
  induction n as [|n IH]; intros k st st' j e Hrun He Hgood Hk; [lia|].
  simpl in Hrun.
  destruct (refine_body get_prob o b c st) as [st1| |] eqn:Hbody; simpl in Hrun;
    try discriminate.
  destruct (refine_body_lookup _ _ _ _ Hbody) as [_ Hlk].
  destruct (Hlk j e He) as (e1 & prob & pos & m1 & r1 & m2 & r2 & Hl & Hr).
  destruct (refine_idx_good _ _ _ _ _ _ _ _ _ _ _ Hr Hgood) as [Hg1 Hfin].
  destruct n as [|n].
  - simpl in Hrun. injection Hrun as <-. exists e1. split; [exact Hl|].
    apply Hfin. lia.
  - destruct k as [|k].
    + apply (IH 0%nat st1 st' j e1 Hrun Hl); [left; apply Hfin; reflexivity | lia].
    + apply (IH k st1 st' j e1 Hrun Hl); [exact Hg1 | lia].
Qed.

Lemma refine_iter_centred (b : batch) (c : context) :
  forall (n : nat) (st st' : state),
    refine_iter get_prob o n b c st = Ok st' ->
    Forall (fun e => is_finish e = true \/ centred (is_end_ts c) e) (fst (fst st)) ->
    Forall (fun e => is_finish e = true \/ centred (is_end_ts c) e) (fst (fst st')).
Proof.
  induction n as [|n IH]; intros st st' Hrun Hinv; simpl in Hrun.
  - injection Hrun as <-. exact Hinv.
  - destruct (refine_body get_prob o b c st) as [st1| |] eqn:Hbody; simpl in Hrun;
      try discriminate.
    apply (IH st1 st' Hrun).
    apply (refine_body_half_width _ _ _ _ Hbody Hinv).
Qed.

(** [2 ^ ceil(log2(h / fp))] frames of precision cover [h]. *)
Lemma half_width_le_pow (h : Z) :
  h <= frame_precision o * 2 ^ Z.log2_up (ceil_div h (frame_precision o)).
Proof.
  pose proof frame_precision_ge_2 as Hfp.
  set (fp := frame_precision o) in *.
  unfold ceil_div.
  pose proof (Z.div_mod (h + fp - 1) fp ltac:(lia)) as Hdm.
  pose proof (Z.mod_pos_bound (h + fp - 1) fp ltac:(lia)) as Hb.
  set (q := (h + fp - 1) / fp) in *.
  assert (Hq : q <= 2 ^ Z.log2_up q).
  { destruct (Z_lt_le_dec 1 q) as [H1|H1].
    - apply Z.log2_up_spec; exact H1.
    - rewrite Z.log2_up_eqn0 by exact H1. simpl. lia. }
  nia.
Qed.

Lemma good_of_bound (e_ts : bool) (e : interval) :
  centred e_ts e ->
  good o e_ts (pred (endpoint_bound (frame_precision o) (half_width e_ts e))) e.
Proof.
  intros Hc. right. split; [exact Hc|].
  pose proof frame_precision_ge_2 as Hfp.
  pose proof (half_width_le_pow (half_width e_ts e)) as Hpow.
  unfold endpoint_bound. simpl pred.
  rewrite Nat2Z.inj_succ, Z2Nat.id by apply Z.log2_up_nonneg.
  rewrite Z.pow_succ_r by apply Z.log2_up_nonneg.
  apply centred_unfold in Hc.
  rewrite half_width_unfold in *. rewrite width_unfold in *.
  pose proof (half_round_bounds (max_of (bounds e_ts e) - min_of (bounds e_ts e))) as B.
  assert (0 < 2 ^ Z.log2_up (ceil_div (mid_of (bounds e_ts e) - min_of (bounds e_ts e)) (frame_precision o)))
    by (apply Z.pow_pos_nonneg; [lia | apply Z.log2_up_nonneg]).
  nia.
Qed.

Lemma endpoint_le_iteration_bound (e_ts : bool) (es : list interval) (e : interval) :
  In e es -> is_finish e = false ->
  (endpoint_bound (frame_precision o) (half_width e_ts e)
   <= iteration_bound (frame_precision o) e_ts es)%nat.
Proof.
  unfold iteration_bound.
  induction es as [|e0 es IH]; intros Hin Hf; [destruct Hin|].
  simpl. destruct Hin as [-> | Hin].
  - rewrite Hf. lia.
  - specialize (IH Hin Hf). lia.
Qed.

Lemma good_iteration_bound (e_ts : bool) (es : list interval) :
  Forall (centred e_ts) es ->
  Forall (good o e_ts (pred (iteration_bound (frame_precision o) e_ts es))) es.
Proof.
  intros Hc. apply Forall_forall. intros e Hin.
  destruct (is_finish e) eqn:Hf; [left; exact Hf|].
  rewrite Forall_forall in Hc.
  eapply good_mono; [|apply good_of_bound; apply Hc; exact Hin].
  apply list_elem_of_In in Hin.
  pose proof (endpoint_le_iteration_bound e_ts es e Hin Hf). lia.
Qed.

Lemma init_interval_centred (e_ts is_e : bool) (t0 : Q) (w : Word) (cs ce : Q) (mk : Z) :
  centred e_ts (init_interval duration o is_e t0 w cs ce mk).
Proof. unfold centred, init_interval; destruct e_ts; reflexivity. Qed.

Lemma refine_init_centred (e_ts : bool) (b : batch) (r : WhisperResult)
    (c : context) (es : list interval) (m : mel) :
  refine_init duration get_prob o e_ts b r = Ok (c, es, m) ->
  is_end_ts c = e_ts /\ Forall (centred e_ts) es.
Proof.
  unfold refine_init. destruct (curr_starts b) as [|t0 ts] eqn:Hcs; [discriminate|].
  intros [= <- <- <-]. split; [reflexivity|].
  apply Forall_lookup_2. intros i e He.
  rewrite list_lookup_imap in He.
  destruct (init_intervals duration o e_ts t0 (batch_words r b) b !! i) as [e1|] eqn:H1;
    [|discriminate].
  simpl in He. injection He as <-.
  unfold init_intervals in H1. rewrite lookup_zip_with in H1.
  destruct (batch_words r b !! i) as [w|]; [|discriminate]. simpl in H1.
  destruct (zip (curr_starts b) (zip (curr_ends b) (edge_mask b)) !! i) as [[cs [ce mk]]|];
    [|discriminate].
  simpl in H1. injection H1 as <-.
  pose proof (init_interval_centred e_ts e_ts t0 w cs ce mk) as Hc.
  unfold centred in *. destruct e_ts; exact Hc.
Qed.

(** C3.  The bisection of a batch: the precision in frames is the
    requested precision (0.1 s when none is given) times
    [FRAMES_PER_SECOND], rounded, and at least two frames, so ten frames
    by default, never more than half a frame below the requested
    precision and, above two frames, never more than half a frame over
    it; from turn to turn no endpoint's half-width grows;
    an endpoint of initial half-width [h] is finished after
    [ceil(log2(h / frame_precision)) + 2] turns; and with that many turns
    of fuel for the widest endpoint the [while] loop comes to an end. *)
Theorem bisection_halves_and_terminates (e_ts : bool) (b : batch) (r : WhisperResult)
    (c : context) (es0 : list interval) (m0 : mel) :
  refine_init duration get_prob o e_ts b r = Ok (c, es0, m0) ->
  (frame_precision o
   = Z.max (round_half_even
              ((match precision o with Some p => p | None => 1 # 10 end)
               * inject_Z FRAMES_PER_SECOND)) 2
   /\ 2 <= frame_precision o /\ (precision o = None -> frame_precision o = 10)
   /\ (forall p, precision o = Some p ->
         (p * inject_Z FRAMES_PER_SECOND - (1 # 2) <= inject_Z (frame_precision o))%Q
         /\ (2 < frame_precision o ->
             (inject_Z (frame_precision o)
              <= p * inject_Z FRAMES_PER_SECOND + (1 # 2))%Q)))
  /\ (forall (n : nat) (st st' : state),
        refine_iter get_prob o n b c (es0, m0, r) = Ok st ->
        refine_body get_prob o b c st = Ok st' ->
        Forall2 (fun e e' => half_width e_ts e' <= half_width e_ts e)
          (fst (fst st)) (fst (fst st')))
  /\ (forall (idx n : nat) (e0 : interval) (st : state),
        es0 !! idx = Some e0 ->
        (endpoint_bound (frame_precision o) (half_width e_ts e0) <= n)%nat ->
        refine_iter get_prob o n b c (es0, m0, r) = Ok st ->
        exists e, fst (fst st) !! idx = Some e /\ is_finish e = true)
  /\ (forall fuel : nat,
        (iteration_bound (frame_precision o) e_ts es0 <= fuel)%nat ->
        terminates (refine_while get_prob o fuel b c (es0, m0, r))).
Proof.
  intros Hinit.
  destruct (refine_init_centred _ _ _ _ _ _ Hinit) as [Hts Hc]. subst e_ts.
  assert (Hinv : Forall (fun e => is_finish e = true \/ centred (is_end_ts c) e) es0).
  { eapply Forall_impl; [exact Hc|]. intros e He; right; exact He. }
  split.
  { split; [unfold frame_precision; destruct (precision o); reflexivity|].
    split; [apply frame_precision_ge_2|]. split; [apply frame_precision_default|].
    intros p Hp. unfold frame_precision. rewrite Hp.
    pose proof (round_half_even_near (p * inject_Z FRAMES_PER_SECOND)) as [Hlo Hhi].
    destruct (Z.max_spec (round_half_even (p * inject_Z FRAMES_PER_SECOND)) 2)
      as [[Hlt ->] | [Hge ->]].
    - split; [|intros; lia].
      rewrite Zlt_Qlt in Hlt. change (inject_Z 2) with 2%Q in *. lra.
    - split; [exact Hlo | intros _; exact Hhi]. }
  split; [|split].
  - intros n st st' Hiter Hbody.
    apply (refine_body_half_width _ _ _ _ Hbody).
    apply (refine_iter_centred _ _ _ _ _ Hiter). exact Hinv.
  - intros idx n e0 st He0 Hn Hiter.
    eapply (refine_iter_finishes b c n _ (es0, m0, r) st idx e0 Hiter He0).
    + apply good_of_bound. eapply (Forall_lookup_1 _ _ _ _ Hc); eauto.
    + unfold endpoint_bound in *. simpl. lia.
  - intros fuel Hfuel.
    destruct (forallb is_finish es0) eqn:Hall.
    { destruct fuel; simpl; rewrite Hall; exact I. }
    apply (refine_while_terminates b c (pred (iteration_bound (frame_precision o) (is_end_ts c) es0))).
    + apply good_iteration_bound. exact Hc.
    + assert (0 < iteration_bound (frame_precision o) (is_end_ts c) es0)%nat; [|lia].
      apply not_true_iff_false in Hall.
      destruct (Nat.eq_dec (iteration_bound (frame_precision o) (is_end_ts c) es0) 0%nat) as [H0|]; [|lia].
      exfalso. apply Hall. apply forallb_forall. intros e Hin.
      destruct (is_finish e) eqn:Hf; [reflexivity|].
      pose proof (endpoint_le_iteration_bound (is_end_ts c) es0 e Hin Hf) as Hle.
      unfold endpoint_bound in Hle. lia.
Qed.

End Bisection.

Section Writes.
Variable duration : Word -> Q.
Variable has_words : WhisperResult -> bool.
Variable update_all_segs_with_words : WhisperResult -> WhisperResult.
Variable get_prob : batch -> list Word -> bool -> list nat -> mel -> nat -> Q * Z.
Variable n_text_ctx : Z.
Variable total_samples : Z.
Variable o : options.

(** Assigning to a word of a segment is assigning to that word of
    [all_words()]. *)
Lemma all_words_update_word (f : Word -> Word) :
  forall (segs : list Segment) (i : nat),
    all_words (mkResult (update_word segs i f)) = alter f i (all_words (mkResult segs)).
Proof.
  unfold all_words. simpl.
  induction segs as [|s segs IH]; intros i; simpl; [reflexivity|].
  destruct (Nat.ltb_spec i (length (seg_words s))) as [Hlt|Hge]; simpl.
  - rewrite alter_app_l by exact Hlt. reflexivity.
  - rewrite alter_app_r_alt by exact Hge. rewrite IH. reflexivity.
Qed.

(** [update_ts] without [verbose] leaves the result as it is. *)
Lemma update_ts_quiet (e_ts : bool) (t0 : Q) (gi : nat) (e : interval) (r : WhisperResult) :
  truthy (verbose o) = false ->
  update_ts o e_ts t0 gi e r = r.
Proof.
  intros Hq. unfold update_ts.
  destruct (changes e) as [[c0 c1] cl].
  destruct (negb (is_finish e) || (cl =? -1)); [reflexivity|].
  destruct (all_words r !! gi) as [w|]; [|reflexivity].
  destruct (_ && _); [reflexivity|].
  rewrite Hq. reflexivity.
Qed.

Lemma refine_idx_quiet (c : context) (idx : nat) (prob : Q) (pos : Z)
    (e : interval) (m : mel) (r : WhisperResult) :
  truthy (verbose o) = false ->
  store_of snd (refine_idx o c idx prob pos e m r) = r.
Proof.
  intros Hq. unfold refine_idx.
  destruct (is_finish (set_prev_probs prob e)); [reflexivity|].
  destruct (bounds (is_end_ts c) (set_prev_probs prob e)) as [[mn mx] md].
  destruct (prob_indices c !! idx); [|reflexivity].
  destruct (changes (set_prev_probs prob e)) as [[c0 c1] cl].
  destruct (failed_requirements _ _ _ _ _ _); destruct (is_end_ts c);
    destruct (_ <? _); simpl; rewrite ?update_ts_quiet by exact Hq; try reflexivity;
    match goal with |- context [changes ?x] => destruct (changes x) as [[? ?] ?] end;
    reflexivity.
Qed.

Lemma refine_for_quiet (c : context) (probs : nat -> Q * Z) :
  truthy (verbose o) = false ->
  forall (es : list interval) (i : nat) (m : mel) (r : WhisperResult),
    store_of snd (refine_for o c probs i es m r) = r.
Proof.
  intros Hq. induction es as [|e es IH]; intros i m r; simpl; [reflexivity|].
  pose proof (refine_idx_quiet c i (fst (probs i)) (snd (probs i)) e m r Hq) as H.
  destruct (refine_idx o c i (fst (probs i)) (snd (probs i)) e m r)
    as [[[e1 m1] r1]| |]; simpl in *; try exact H.
  subst r1. specialize (IH (S i) m1 r).
  destruct (refine_for o c probs (S i) es m1 r) as [[[es1 m2] r2]| |]; simpl in *;
    exact IH.
Qed.

Lemma refine_while_quiet (b : batch) (c : context) :
  truthy (verbose o) = false ->
  forall (fuel : nat) (st : state),
    store_of snd (refine_while get_prob o fuel b c st) = snd st.
Proof.
  intros Hq. induction fuel as [|fuel IH]; intros [[es m] r]; simpl;
    destruct (forallb is_finish es); try reflexivity.
  pose proof (refine_for_quiet c
    (get_prob b (batch_words r b) (is_end_ts c) (prob_indices c)
       (curr_mel_segment (prob_indices c) m)) Hq es 0%nat m r) as H.
  destruct (refine_for _ _ _ _ _ _ _) as [[[es1 m1] r1]| |]; simpl in *; try exact H.
  rewrite IH. exact H.
Qed.

Lemma refine_batch_quiet (fuel : nat) (e_ts : bool) (b : batch) (r : WhisperResult) :
  truthy (verbose o) = false ->
  store_of id (refine_batch duration get_prob o fuel e_ts b r) = r.
Proof.
  intros Hq. unfold refine_batch, refine_init.
  destruct (curr_starts b) as [|t0 ts]; [reflexivity|]. simpl.
  match goal with |- context [refine_while _ _ _ _ ?c ?st] =>
    pose proof (refine_while_quiet b c Hq fuel st) as H;
    destruct (refine_while get_prob o fuel b c st) as [[[es1 m1] r1]| |]
  end; simpl in *; exact H.
Qed.

Lemma refine_batches_quiet (fuel : nat) (e_ts : bool) :
  truthy (verbose o) = false ->
  forall (bs : list batch) (r : WhisperResult),
    store_of id (refine_batches duration get_prob o fuel e_ts bs r) = r.
Proof.
  intros Hq. induction bs as [|b bs IH]; intros r; simpl; [reflexivity|].
  pose proof (refine_batch_quiet fuel e_ts b r Hq) as H.
  destruct (refine_batch duration get_prob o fuel e_ts b r) as [r1| |]; simpl in *;
    try exact H.
  unfold id in H. subst r1. apply IH.
Qed.

Lemma refine_steps_quiet (fuel : nat) :
  truthy (verbose o) = false ->
  forall (ss : list ascii) (r : WhisperResult),
    store_of id (refine_steps duration get_prob n_text_ctx total_samples o fuel ss r) = r.
Proof.
  intros Hq. induction ss as [|s ss IH]; intros r; simpl; [reflexivity|].
  assert (H : store_of id (_refine duration get_prob n_text_ctx total_samples o fuel s r) = r).
  { unfold _refine.
    destruct (curr_segments duration n_text_ctx total_samples o r) as [bs| |] eqn:Hcs;
      simpl.
    - apply refine_batches_quiet; exact Hq.
    - unfold curr_segments in Hcs.
      destruct (imap _ _); [injection Hcs as _ <-; reflexivity | discriminate].
    - unfold curr_segments in Hcs. destruct (imap _ _); discriminate. }
  destruct (_refine duration get_prob n_text_ctx total_samples o fuel s r) as [r1| |];
    simpl in *; try exact H.
  unfold id in H. subst r1. apply IH.
Qed.

(** Without [verbose], which is the default, the passes of [refine]
    leave every word of the result as it was, whatever the model
    answers and however the loop ends. *)
Lemma refine_quiet_changes_nothing (fuel : nat) (r : WhisperResult) :
  truthy (verbose o) = false ->
  store_of id
    (refine_steps duration get_prob n_text_ctx total_samples o fuel
       (list_ascii_of_string (effective_steps o)) r) = r.
Proof. intros Hq. apply refine_steps_quiet. exact Hq. Qed.

End Writes.


Section Kept.
Variable o : options.

Lemma Qle_bool_false (a b : Q) : Qle_bool a b = false -> (b < a)%Q.
Proof.
  intros H. apply Qnot_le_lt. intros Hle.
  apply Qle_bool_iff in Hle. congruence.
Qed.


End Kept.

(** C1.  The sample word under a model that accepts every probe: the
    start endpoint finishes with the accepted midpoint 141 stored, that
    is 1.91 s.  Called with [verbose=False], [refine] leaves the start at
    1 s; only with [verbose=True] is 1.91 s assigned. *)
Theorem refine_assigns_only_when_verbose :
  run_report (sample_run steady_model (start_options (Some false)) 10)
    = Some ([(true, (0, 1, 141), 9 # 10)], [(1 # 1, 2 # 1)])
  /\ run_report (sample_run steady_model (start_options (Some true)) 10)
    = Some ([(true, (0, 1, 141), 9 # 10)], [(1910 # 1000, 2 # 1)])
  /\ refine_object sample_duration (fun r => r) steady_model 448 sample_total_samples
       default_options 10 sample_result
     = Ok sample_result.
Proof. repeat apply conj; vm_compute; reflexivity. Qed.



(** C2.  Under the drifting model the baseline is 0.90.  The first probe
    (0.88) is accepted and overwrites the baseline; the second probe
    (0.86) is then compared with 0.88 and accepted too, although its drop
    from the baseline, 0.04 of 0.90, exceeds [rel_prob_decrease = 0.03]:
    the documented test rejects it. *)
Theorem second_probe_compared_with_first :
  run_report (sample_turns drifting_model (start_options (Some true)) 0)
    = Some ([(false, (0, 0, -1), 90 # 100)], [(1 # 1, 2 # 1)])
  /\ run_report (sample_turns drifting_model (start_options (Some true)) 1)
    = Some ([(false, (0, 1, 113), 88 # 100)], [(1 # 1, 2 # 1)])
  /\ run_report (sample_turns drifting_model (start_options (Some true)) 2)
    = Some ([(false, (0, 1, 131), 86 # 100)], [(1 # 1, 2 # 1)])
  /\ failed_requirements_doc (start_options (Some true))
       (90 # 100) (88 # 100) (86 # 100) false = true
  /\ failed_requirements (start_options (Some true))
       ((88 # 100) - (86 # 100))
       (np_div ((88 # 100) - (86 # 100)) (88 # 100))
       (np_div ((88 # 100) - (86 # 100)) (88 # 100)) (86 # 100) false = false.
Proof. repeat apply conj; vm_compute; reflexivity. Qed.

(** C5, as stated, fails: with a baseline probability of zero the probe
    is accepted. *)
Lemma zero_baseline_probe_accepted :
  run_report (sample_turns silent_baseline_model (start_options (Some true)) 0)
    = Some ([(false, (0, 0, -1), 0 # 1)], [(1 # 1, 2 # 1)])
  /\ run_report (sample_turns silent_baseline_model (start_options (Some true)) 1)
    = Some ([(false, (0, 1, 113), 6 # 10)], [(1 # 1, 2 # 1)]).
Proof. apply conj; vm_compute; reflexivity. Qed.

Section Ratios.
Variable o : options.

(** C5.  A zero divisor goes through the ratio unguarded: the quotient
    is NaN or minus infinity, the test against [rel_prob_decrease] is
    then false, and what is left of the acceptance test is the absolute
    drop, the threshold and the rank. *)
Theorem zero_baseline_ratio_never_rejects (orig prev prob : Q) (best_tks_changed : bool) :
  (orig == 0)%Q -> (0 <= prob)%Q ->
  (np_div (orig - prob) orig = NaN \/ np_div (orig - prob) orig = NegInf)
  /\ np_gt (np_div (orig - prob) orig) (rel_prob_decrease o) = false
  /\ ((prev == 0)%Q ->
      failed_requirements o (orig - prob) (np_div (orig - prob) orig)
        (np_div (prev - prob) prev) prob best_tks_changed
      = Qlt_bool (abs_prob_decrease o) (orig - prob)
        || Qlt_bool prob (prob_threshold o)
        || best_tks_changed).
Proof.
  intros H0 Hp.
  assert (Hdiv : forall d, (d == 0)%Q ->
            np_div (d - prob) d = NaN \/ np_div (d - prob) d = NegInf).
  { intros d Hd. unfold np_div.
    apply Qeq_bool_iff in Hd. rewrite Hd.
    apply Qeq_bool_iff in Hd.
    destruct (Qcompare_spec (d - prob) 0) as [H|H|H]; auto.
    exfalso. rewrite Hd in H. lra. }
  assert (Hgt : forall d t, (d == 0)%Q -> np_gt (np_div (d - prob) d) t = false).
  { intros d t Hd. destruct (Hdiv d Hd) as [-> | ->]; reflexivity. }
  split; [apply Hdiv; exact H0|]. split; [apply Hgt; exact H0|].
  intros Hprev. unfold failed_requirements.
  rewrite (Hgt orig _ H0).
  destruct (rel_rel_prob_decrease o) as [t|]; [rewrite (Hgt prev t Hprev)|];
    rewrite !orb_false_r; reflexivity.
Qed.

End Ratios.

Lemma zero_baseline_ratio_never_rejects_witness :
  np_gt (np_div (0 - (6 # 10)) 0) (rel_prob_decrease default_options) = false.
Proof.
  destruct (zero_baseline_ratio_never_rejects default_options 0 0 (6 # 10) false)
    as (_ & H & _).
  - reflexivity.
  - discriminate.
  - exact H.
Defined.

Lemma bisection_halves_and_terminates_witness :
  exists c es0 m0,
    refine_init sample_duration steady_model (start_options (Some true)) false
      sample_batch sample_result = Ok (c, es0, m0)
    /\ frame_precision (start_options (Some true))
       = Z.max (round_half_even ((1 # 10) * inject_Z FRAMES_PER_SECOND)) 2
    /\ 2 <= frame_precision (start_options (Some true))
    /\ terminates
         (refine_while steady_model (start_options (Some true))
            (iteration_bound (frame_precision (start_options (Some true))) false es0)
            sample_batch c (es0, m0, sample_result)).
Proof.
  assert (Hinit : exists c es0 m0,
            refine_init sample_duration steady_model (start_options (Some true)) false
              sample_batch sample_result = Ok (c, es0, m0)).
  { unfold refine_init. cbn [curr_starts sample_batch]. eauto. }
  destruct Hinit as (c & es0 & m0 & Hinit).
  exists c, es0, m0. split; [exact Hinit|].
  pose proof (bisection_halves_and_terminates sample_duration steady_model
                (start_options (Some true)) false sample_batch sample_result c es0 m0 Hinit)
    as ((Heq & Hfp & _ & _) & _ & _ & Hterm).
  split; [exact Heq|]. split; [exact Hfp|]. apply Hterm. apply Nat.le_refl.
Defined.

End RefineProofs.

(** ** locate *)

Module LocateProofs.
Import Locate.

(** C7, as stated, fails: when the estimate repeats, the cursor does not
    advance by one chunk but jumps to the end of the audio. *)
Lemma probe_mode2_repeat_jumps_to_end :
  seek_sample (fst (probe_mode2 0 4800000 5 (mkCursor 0 1 (Some 5%Q)))) = 4800000
  /\ 4800000 <> 0 + CHUNK_SAMPLES.
Proof. split; [reflexivity | discriminate]. Qed.

(** C7.  A probe of mode 2 returns the estimate, offset by the position
    of the chunk, counts one more match and remembers the estimate.  When
    the chunk reaches the end of the audio, the match cap is reached or
    the estimate repeats the previous one, the cursor is set to the end
    of the audio, which ends the search; otherwise it advances by the
    estimate. *)
Theorem probe_mode2_cursor (count total_samples : Z) (target_end : Q) (c : cursor) :
  let c' := fst (probe_mode2 count total_samples target_end c) in
  snd (probe_mode2 count total_samples target_end c)
    = (target_end + round3 (inject_Z (seek_sample c) / inject_Z SAMPLE_RATE))%Q
  /\ found c' = found c + 1
  /\ prev_target_end c' = Some target_end
  /\ (total_samples <= seek_sample c + CHUNK_SAMPLES
      \/ (count <> 0 /\ count <= found c + 1)
      \/ (exists p, prev_target_end c = Some p /\ (p == target_end)%Q) ->
      seek_sample c' = total_samples /\ searching count total_samples c' = false)
  /\ (seek_sample c + CHUNK_SAMPLES < total_samples ->
      (count = 0 \/ found c + 1 < count) ->
      (forall p, prev_target_end c = Some p -> ~ (p == target_end)%Q) ->
      seek_sample c' = seek_sample c + round_half_even (target_end * inject_Z SAMPLE_RATE)).
Proof.
  unfold probe_mode2. cbn [fst snd seek_sample found prev_target_end].
  split; [reflexivity|]. split; [reflexivity|]. split; [reflexivity|]. split.
  - intros Hstop.
    assert (Hc : (seek_sample c + CHUNK_SAMPLES >=? total_samples)
                 || negb (count =? 0) && (found c + 1 >=? count)
                 || same_estimate (prev_target_end c) target_end = true).
    { destruct Hstop as [H | [[H1 H2] | (p & Hp & Heq)]].
      - destruct (Z.geb_spec (seek_sample c + CHUNK_SAMPLES) total_samples); [reflexivity|lia].
      - destruct (Z.eqb_spec count 0); [contradiction|].
        destruct (Z.geb_spec (found c + 1) count); [|lia].
        simpl. rewrite orb_true_r. reflexivity.
      - rewrite Hp. simpl. apply Qeq_bool_iff in Heq. rewrite Heq.
        rewrite orb_true_r. reflexivity. }
    rewrite Hc. split; [reflexivity|].
    unfold searching. cbn [seek_sample]. rewrite Z.ltb_irrefl. reflexivity.
  - intros H1 H2 H3.
    destruct (Z.geb_spec (seek_sample c + CHUNK_SAMPLES) total_samples) as [|_]; [lia|].
    assert (Hcap : negb (count =? 0) && (found c + 1 >=? count) = false).
    { destruct (Z.eqb_spec count 0); [reflexivity|].
      destruct (Z.geb_spec (found c + 1) count); [lia|reflexivity]. }
    rewrite Hcap.
    assert (Hsame : same_estimate (prev_target_end c) target_end = false).
    { destruct (prev_target_end c) as [p|]; [|reflexivity]. simpl.
      destruct (Qeq_bool p target_end) eqn:Heq; [|reflexivity].
      exfalso. apply (H3 p eq_refl). apply Qeq_bool_iff. exact Heq. }
    rewrite Hsame. reflexivity.
Qed.

Lemma probe_mode2_cursor_witness :
  seek_sample (fst (probe_mode2 0 4800000 5 (mkCursor 0 1 (Some 5%Q)))) = 4800000.
Proof.
  destruct (probe_mode2_cursor 0 4800000 5 (mkCursor 0 1 (Some 5%Q)))
    as (_ & _ & _ & H & _).
  apply H. right. right. exists 5%Q. split; reflexivity.
Defined.


Section Confirm.
Variable decoder : list Z -> logits.
Variable tokenizer_decode : list Z -> string.
Variable lower : string -> string.
Variable eot : Z.
Variable text : string.
Variable text_tokens : list Z.
Variable probability_threshold : Q.
Variable eots : Z.
Variable max_token_per_seg : Z.
Variable exact_token : bool.
Variable case_sensitive : bool.

Abbreviation step :=
  (decode_step decoder tokenizer_decode lower eot text text_tokens probability_threshold
     eots max_token_per_seg exact_token case_sensitive).
Abbreviation loop :=
  (decode_loop decoder tokenizer_decode lower eot text text_tokens probability_threshold
     eots max_token_per_seg exact_token case_sensitive).




End Confirm.


End LocateProofs.

(** ** align: the windowing loop *)

Module AlignLoopProofs.
Import Align.
Import AlignLoop.

Lemma requeue_loop_spec :
  forall (rw : list word_dict) (q : queue) (kept : list word_dict) (q' : queue),
    requeue_loop rw q = (kept, q') ->
    exists back,
      rw = rev back ++ kept
      /\ words q' = map word back ++ words q
      /\ word_tokens q' = map tokens back ++ word_tokens q
      /\ (back = [] /\ (kept = [] \/ words q = [])
          \/ Forall zero_duration back /\ kept = []
          \/ exists n zs, back = n :: zs /\ ~ zero_duration n /\ Forall zero_duration zs)
      /\ (back = [] -> forall w rest, kept = w :: rest -> ~ zero_duration w).
Proof.
  induction rw as [|wd rest IH]; intros q kept q' Hrun; simpl in Hrun.
  - injection Hrun as <- <-. exists []. simpl. repeat split; auto.
    intros _ w rest H; discriminate.
  - destruct (Qeq_bool (end_ wd - start wd) 0) eqn:Hz.
    + apply Qeq_bool_iff in Hz.
      destruct (IH _ _ _ Hrun) as (back & Hrw & Hw & Hwt & Hshape & Hk).
      exists (back ++ [wd]). simpl in Hw, Hwt.
      rewrite rev_app_distr, !map_app. simpl. rewrite <- !app_assoc. simpl.
      split; [congruence|]. split; [exact Hw|]. split; [exact Hwt|].
      split.
      * destruct Hshape as [[-> [Hk0|Hq]] | [[Hf Hk0] | (n & zs & -> & Hn & Hzs)]].
        -- right. left. split; [repeat constructor; exact Hz | exact Hk0].
        -- discriminate.
        -- right. left. split; [|exact Hk0].
           apply Forall_app. split; [exact Hf | repeat constructor; exact Hz].
        -- right. right. exists n, (zs ++ [wd]). split; [reflexivity|].
           split; [exact Hn|]. apply Forall_app. split; [exact Hzs|].
           repeat constructor; exact Hz.
      * intros Hb. destruct back; discriminate.
    + assert (Hnz : ~ zero_duration wd).
      { unfold zero_duration. intros H. apply Qeq_bool_iff in H. congruence. }
      destruct (nonempty (words q)) eqn:Hne; injection Hrun as <- <-.
      * exists [wd]. simpl. split; [reflexivity|]. split; [reflexivity|].
        split; [reflexivity|]. split; [|intros; discriminate].
        right. right. exists wd, []. repeat split; auto.
      * exists []. simpl. split; [reflexivity|]. split; [reflexivity|].
        split; [reflexivity|]. split.
        -- left. split; [reflexivity|]. right. destruct (words q); [reflexivity|discriminate].
        -- intros _ w r [= <- <-]. exact Hnz.
Qed.

(** What is pushed back: the extracted words split into the words kept
    and the words pushed back, which enter the queue in their order, in
    both lists; of the words pushed back only the first can have a
    duration; and when none is pushed back although some word is kept,
    the queue is empty and the last word kept has a duration. *)
Theorem requeue_keeps_order (ws : list word_dict) (q : queue) :
  exists back,
    ws = fst (requeue ws q) ++ back
    /\ words (snd (requeue ws q)) = map word back ++ words q
    /\ word_tokens (snd (requeue ws q)) = map tokens back ++ word_tokens q
    /\ Forall zero_duration (tail back)
    /\ (back = [] -> fst (requeue ws q) <> [] ->
        words q = []
        /\ exists w, last (fst (requeue ws q)) = Some w /\ ~ zero_duration w).
Proof.
  unfold requeue.
  destruct (requeue_loop (rev ws) q) as [kept q'] eqn:Hrun. simpl.
  destruct (requeue_loop_spec _ _ _ _ Hrun) as (back & Hrw & Hw & Hwt & Hshape & Hk).
  exists back.
  split.
  { rewrite <- (rev_involutive ws), Hrw, rev_app_distr, rev_involutive. reflexivity. }
  split; [exact Hw|]. split; [exact Hwt|]. split.
  - destruct Hshape as [[-> _] | [[Hf _] | (n & zs & -> & _ & Hzs)]].
    + constructor.
    + destruct back; [constructor|]. simpl. inversion Hf; assumption.
    + exact Hzs.
  - intros Hb Hne. subst back.
    destruct Hshape as [[_ [-> | Hq]] | [[_ ->] | (n & zs & Hx & _)]];
      try (exfalso; apply Hne; reflexivity); try discriminate.
    split; [exact Hq|].
    destruct kept as [|w rest]; [exfalso; apply Hne; reflexivity|].
    exists w. split; [|apply (Hk eq_refl w rest eq_refl)].
    simpl. rewrite last_snoc. reflexivity.
Qed.

Lemma dict_token_count_app (a b : list word_dict) :
  dict_token_count (a ++ b) = dict_token_count a + dict_token_count b.
Proof. induction a as [|w a IH]; simpl; lia. Qed.

(** [get_curr_words] on a queue whose lists are in step. *)
Lemma get_curr_words_aligned (token_step : Z) (q : queue) :
  aligned q ->
  exists w wt q',
    get_curr_words token_step q = Ok (w, wt, q')
    /\ aligned q' /\ length w = length wt
    /\ words q = w ++ words q' /\ word_tokens q = wt ++ word_tokens q'.
Proof.
  destruct q as [ws wts]. unfold aligned, get_curr_words. simpl. intros Hlen.
  destruct ws as [|x xs].
  - destruct wts; [|discriminate]. simpl. exists [], [], (mkQueue [] []). auto.
  - destruct wts as [|t ts]; [discriminate|]. simpl. rewrite andb_false_r.
    destruct (AlignProofs.get_curr_words_loop_acc token_step ts xs (length xs)
                (0 + Z.of_nat (length t)) [x] [t])
      as (p & r & ws' & wts' & Hrun & Hws & Hwts & Hpq & _);
      [discriminate | simpl in Hlen; lia | reflexivity |].
    exists (x :: p), (t :: r), (mkQueue ws' wts').
    rewrite Hrun. simpl. subst xs ts.
    split; [reflexivity|]. split.
    { simpl in Hlen. rewrite !length_app in Hlen. lia. }
    split; [simpl; congruence|]. split; reflexivity.
Qed.

Lemma requeue_aligned (ws : list word_dict) (q : queue) :
  aligned q -> aligned (snd (requeue ws q)).
Proof.
  unfold aligned, requeue. intros Hq.
  destruct (requeue_loop (rev ws) q) as [kept q'] eqn:Hrun. simpl.
  destruct (requeue_loop_spec _ _ _ _ Hrun) as (back & _ & Hw & Hwt & _).
  rewrite Hw, Hwt, !length_app, !length_map. lia.
Qed.

Section Loop.
Variable extract : Z -> list string -> list (list token) -> list word_dict.
Variable token_step : Z.
Variable total_samples : Z.
Variable remove_instant_words : bool.

Abbreviation step := (align_step extract token_step total_samples).
Abbreviation loop := (align_loop extract token_step total_samples).

Lemma align_step_invariant (p : progress) :
  aligned (pending p) ->
  exists p' kept,
    step p = Ok p'
    /\ aligned (pending p')
    /\ result p' = result p ++ kept
    /\ finished_tokens p' = finished_tokens p + dict_token_count kept
    /\ (kept = [] ->
        seek_sample p' = seek_sample p + segment_samples total_samples (seek_sample p)).
Proof.
  intros Hq. unfold align_step.
  destruct (get_curr_words_aligned token_step (pending p) Hq)
    as (w & wt & q1 & Hrun & Hq1 & _).
  rewrite Hrun. simpl.
  pose proof (requeue_aligned (extract (seek_sample p) w wt) q1 Hq1) as Hq2.
  destruct (requeue (extract (seek_sample p) w wt) q1) as [kept q2] eqn:Hre.
  simpl in Hq2. eexists. exists kept. split; [reflexivity|]. simpl.
  split; [exact Hq2|]. split; [reflexivity|]. split; [reflexivity|].
  intros ->. reflexivity.
Qed.

(** The loop of [align] keeps [words] and [word_tokens] in step, so that
    no turn raises; what it returns extends the result it started from,
    its token counter has grown by the tokens of the words added, and
    either no word is pending or the cursor has reached the end of the
    audio. *)
Theorem align_loop_invariant (fuel : nat) (p : progress) :
  aligned (pending p) ->
  match loop fuel p with
  | Ok p' =>
    aligned (pending p')
    /\ (exists new, result p' = result p ++ new
          /\ finished_tokens p' = finished_tokens p + dict_token_count new)
    /\ (words (pending p') = [] \/ total_samples <= seek_sample p')
  | Raise _ _ => False
  | OutOfFuel _ => True
  end.
Proof.
  revert p. induction fuel as [|fuel IH]; intros p Hq; simpl.
  - destruct (nonempty (words (pending p)) && (seek_sample p <? total_samples)) eqn:Hg;
      [exact I|].
    split; [exact Hq|]. split.
    + exists []. rewrite app_nil_r. simpl. split; [reflexivity|lia].
    + apply andb_false_iff in Hg. destruct Hg as [Hg|Hg].
      * left. destruct (words (pending p)); [reflexivity|discriminate].
      * right. apply Z.ltb_ge. exact Hg.
  - destruct (nonempty (words (pending p)) && (seek_sample p <? total_samples)) eqn:Hg.
    + destruct (align_step_invariant p Hq) as (p1 & kept & Hstep & Hq1 & Hres & Hfin & _).
      rewrite Hstep. simpl. specialize (IH p1 Hq1).
      destruct (align_loop extract token_step total_samples fuel p1) as [p'| |];
        try exact IH.
      destruct IH as (Ha & (new & Hr & Hf) & Hend).
      split; [exact Ha|]. split; [|exact Hend].
      exists (kept ++ new). rewrite Hr, Hres, Hf, Hfin, dict_token_count_app, app_assoc.
      split; [reflexivity|lia].
    + split; [exact Hq|]. split.
      * exists []. rewrite app_nil_r. simpl. split; [reflexivity|lia].
      * apply andb_false_iff in Hg. destruct Hg as [Hg|Hg].
        -- left. destruct (words (pending p)); [reflexivity|discriminate].
        -- right. apply Z.ltb_ge. exact Hg.
Qed.

(** A window in which nothing is resolved moves the cursor forward. *)
Theorem align_step_unresolved_advances (p p' : progress) :
  aligned (pending p) ->
  0 <= seek_sample p < total_samples ->
  step p = Ok p' ->
  result p' = result p ->
  seek_sample p < seek_sample p'
  /\ seek_sample p' = Z.min total_samples (seek_sample p + N_SAMPLES).
Proof.
  intros Hq Hseek Hstep Hres.
  destruct (align_step_invariant p Hq) as (p1 & kept & Hstep1 & _ & Hres1 & _ & Hadv).
  rewrite Hstep in Hstep1. injection Hstep1 as <-.
  assert (kept = []).
  { rewrite Hres in Hres1. rewrite <- (app_nil_r (result p)) in Hres1 at 1.
    apply app_inv_head in Hres1. congruence. }
  rewrite (Hadv H). unfold segment_samples, Refine.slice_index.
  assert (HN : N_SAMPLES = 480000) by reflexivity. rewrite HN.
  destruct (Z.ltb_spec (seek_sample p + 480000) 0); [lia|].
  destruct (Z.ltb_spec (seek_sample p) 0); lia.
Qed.

(** The word list [align] holds at line 303, before it is wrapped in a
    [WhisperResult] and handed to [adjust_by_silence] and [regroup]
    (lines 306-322), which may change it.  It is empty, so that [align]
    returns [None], exactly when no word was resolved and no pending
    word is kept; otherwise it is the words resolved, followed, unless
    they are to be removed, by every pending word with both timestamps
    at the total duration and probability 0. *)
Theorem finish_align_result (p : progress) :
  aligned (pending p) ->
  let total_duration := round3 (inject_Z total_samples / inject_Z SAMPLE_RATE) in
  (finish_align total_samples remove_instant_words p = None <->
     result p = [] /\ (words (pending p) = [] \/ remove_instant_words = true))
  /\ (forall res, finish_align total_samples remove_instant_words p = Some res ->
       exists rest,
         res = result p ++ rest
         /\ Forall (fun w => start w = total_duration /\ end_ w = total_duration
                             /\ probability w = 0%Q) rest
         /\ (remove_instant_words = true -> rest = [])
         /\ (remove_instant_words = false ->
             map word rest = words (pending p)
             /\ map tokens rest = word_tokens (pending p))).
Proof.
  intros Hq td. unfold finish_align. fold td.
  destruct (pending p) as [ws wts]. unfold aligned in Hq. simpl in *.
  set (inst := zip_with (fun w wt => mkWordDict w wt td td 0) ws wts).
  assert (Hinst : Forall (fun w => start w = td /\ end_ w = td /\ probability w = 0%Q) inst
                  /\ map word inst = ws /\ map tokens inst = wts).
  { subst inst. clear p. revert wts Hq.
    induction ws as [|w ws IH]; intros [|wt wts] Hq; try discriminate; simpl.
    - repeat split; constructor.
    - injection Hq as Hq. destruct (IH wts Hq) as (H1 & H2 & H3).
      repeat split; [constructor; auto | congruence | congruence]. }
  destruct Hinst as (Hf & Hw & Hwt).
  destruct ws as [|w ws]; simpl.
  - rewrite app_nil_r. split.
    + destruct (result p); simpl; split; intros H; auto; try discriminate.
      destruct H; discriminate.
    + intros res Hres. exists []. rewrite app_nil_r.
      destruct (result p) eqn:Hr; simpl in Hres; [discriminate|].
      injection Hres as <-. repeat split; auto.
      all: destruct wts; [reflexivity|discriminate].
  - destruct remove_instant_words; simpl.
    + rewrite app_nil_r. split.
      * destruct (result p); simpl; split; intros H; auto; try discriminate.
        destruct H; discriminate.
      * intros res Hres. exists []. rewrite app_nil_r.
        destruct (result p) eqn:Hr; simpl in Hres; [discriminate|].
        injection Hres as <-. repeat split; auto; intros; discriminate.
    + destruct wts as [|wt wts]; [discriminate|].
      assert (Hne : nonempty (result p ++ inst) = true).
      { subst inst. destruct (result p); reflexivity. }
      rewrite Hne. split.
      * split; [discriminate|]. intros [_ [H|H]]; discriminate.
      * intros res [= <-]. exists inst. repeat split; auto; intros; discriminate.
Qed.

End Loop.

Lemma align_loop_invariant_witness :
  match align_loop echo_extract 3 960000 5 sample_progress with
  | Raise _ _ => False
  | _ => True
  end.
Proof.
  pose proof (align_loop_invariant echo_extract 3 960000 5 sample_progress eq_refl) as H.
  destruct (align_loop echo_extract 3 960000 5 sample_progress); [exact I | exact H | exact I].
Defined.

Lemma align_step_unresolved_advances_witness :
  exists p', align_step no_extract 3 960000 sample_progress = Ok p'
             /\ seek_sample sample_progress < seek_sample p'.
Proof.
  eexists. split; [reflexivity|].
  apply (align_step_unresolved_advances no_extract 3 960000 sample_progress _ eq_refl).
  - simpl. lia.
  - reflexivity.
  - reflexivity.
Defined.

Lemma finish_align_result_witness :
  finish_align 960000 true (mkProgress sample_queue 0 0 []) = None
  /\ exists res rest,
       finish_align 960000 false (mkProgress sample_queue 0 0 []) = Some res
       /\ res = [] ++ rest
       /\ Forall (fun w => start w = round3 (inject_Z 960000 / inject_Z SAMPLE_RATE)
                           /\ end_ w = round3 (inject_Z 960000 / inject_Z SAMPLE_RATE)
                           /\ probability w = 0%Q) rest
       /\ map word rest = words sample_queue
       /\ map tokens rest = word_tokens sample_queue.
Proof.
  split.
  - apply (finish_align_result 960000 true (mkProgress sample_queue 0 0 []) eq_refl).
    split; [reflexivity | right; reflexivity].
  - destruct (finish_align 960000 false (mkProgress sample_queue 0 0 [])) as [res|] eqn:Hres;
      [|vm_compute in Hres; discriminate].
    destruct (finish_align_result 960000 false (mkProgress sample_queue 0 0 []) eq_refl)
      as [_ H].
    destruct (H res Hres) as (rest & Hsplit & Hall & _ & Hkeep).
    destruct (Hkeep eq_refl) as [Hw Ht].
    exists res, rest. auto.
Defined.

End AlignLoopProofs.

(** ** refine: what a pass may change *)

Module RefineFrameProofs.
Import Refine.
Import RefineFrame.

Section Chain.
Variable duration : Word -> Q.
Variable get_prob : batch -> list Word -> bool -> list nat -> mel -> nat -> Q * Z.
Variable n_text_ctx : Z.
Variable total_samples : Z.
Variable o : options.

(** A relation between the result before and after, kept by every
    write [update_ts] makes for a word that [ok] admits. *)
Variable R : WhisperResult -> WhisperResult -> Prop.
Hypothesis R_refl : forall r, R r r.
Hypothesis R_trans : forall r1 r2 r3, R r1 r2 -> R r2 r3 -> R r1 r3.
Variable c : context.
Variable ok : nat -> Prop.
Hypothesis R_update :
  forall idx e r, ok idx ->
    R r (update_ts o (is_end_ts c) (time_offset c) (first_word c + idx) e r).

Lemma refine_idx_chain (idx : nat) (prob : Q) (pos : Z)
    (e : interval) (m : mel) (r : WhisperResult) :
  (is_finish e = false -> ok idx) ->
  R r (store_of snd (refine_idx o c idx prob pos e m r)).
Proof.
  intros Hok. unfold refine_idx.
  destruct e as [st en fin ch op pp otp].
  cbn [is_finish set_prev_probs starts ends changes orig_probs prev_probs orig_tk_poss].
  destruct fin; [apply R_refl|]. specialize (Hok eq_refl).
  destruct (bounds (is_end_ts c) _) as [[mn mx] md].
  destruct (prob_indices c !! idx); [|apply R_refl].
  destruct ch as [[c0 c1] cl].
  match goal with |- context [let '(a, b) := ?x in _] => destruct x as [cmin cmax] end.
  destruct (_ <? _); simpl.
  - apply R_update. exact Hok.
  - match goal with |- context [changes ?x] => destruct (changes x) as [[? ?] ?] end.
    apply R_refl.
Qed.

Lemma refine_idx_stays_finished (idx : nat) (prob : Q) (pos : Z)
    (e e' : interval) (m m' : mel) (r r' : WhisperResult) :
  refine_idx o c idx prob pos e m r = Ok (e', m', r') ->
  is_finish e = true -> is_finish e' = true.
Proof.
  intros Hrun Hf.
  destruct (RefineProofs.refine_idx_cases _ _ _ _ _ _ _ _ _ _ _ Hrun)
    as [(_ & H & _) | [(_ & H & _) | (H & _)]]; congruence.
Qed.

Lemma refine_for_chain (probs : nat -> Q * Z) :
  forall (es : list interval) (i : nat) (m : mel) (r : WhisperResult),
    (forall j e, es !! j = Some e -> is_finish e = false -> ok (i + j)) ->
    R r (store_of snd (refine_for o c probs i es m r))
    /\ forall es' m' r', refine_for o c probs i es m r = Ok (es', m', r') ->
         forall j e', es' !! j = Some e' -> is_finish e' = false -> ok (i + j).
Proof.
  induction es as [|e es IH]; intros i m r Hok; simpl.
  - split; [apply R_refl|]. intros es' m' r' [= <- <- <-] j e' H; discriminate.
  - pose proof (refine_idx_chain i (fst (probs i)) (snd (probs i)) e m r) as H1.
    assert (Hok0 : is_finish e = false -> ok i).
    { intros Hf. specialize (Hok 0%nat e eq_refl Hf). rewrite Nat.add_0_r in Hok. exact Hok. }
    specialize (H1 Hok0).
    destruct (refine_idx o c i (fst (probs i)) (snd (probs i)) e m r)
      as [[[e1 m1] r1]| |] eqn:Hidx; simpl in *;
      [|split; [exact H1|intros; discriminate]..].
    destruct (IH (S i) m1 r1) as [H2 H3].
    { intros j e0 He0 Hf. specialize (Hok (S j) e0 He0 Hf).
      replace (S i + j)%nat with (i + S j)%nat by lia. exact Hok. }
    destruct (refine_for o c probs (S i) es m1 r1) as [[[es1 m2] r2]| |] eqn:Hfor;
      simpl in *.
    + split; [eapply R_trans; eauto|].
      intros es' m' r' [= <- <- <-] [|j] e' He' Hf; simpl in He'.
      * injection He' as <-. rewrite Nat.add_0_r. apply Hok0.
        destruct (is_finish e) eqn:Hfe; [|reflexivity].
        rewrite (refine_idx_stays_finished _ _ _ _ _ _ _ _ _ Hidx Hfe) in Hf. discriminate.
      * specialize (H3 _ _ _ eq_refl j e' He' Hf).
        replace (i + S j)%nat with (S i + j)%nat by lia. exact H3.
    + split; [eapply R_trans; eauto|intros; discriminate].
    + split; [eapply R_trans; eauto|intros; discriminate].
Qed.

Lemma refine_while_chain (b : batch) :
  forall (fuel : nat) (st : state),
    (forall j e, fst (fst st) !! j = Some e -> is_finish e = false -> ok j) ->
    R (snd st) (store_of snd (refine_while get_prob o fuel b c st)).
Proof.
  induction fuel as [|fuel IH]; intros [[es m] r] Hok; simpl in *;
    destruct (forallb is_finish es); try apply R_refl.
  destruct (refine_for_chain
    (get_prob b (batch_words r b) (is_end_ts c) (prob_indices c)
       (curr_mel_segment (prob_indices c) m)) es 0%nat m r Hok) as [H1 H2].
  destruct (refine_for _ _ _ _ _ _ _) as [[[es1 m1] r1]| |]; simpl in *; try exact H1.
  eapply R_trans; [exact H1|].
  apply (IH (es1, m1, r1)). simpl. intros j e He Hf.
  apply (H2 _ _ _ eq_refl j e He Hf).
Qed.

End Chain.

Lemma map_alter_same {A B} (g : A -> B) (f : A -> A) (i : nat) (l : list A) :
  (forall x, g (f x) = g x) -> map g (alter f i l) = map g l.
Proof.
  intros Hg. revert i. induction l as [|x l IH]; intros [|i]; simpl; try reflexivity.
  - rewrite Hg. reflexivity.
  - f_equal. apply IH.
Qed.

Lemma update_word_lengths (f : Word -> Word) :
  forall (segs : list Segment) (i : nat),
    map (fun s => length (seg_words s)) (update_word segs i f)
    = map (fun s => length (seg_words s)) segs.
Proof.
  induction segs as [|s segs IH]; intros i; simpl; [reflexivity|].
  destruct (i <? length (seg_words s))%nat; simpl.
  - rewrite length_alter. reflexivity.
  - rewrite IH. reflexivity.
Qed.

Lemma only_timestamps_refl (r : WhisperResult) : only_timestamps r r.
Proof. unfold only_timestamps. auto. Qed.

Lemma only_timestamps_trans (r1 r2 r3 : WhisperResult) :
  only_timestamps r1 r2 -> only_timestamps r2 r3 -> only_timestamps r1 r3.
Proof.
  unfold only_timestamps. intros (A1 & A2 & A3 & A4) (B1 & B2 & B3 & B4).
  repeat split; congruence.
Qed.

Lemma other_endpoint_kept_refl (e_ts : bool) (r : WhisperResult) :
  other_endpoint_kept e_ts r r.
Proof. unfold other_endpoint_kept. destruct e_ts; reflexivity. Qed.

Lemma other_endpoint_kept_trans (e_ts : bool) (r1 r2 r3 : WhisperResult) :
  other_endpoint_kept e_ts r1 r2 -> other_endpoint_kept e_ts r2 r3 ->
  other_endpoint_kept e_ts r1 r3.
Proof. unfold other_endpoint_kept. destruct e_ts; congruence. Qed.

Section Frame.
Variable duration : Word -> Q.
Variable get_prob : batch -> list Word -> bool -> list nat -> mel -> nat -> Q * Z.
Variable n_text_ctx : Z.
Variable total_samples : Z.
Variable o : options.

(** A write of [update_ts] changes one timestamp of one word. *)
Lemma update_ts_effect (e_ts : bool) (t0 : Q) (gi : nat) (e : interval) (r : WhisperResult) :
  update_ts o e_ts t0 gi e r = r
  \/ exists ts,
       update_ts o e_ts t0 gi e r
       = mkResult (update_word (segments r) gi (if e_ts then set_end ts else set_start ts)).
Proof.
  unfold update_ts. destruct (changes e) as [[c0 c1] cl].
  destruct (_ || _); [left; reflexivity|].
  destruct (all_words r !! gi); [|left; reflexivity].
  destruct (_ && _); [left; reflexivity|].
  destruct (negb _); [left; reflexivity|].
  right. eexists. destruct e_ts; reflexivity.
Qed.

Lemma update_ts_only_timestamps (e_ts : bool) (t0 : Q) (gi : nat) (e : interval)
    (r : WhisperResult) :
  only_timestamps r (update_ts o e_ts t0 gi e r)
  /\ other_endpoint_kept e_ts r (update_ts o e_ts t0 gi e r).
Proof.
  destruct (update_ts_effect e_ts t0 gi e r) as [-> | [ts ->]].
  - split; [apply only_timestamps_refl | apply other_endpoint_kept_refl].
  - destruct r as [segs]. unfold only_timestamps, other_endpoint_kept.
    cbn [segments]. rewrite RefineProofs.all_words_update_word.
    rewrite update_word_lengths.
    split; [|destruct e_ts; apply map_alter_same; intros x; reflexivity].
    split; [reflexivity|].
    repeat split; apply map_alter_same; intros x; destruct e_ts; reflexivity.
Qed.

Lemma update_ts_word_kept (e_ts : bool) (t0 : Q) (gi t : nat) (e : interval)
    (r : WhisperResult) :
  gi <> t -> word_kept t r (update_ts o e_ts t0 gi e r).
Proof.
  intros Hne. unfold word_kept.
  destruct (update_ts_effect e_ts t0 gi e r) as [-> | [ts ->]]; [reflexivity|].
  destruct r as [segs]. cbn [segments].
  rewrite RefineProofs.all_words_update_word.
  apply list_lookup_alter_ne. exact Hne.
Qed.

(** The intervals a batch starts from: one per word, finished for every
    skipped word. *)
Lemma refine_init_intervals (e_ts : bool) (b : batch) (r : WhisperResult)
    (c : context) (es : list interval) (m : mel) :
  refine_init duration get_prob o e_ts b r = Ok (c, es, m) ->
  is_end_ts c = e_ts /\ first_word c = first b
  /\ forall j e, es !! j = Some e ->
       (j < length (curr_starts b))%nat
       /\ exists w, all_words r !! (first b + j)%nat = Some w
                    /\ (skipped duration o w = true -> is_finish e = true).
Proof.
  unfold refine_init. destruct (curr_starts b) as [|t0 ts] eqn:Hcs; [discriminate|].
  intros [= <- <- <-]. split; [reflexivity|]. split; [reflexivity|].
  intros j e He.
  rewrite list_lookup_imap in He.
  destruct (init_intervals duration o e_ts t0 (batch_words r b) b !! j) as [e1|] eqn:H1;
    [|discriminate].
  simpl in He. injection He as <-.
  unfold init_intervals in H1. rewrite lookup_zip_with in H1.
  destruct (batch_words r b !! j) as [w|] eqn:Hw; [|discriminate]. simpl in H1.
  destruct (zip (curr_starts b) (zip (curr_ends b) (edge_mask b)) !! j)
    as [[cs [ce mk]]|] eqn:Hz; [|discriminate].
  simpl in H1. injection H1 as <-.
  unfold batch_words in Hw. rewrite Hcs in *.
  apply lookup_take_Some in Hw. destruct Hw as [Hw Hj].
  rewrite lookup_drop in Hw.
  split; [exact Hj|]. exists w. split; [exact Hw|].
  unfold skipped, init_interval. cbn [is_finish set_orig_tk_poss set_prev_probs set_orig_probs].
  intros ->. destruct (word_level o); [reflexivity|]. destruct (negb _); reflexivity.
Qed.

Section Batch.
Variable R : WhisperResult -> WhisperResult -> Prop.
Hypothesis R_refl : forall r, R r r.
Hypothesis R_trans : forall r1 r2 r3, R r1 r2 -> R r2 r3 -> R r1 r3.

(** A relation that every write to a word of batch [b] which [r] does
    not show as skipped keeps is kept by the pass over [b]. *)
Lemma refine_batch_chain (fuel : nat) (e_ts : bool) (b : batch) (r : WhisperResult) :
  (forall t0 j e r1 w,
     (j < length (curr_starts b))%nat ->
     all_words r !! (first b + j)%nat = Some w -> skipped duration o w = false ->
     R r1 (update_ts o e_ts t0 (first b + j) e r1)) ->
  R r (store_of id (refine_batch duration get_prob o fuel e_ts b r)).
Proof.
  intros Hupd. unfold refine_batch.
  destruct (refine_init duration get_prob o e_ts b r) as [[[c es] m]| |] eqn:Hinit.
  2,3: unfold refine_init in Hinit; destruct (curr_starts b); try discriminate;
       injection Hinit as _ <-; apply R_refl.
  destruct (refine_init_intervals _ _ _ _ _ _ Hinit) as (Hts & Hfw & Hes).
  simpl.
  pose proof (refine_while_chain get_prob o R R_refl R_trans c
    (fun j => (j < length (curr_starts b))%nat
              /\ exists w, all_words r !! (first b + j)%nat = Some w
                           /\ skipped duration o w = false)) as Hchain.
  assert (Hstep : forall idx e r1,
            (idx < length (curr_starts b))%nat
            /\ (exists w, all_words r !! (first b + idx)%nat = Some w
                          /\ skipped duration o w = false) ->
            R r1 (update_ts o (is_end_ts c) (time_offset c) (first_word c + idx) e r1)).
  { intros idx e r1 (Hj & w & Hw & Hs). rewrite Hts, Hfw. eapply Hupd; eauto. }
  specialize (Hchain Hstep b fuel (es, m, r)).
  assert (Hok : forall j e, fst (fst (es, m, r)) !! j = Some e -> is_finish e = false ->
            (j < length (curr_starts b))%nat
            /\ exists w, all_words r !! (first b + j)%nat = Some w
                         /\ skipped duration o w = false).
  { simpl. intros j e He Hf. destruct (Hes j e He) as (Hj & w & Hw & Hsk).
    split; [exact Hj|]. exists w. split; [exact Hw|].
    destruct (skipped duration o w); [|reflexivity].
    rewrite Hsk in Hf by reflexivity. discriminate. }
  specialize (Hchain Hok). simpl in Hchain.
  destruct (refine_while get_prob o fuel b c (es, m, r)) as [[[es1 m1] r1]| |];
    simpl in *; exact Hchain.
Qed.

End Batch.

Lemma curr_segments_store (r : WhisperResult) :
  store_of (fun _ => r) (curr_segments duration n_text_ctx total_samples o r) = r.
Proof.
  unfold curr_segments. destruct (imap _ _); reflexivity.
Qed.

(** A pass over a batch changes nothing but timestamps, and only the
    timestamps of the pass. *)
Lemma refine_batch_only_timestamps (fuel : nat) (e_ts : bool) (b : batch)
    (r : WhisperResult) :
  only_timestamps r (store_of id (refine_batch duration get_prob o fuel e_ts b r))
  /\ other_endpoint_kept e_ts r (store_of id (refine_batch duration get_prob o fuel e_ts b r)).
Proof.
  apply (refine_batch_chain
           (fun a b => only_timestamps a b /\ other_endpoint_kept e_ts a b)).
  - intros r0. split; [apply only_timestamps_refl | apply other_endpoint_kept_refl].
  - intros r1 r2 r3 [A1 A2] [B1 B2].
    split; [eapply only_timestamps_trans | eapply other_endpoint_kept_trans]; eauto.
  - intros. apply update_ts_only_timestamps.
Qed.

(** A pass over a batch leaves alone every word outside the batch and
    every word of it that is skipped: one whose probability is below
    [prob_threshold] or whose duration is zero. *)
Theorem refine_batch_keeps_other_words (fuel : nat) (e_ts : bool) (b : batch)
    (r : WhisperResult) (t : nat) :
  ~ In t (batch_range b)
  \/ (exists w, all_words r !! t = Some w /\ skipped duration o w = true) ->
  word_kept t r (store_of id (refine_batch duration get_prob o fuel e_ts b r)).
Proof.
  intros Ht. apply (refine_batch_chain (word_kept t)).
  - intros r0. reflexivity.
  - unfold word_kept. intros; congruence.
  - intros t0 j e r1 w Hj Hw Hs. apply update_ts_word_kept.
    intros Heq. destruct Ht as [Ht | (w' & Hw' & Hs')].
    + apply Ht. unfold batch_range. apply in_seq. lia.
    + rewrite Heq in Hw. congruence.
Qed.

Lemma refine_batches_chain (R : WhisperResult -> WhisperResult -> Prop)
    (fuel : nat) (e_ts : bool) :
  (forall r, R r r) ->
  (forall r1 r2 r3, R r1 r2 -> R r2 r3 -> R r1 r3) ->
  forall (bs : list batch) (r0 : WhisperResult) (P : WhisperResult -> Prop),
    (forall b r, R r0 r -> R r (store_of id (refine_batch duration get_prob o fuel e_ts b r))) ->
    forall r, R r0 r ->
      R r0 (store_of id (refine_batches duration get_prob o fuel e_ts bs r)).
Proof.
  intros Hrefl Htrans bs r0 _ Hb. induction bs as [|b bs IH]; intros r Hr; simpl.
  - exact Hr.
  - pose proof (Hb b r Hr) as H.
    destruct (refine_batch duration get_prob o fuel e_ts b r) as [r1| |]; simpl in *.
    + apply IH. eapply Htrans; eauto.
    + eapply Htrans; eauto.
    + eapply Htrans; eauto.
Qed.

Lemma refine_pass_chain (R : WhisperResult -> WhisperResult -> Prop)
    (fuel : nat) (_step : ascii) (r : WhisperResult) :
  (forall r, R r r) ->
  (forall r1 r2 r3, R r1 r2 -> R r2 r3 -> R r1 r3) ->
  (forall b r1, R r r1 ->
     R r1 (store_of id
             (refine_batch duration get_prob o fuel (Ascii.eqb _step "e") b r1))) ->
  R r (store_of id (_refine duration get_prob n_text_ctx total_samples o fuel _step r)).
Proof.
  intros Hrefl Htrans Hb. unfold _refine.
  pose proof (curr_segments_store r) as Hcs.
  destruct (curr_segments duration n_text_ctx total_samples o r) as [bs| |]; simpl in *.
  - apply (refine_batches_chain R fuel _ Hrefl Htrans bs r (fun _ => True) Hb r (Hrefl r)).
  - subst. apply Hrefl.
  - subst. apply Hrefl.
Qed.

Lemma refine_steps_chain (R : WhisperResult -> WhisperResult -> Prop) (fuel : nat) :
  (forall r, R r r) ->
  (forall r1 r2 r3, R r1 r2 -> R r2 r3 -> R r1 r3) ->
  forall (ss : list ascii) (r0 r : WhisperResult),
    (forall e_ts b r1, R r0 r1 ->
       R r1 (store_of id (refine_batch duration get_prob o fuel e_ts b r1))) ->
    R r0 r ->
    R r0 (store_of id (refine_steps duration get_prob n_text_ctx total_samples o fuel ss r)).
Proof.
  intros Hrefl Htrans. induction ss as [|s ss IH]; intros r0 r Hb Hr; simpl.
  - exact Hr.
  - assert (H : R r0 (store_of id
                 (_refine duration get_prob n_text_ctx total_samples o fuel s r))).
    { eapply Htrans; [exact Hr|].
      apply (refine_pass_chain R fuel s r Hrefl Htrans).
      intros b r1 Hr1. apply Hb. eapply Htrans; eauto. }
    destruct (_refine duration get_prob n_text_ctx total_samples o fuel s r) as [r1| |];
      simpl in *; try exact H.
    apply IH; assumption.
Qed.

(** [_refine('s')] changes start timestamps only and [_refine('e')] end
    timestamps only: texts, tokens, probabilities, the segmentation and
    the other timestamp of every word are as before. *)
Theorem refine_pass_only_timestamps (fuel : nat) (_step : ascii) (r : WhisperResult) :
  only_timestamps r
    (store_of id (_refine duration get_prob n_text_ctx total_samples o fuel _step r))
  /\ other_endpoint_kept (Ascii.eqb _step "e") r
       (store_of id (_refine duration get_prob n_text_ctx total_samples o fuel _step r)).
Proof.
  apply (refine_pass_chain
           (fun a b => only_timestamps a b /\ other_endpoint_kept (Ascii.eqb _step "e") a b)).
  - intros r0. split; [apply only_timestamps_refl | apply other_endpoint_kept_refl].
  - intros r1 r2 r3 [A1 A2] [B1 B2].
    split; [eapply only_timestamps_trans | eapply other_endpoint_kept_trans]; eauto.
  - intros b r1 _. apply refine_batch_only_timestamps.
Qed.

(** Whatever the steps, the model and the way the passes end, they leave
    the segmentation and every word's text, tokens and probability as
    they were. *)
Theorem refine_steps_only_timestamps (fuel : nat) (ss : list ascii) (r : WhisperResult) :
  only_timestamps r
    (store_of id (refine_steps duration get_prob n_text_ctx total_samples o fuel ss r)).
Proof.
  apply (refine_steps_chain only_timestamps fuel only_timestamps_refl
           only_timestamps_trans ss r r).
  - intros e_ts b r1 _. apply refine_batch_only_timestamps.
  - apply only_timestamps_refl.
Qed.

(** A word whose probability is below [prob_threshold] or whose duration
    is zero comes out of all the passes as it went in. *)
Theorem refine_steps_keep_skipped_word (fuel : nat) (ss : list ascii)
    (r : WhisperResult) (t : nat) (w : Word) :
  all_words r !! t = Some w ->
  skipped duration o w = true ->
  all_words (store_of id
    (refine_steps duration get_prob n_text_ctx total_samples o fuel ss r)) !! t = Some w.
Proof.
  intros Hw Hs. rewrite <- Hw.
  apply (refine_steps_chain (word_kept t) fuel).
  - intros r0. reflexivity.
  - unfold word_kept. intros; congruence.
  - intros e_ts b r1 Hr1. apply (refine_batch_chain (word_kept t)).
    + intros r0. reflexivity.
    + unfold word_kept. intros; congruence.
    + intros t0 j e r2 w2 Hj Hw2 Hs2. apply update_ts_word_kept.
      intros Heq. unfold word_kept in Hr1. rewrite Heq, Hr1, Hw in Hw2.
      injection Hw2 as <-. congruence.
  - reflexivity.
Qed.

End Frame.

Lemma refine_batch_keeps_other_words_witness :
  curr_segments sample_duration 448 sample_total_samples (start_options (Some true))
    two_word_result = Ok [two_word_batch]
  /\ word_kept 0 two_word_result
       (store_of id (refine_batch sample_duration steady_model (start_options (Some true))
                       10 false two_word_batch two_word_result))
  /\ all_words
       (store_of id (refine_batch sample_duration steady_model (start_options (Some true))
                       10 false two_word_batch two_word_result)) !! 1%nat
     = Some (set_start (1870 # 1000) sample_word).
Proof.
  split; [vm_compute; reflexivity|]. split; [|vm_compute; reflexivity].
  apply (refine_batch_keeps_other_words sample_duration steady_model
           (start_options (Some true)) 10 false two_word_batch two_word_result 0).
  right. exists (mkWord " hm" [2] 1 1 (9 # 10)). split; reflexivity.
Defined.

Lemma refine_steps_keep_skipped_word_witness :
  all_words (store_of id
    (refine_steps sample_duration steady_model 448 sample_total_samples
       (start_options (Some true)) 10 (list_ascii_of_string "se")
       (mkResult [mkSegment [mkWord " hm" [2] 1 1 (9 # 10)]]))) !! 0%nat
  = Some (mkWord " hm" [2] 1 1 (9 # 10)).
Proof.
  apply (refine_steps_keep_skipped_word sample_duration steady_model 448
           sample_total_samples (start_options (Some true)) 10
           (list_ascii_of_string "se")
           (mkResult [mkSegment [mkWord " hm" [2] 1 1 (9 # 10)]]) 0
           (mkWord " hm" [2] 1 1 (9 # 10))).
  - reflexivity.
  - reflexivity.
Defined.

Lemma refine_quiet_changes_nothing_witness :
  store_of id
    (refine_steps sample_duration steady_model 448 sample_total_samples default_options 10
       (list_ascii_of_string (effective_steps default_options)) sample_result)
  = sample_result.
Proof.
  exact (RefineProofs.refine_quiet_changes_nothing sample_duration steady_model 448
           sample_total_samples default_options 10 sample_result eq_refl).
Defined.

End RefineFrameProofs.

(** ** refine: clamps and batches *)

Module BatchProofs.
Import Refine.
Import RefineFrame.

Lemma qmax_ge (a b : Q) : (a <= qmax a b)%Q /\ (b <= qmax a b)%Q.
Proof.
  unfold qmax, Qlt_bool. destruct (Qle_bool b a) eqn:H; simpl.
  - apply Qle_bool_iff in H. split; [apply Qle_refl | exact H].
  - split; [|apply Qle_refl].
    apply Qlt_le_weak, RefineProofs.Qle_bool_false, H.
Qed.

Lemma qmin_le (a b : Q) : (qmin a b <= a)%Q /\ (qmin a b <= b)%Q.
Proof.
  unfold qmin, Qlt_bool. destruct (Qle_bool a b) eqn:H; simpl.
  - apply Qle_bool_iff in H. split; [apply Qle_refl | exact H].
  - split; [|apply Qle_refl].
    apply Qlt_le_weak, RefineProofs.Qle_bool_false, H.
Qed.

Lemma qmax3_ge (a b c : Q) :
  (a <= qmax3 a b c)%Q /\ (b <= qmax3 a b c)%Q /\ (c <= qmax3 a b c)%Q.
Proof.
  unfold qmax3.
  destruct (qmax_ge a b) as [H1 H2]. destruct (qmax_ge (qmax a b) c) as [H3 H4].
  split; [eapply Qle_trans; [exact H1 | exact H3]|].
  split; [eapply Qle_trans; [exact H2 | exact H3] | exact H4].
Qed.

Lemma qmin3_le (a b c : Q) :
  (qmin3 a b c <= a)%Q /\ (qmin3 a b c <= b)%Q /\ (qmin3 a b c <= c)%Q.
Proof.
  unfold qmin3.
  destruct (qmin_le a b) as [H1 H2]. destruct (qmin_le (qmin a b) c) as [H3 H4].
  split; [eapply Qle_trans; [exact H3 | exact H1]|].
  split; [eapply Qle_trans; [exact H3 | exact H2] | exact H4].
Qed.

Section Clamps.
Variable duration : Word -> Q.
Variable total_samples : Z.
Variable o : options.

(** The clamps of [curr_segments]: the lower bound of a start is never
    negative, never before the end of the previous word and never
    further from the start than the duration caps allow; the upper bound
    of an end never exceeds the total duration, the start of the next
    word or the duration caps. *)
Theorem clamps_within_neighbours (ws : list Word) (i : nat) (w : Word) :
  let lo := start_time duration o ws i w in
  let hi := end_time duration total_samples o ws i w in
  (0 <= lo)%Q
  /\ (forall j prev, i = S j -> ws !! j = Some prev -> (end_ prev <= lo)%Q)
  /\ (forall a, abs_dur_change o = Some a -> (start w - a <= lo)%Q)
  /\ (forall c, rel_dur_change o = Some c -> (start w - duration w * c <= lo)%Q)
  /\ (hi <= total_duration total_samples)%Q
  /\ (forall next, ws !! S i = Some next -> (hi <= start next)%Q)
  /\ (forall a, abs_dur_change o = Some a -> (hi <= end_ w + a)%Q)
  /\ (forall c, rel_dur_change o = Some c -> (hi <= end_ w + duration w * c)%Q).
Proof.
  cbn zeta. unfold start_time, end_time.
  set (lo3 := match i with
              | O => 0%Q
              | S j => match ws !! j with
                       | Some prev => qmax3 (end_ prev) (end_ w - (29 # 2)) 0
                       | None => 0%Q
                       end
              end).
  set (hi3 := match ws !! S i with
              | Some next => qmin3 (start next) (start w + (29 # 2))
                               (total_duration total_samples)
              | None => total_duration total_samples
              end).
  assert (Hlo0 : (0 <= lo3)%Q).
  { subst lo3. destruct i as [|j]; [apply Qle_refl|].
    destruct (ws !! j); [apply qmax3_ge | apply Qle_refl]. }
  assert (Hlop : forall j prev, i = S j -> ws !! j = Some prev -> (end_ prev <= lo3)%Q).
  { subst lo3. intros j prev -> ->. apply qmax3_ge. }
  assert (Hhi0 : (hi3 <= total_duration total_samples)%Q).
  { subst hi3. destruct (ws !! S i); [apply qmin3_le | apply Qle_refl]. }
  assert (Hhin : forall next, ws !! S i = Some next -> (hi3 <= start next)%Q).
  { subst hi3. intros next ->. apply qmin3_le. }
  clearbody lo3 hi3.
  match goal with |- context [qmax3 ?a ?b ?c] =>
    destruct (qmax3_ge a b c) as (L1 & L2 & L3) end.
  match goal with |- context [qmin3 ?a ?b ?c] =>
    destruct (qmin3_le a b c) as (U1 & U2 & U3) end.
  split; [eapply Qle_trans; [exact Hlo0 | exact L3]|].
  split; [intros j prev Hi Hp; eapply Qle_trans; [exact (Hlop j prev Hi Hp) | exact L3]|].
  split; [intros a Ha; rewrite Ha in L1 |- *; exact L1|].
  split; [intros c Hc; rewrite Hc in L2 |- *; exact L2|].
  split; [eapply Qle_trans; [exact U3 | exact Hhi0]|].
  split; [intros next Hn; eapply Qle_trans; [exact U3 | exact (Hhin next Hn)]|].
  split; [intros a Ha; rewrite Ha in U1 |- *; exact U1|].
  intros c Hc; rewrite Hc in U2 |- *; exact U2.
Qed.

End Clamps.

Section Batches.
Variable duration : Word -> Q.
Variable n_text_ctx : Z.
Variable total_samples : Z.
Variable o : options.

Lemma curr_segments_loop_spec (mask : list Z) (n : nat) :
  forall (times : list (Q * Q)) (i : nat) (start_ : Q) (prev_i : nat) (cs ce : list Q),
    times <> [] ->
    length ce = length cs ->
    (prev_i + length cs + 1 = i)%nat ->
    (i + length times = n + 1)%nat ->
    Z.of_nat (length cs) <= Z.max 1 (max_inference_tokens n_text_ctx) ->
    match cs with
    | [] => head (map fst times) = Some start_
    | c0 :: _ => start_ = c0
    end ->
    Forall (fun e => (e - start_ <= 30)%Q) (tail ce) ->
    let bs := curr_segments_loop n_text_ctx mask n times i start_ prev_i cs ce in
    concat (map batch_range bs) = seq prev_i (length cs + length times)
    /\ concat (map curr_starts bs) = cs ++ map fst times
    /\ concat (map curr_ends bs) = ce ++ map snd times
    /\ Forall (well_formed_batch n_text_ctx) bs.
Proof.
  induction times as [|[st et] rest IH];
    intros i start_ prev_i cs ce Hne Hlen Hidx Hn Hbound Hstart Hspan; [congruence|].
  cbn zeta. cbn [curr_segments_loop].
  set (over := Qlt_bool 30 (et - start_)
               || (max_inference_tokens n_text_ctx <? Z.of_nat (length cs) + 1)).
  assert (Hwf : forall p (xs ys : list Q) s0,
            xs <> [] -> length ys = length xs ->
            Z.of_nat (length xs) <= Z.max 1 (max_inference_tokens n_text_ctx) ->
            head xs = Some s0 -> Forall (fun e => (e - s0 <= 30)%Q) (tail ys) ->
            forall k, well_formed_batch n_text_ctx (mkBatch p xs ys k)).
  { intros p xs ys s0 H1 H2 H3 H4 H5 k. unfold well_formed_batch. simpl.
    split; [exact H1|]. split; [exact H2|]. split; [exact H3|].
    intros s1 Hs1. rewrite H4 in Hs1. injection Hs1 as <-. exact H5. }
  destruct (over && nonempty cs) eqn:Hflush.
  - (* the batch in hand is yielded and a new one starts with this word *)
    apply andb_true_iff in Hflush. destruct Hflush as [Hover Hcs]. rewrite Hover.
    destruct cs as [|c0 cs']; [discriminate|]. subst start_.
    assert (Hb0 : well_formed_batch n_text_ctx
                    (mkBatch prev_i (c0 :: cs') ce
                       (mask_slice mask prev_i (length (c0 :: cs'))))).
    { apply (Hwf _ _ _ c0); auto; discriminate. }
    assert (Hb1 : forall k, well_formed_batch n_text_ctx (mkBatch (i - 1) [st] [et] k)).
    { intros k. apply (Hwf _ _ _ st); simpl; auto; try discriminate; try lia. }
    simpl length in *.
    destruct rest as [|t2 rest'].
    + assert (Hi : (i =? n)%nat = true) by (apply Nat.eqb_eq; simpl in Hn; lia).
      rewrite Hi. simpl. rewrite ?app_nil_r.
      unfold batch_range. simpl.
      split.
      { rewrite seq_app. simpl. repeat f_equal. lia. }
      split; [reflexivity|]. split; [reflexivity|].
      constructor; [exact Hb0|]. constructor; [apply Hb1|constructor].
    + assert (Hi : (i =? n)%nat = false) by (apply Nat.eqb_neq; simpl in Hn; lia).
      rewrite Hi.
      destruct (IH (S i) st (i - 1)%nat [st] [et]) as (H1 & H2 & H3 & H4);
        [discriminate | reflexivity | simpl; lia | simpl in *; lia | simpl; lia
        | reflexivity | constructor | ].
      cbn [app map concat]. cbn zeta in H1, H2, H3.
      rewrite H1, H2, H3. unfold batch_range at 1. cbn [first curr_starts curr_ends length app].
      split.
      { replace (i - 1)%nat with (prev_i + S (length cs'))%nat by lia.
        replace (S (length cs' + S (S (length rest'))))
          with (S (length cs') + (1 + S (length rest')))%nat by lia.
        rewrite (seq_app (S (length cs'))). simpl. reflexivity. }
      split; [reflexivity|]. split; [reflexivity|].
      constructor; auto.
  - (* the word joins the batch in hand *)
    assert (Hcs2 : (if over && nonempty cs then [] else cs) = cs) by (rewrite Hflush; reflexivity).
    assert (Hprev : (if over then (i - 1)%nat else prev_i) = prev_i).
    { destruct over; [|reflexivity]. destruct cs; [simpl in *; lia|discriminate]. }
    assert (Hst : (if over then st else start_) = match cs with [] => st | c0 :: _ => c0 end
                  /\ (cs = [] \/ (over = false /\ (et - start_ <= 30)%Q))).
    { destruct cs as [|c0 cs'].
      - simpl in Hstart. injection Hstart as <-. destruct over; auto.
      - subst start_. destruct over eqn:Ho; [discriminate|]. split; [reflexivity|].
        right. split; [reflexivity|].
        subst over. apply orb_false_iff in Ho. destruct Ho as [Ho _].
        unfold Qlt_bool in Ho. apply negb_false_iff, Qle_bool_iff in Ho. exact Ho. }
    destruct Hst as [Hst Hspan1].
    rewrite Hprev, Hst.
    assert (Hbound2 : Z.of_nat (length (cs ++ [st]))
                      <= Z.max 1 (max_inference_tokens n_text_ctx)).
    { rewrite length_app. simpl.
      destruct Hspan1 as [-> | [Ho _]]; [simpl; lia|].
      subst over. apply orb_false_iff in Ho. destruct Ho as [_ Ho].
      apply Z.ltb_ge in Ho. lia. }
    assert (Hspan2 : Forall (fun e => (e - match cs with [] => st | c0 :: _ => c0 end <= 30)%Q)
                       (tail (ce ++ [et]))).
    { destruct cs as [|c0 cs'].
      - destruct ce; [constructor|discriminate].
      - subst start_. destruct ce as [|e0 ce']; [discriminate|]. simpl.
        apply Forall_app. split; [exact Hspan|].
        destruct Hspan1 as [H|[_ H]]; [discriminate|]. repeat constructor. exact H. }
    assert (Hhead : head (cs ++ [st]) = Some match cs with [] => st | c0 :: _ => c0 end).
    { destruct cs; reflexivity. }
    assert (Hlen2 : length (ce ++ [et]) = length (cs ++ [st])).
    { rewrite !length_app. simpl. lia. }
    cbn [app].
    destruct rest as [|t2 rest'].
    + assert (Hi : (i =? n)%nat = true) by (apply Nat.eqb_eq; simpl in Hn; lia).
      rewrite Hi. simpl. rewrite !app_nil_r. unfold batch_range. simpl.
      rewrite length_app. simpl.
      split; [reflexivity|]. split; [reflexivity|]. split; [reflexivity|].
      constructor; [|constructor]. eapply Hwf; eauto. destruct cs; discriminate.
    + assert (Hi : (i =? n)%nat = false) by (apply Nat.eqb_neq; simpl in Hn; lia).
      rewrite Hi. cbn [app].
      destruct (IH (S i) match cs with [] => st | c0 :: _ => c0 end prev_i
                  (cs ++ [st]) (ce ++ [et])) as (H1 & H2 & H3 & H4);
        try discriminate; auto.
      * rewrite length_app. simpl. lia.
      * simpl in Hn |- *. lia.
      * destruct cs; reflexivity.
      * cbn zeta in H1, H2, H3. rewrite H1, H2, H3. rewrite length_app, <- !app_assoc. simpl.
        split; [f_equal; lia|]. split; [reflexivity|]. split; [reflexivity|]. exact H4.
Qed.

(** [curr_segments] fails exactly on a result without words.  Otherwise
    its batches, in the order they are yielded, stand for the words of
    [all_words()] from first to last, each word once, and carry their
    clamps; and every batch is well formed. *)
Theorem curr_segments_partition (r : WhisperResult) :
  match curr_segments duration n_text_ctx total_samples o r with
  | Ok bs =>
    all_words r <> []
    /\ concat (map batch_range bs) = seq 0 (length (all_words r))
    /\ concat (map curr_starts bs) = imap (start_time duration o (all_words r)) (all_words r)
    /\ concat (map curr_ends bs)
       = imap (end_time duration total_samples o (all_words r)) (all_words r)
    /\ Forall (well_formed_batch n_text_ctx) bs
  | Raise e r' => e = IndexError /\ r' = r /\ all_words r = []
  | OutOfFuel _ => False
  end.
Proof.
  unfold curr_segments. cbn zeta.
  set (ws := all_words r).
  set (sts := imap (start_time duration o ws) ws).
  set (ets := imap (end_time duration total_samples o ws) ws).
  assert (Hls : length sts = length ws) by (subst sts; apply length_imap).
  assert (Hle : length ets = length ws) by (subst ets; apply length_imap).
  destruct sts as [|s0 sts'] eqn:Hsts.
  - split; [reflexivity|]. split; [reflexivity|].
    destruct ws; [reflexivity|discriminate].
  - destruct ets as [|e0 ets'] eqn:Hets; [simpl in *; lia|].
    assert (Hz : length (zip (s0 :: sts') (e0 :: ets')) = length ws).
    { rewrite length_zip_with. simpl in *. lia. }
    destruct (curr_segments_loop_spec (seg_edge_mask r) (length ws)
                (zip (s0 :: sts') (e0 :: ets')) 1 s0 0 [] [])
      as (H1 & H2 & H3 & H4);
      [discriminate | reflexivity | reflexivity | rewrite Hz; lia | simpl; lia
      | reflexivity | constructor | ].
    cbn zeta in H1, H2, H3, H4.
    set (bs := curr_segments_loop _ _ _ _ _ _ _ _ _) in *.
    split; [destruct ws; [discriminate|discriminate]|].
    rewrite Hz in H1. cbn [length Nat.add app] in H1, H2, H3.
    split; [exact H1|].
    rewrite H2, H3.
    split; [|split; [|exact H4]].
    + f_equal. rewrite fst_zip; [reflexivity|]. simpl in *. lia.
    + f_equal. rewrite snd_zip; [reflexivity|]. simpl in *. lia.
Qed.

End Batches.

End BatchProofs.

(** ** locate: the search of mode 2 *)

Module SearchProofs.
Import Locate.

Lemma round_half_even_nonneg (x : Q) : (0 <= x)%Q -> 0 <= round_half_even x.
Proof.
  intros Hx. unfold round_half_even.
  assert (Hf : 0 <= Qfloor x).
  { change 0 with (Qfloor 0). apply Qfloor_resp_le. exact Hx. }
  cbn zeta. destruct (Qcompare _ _); [destruct (Z.even _)| |]; lia.
Qed.

Lemma same_estimate_refl (q : Q) : same_estimate (Some q) q = true.
Proof. simpl. apply Qeq_bool_iff. reflexivity. Qed.

(** The work left for the search of mode 2: twice the samples ahead,
    plus one probe if the next estimate repeats the last and two
    otherwise. *)
Lemma locate_mode2_fuel (estimate : Z -> Q) (count total_samples : Z) :
  (forall s, 0 <= estimate s)%Q ->
  forall (fuel : nat) (c : cursor) (matches : list Q),
    (searching count total_samples c = true ->
     2 * (total_samples - seek_sample c)
     + (if same_estimate (prev_target_end c) (estimate (seek_sample c)) then 1 else 2)
     <= Z.of_nat fuel) ->
    exists out, locate_mode2 estimate count total_samples fuel c matches = Ok out.
Proof.
  intros Hpos. induction fuel as [|fuel IH]; intros c ms Hfuel; simpl.
  - destruct (searching count total_samples c) eqn:Hs; [|eauto].
    specialize (Hfuel eq_refl). unfold searching in Hs.
    apply andb_true_iff in Hs. destruct Hs as [Hs _]. apply Z.ltb_lt in Hs.
    destruct (same_estimate _ _); lia.
  - destruct (searching count total_samples c) eqn:Hs; [|eauto].
    specialize (Hfuel eq_refl).
    assert (Hlt : seek_sample c < total_samples).
    { unfold searching in Hs. apply andb_true_iff in Hs. destruct Hs as [Hs _].
      apply Z.ltb_lt in Hs. exact Hs. }
    unfold probe_mode2. cbn zeta.
    set (te := estimate (seek_sample c)) in *.
    destruct (_ || same_estimate (prev_target_end c) te) eqn:Hjump.
    + apply IH. unfold searching. cbn [seek_sample]. rewrite Z.ltb_irrefl.
      simpl. discriminate.
    + apply orb_false_iff in Hjump. destruct Hjump as [_ Hsame].
      rewrite Hsame in Hfuel.
      apply IH. intros _. cbn [seek_sample prev_target_end].
      pose proof (round_half_even_nonneg (te * inject_Z SAMPLE_RATE)) as Hd.
      assert (Hte : (0 <= te * inject_Z SAMPLE_RATE)%Q).
      { apply Qmult_le_0_compat; [apply Hpos | discriminate]. }
      specialize (Hd Hte).
      destruct (Z.eq_dec (round_half_even (te * inject_Z SAMPLE_RATE)) 0) as [H0|H0].
      * rewrite H0, Z.add_0_r. fold te. rewrite same_estimate_refl. lia.
      * set (d := round_half_even (te * inject_Z SAMPLE_RATE)) in *. clearbody d.
        destruct (same_estimate (Some te) _); lia.
Qed.

(** The search of mode 2 comes to an end whatever the model answers, as
    long as its estimates are not negative (they are a position in the
    chunk): within two probes for every sample between the cursor and
    the end of the audio, and two more, it returns its matches. *)
Theorem locate_mode2_returns (estimate : Z -> Q) (count total_samples : Z)
    (fuel : nat) (c : cursor) (matches : list Q) :
  (forall s, 0 <= estimate s)%Q ->
  2 * (total_samples - seek_sample c) + 2 <= Z.of_nat fuel ->
  exists out, locate_mode2 estimate count total_samples fuel c matches = Ok out.
Proof.
  intros Hpos Hfuel. apply locate_mode2_fuel; [exact Hpos|].
  intros _. destruct (same_estimate _ _); lia.
Qed.

(** With a count given, the search of mode 2 adds to the matches it
    starts with, in order, and adds no more than the count leaves:
    [count - found] matches, and none when that is negative. *)
Theorem locate_mode2_count_cap (estimate : Z -> Q) (count total_samples : Z) :
  count <> 0 ->
  forall (fuel : nat) (c : cursor) (matches out : list Q),
    locate_mode2 estimate count total_samples fuel c matches = Ok out ->
    exists new, out = matches ++ new
      /\ Z.of_nat (length new) <= Z.max 0 (count - found c).
Proof.
  intros Hc. induction fuel as [|fuel IH]; intros c ms out; simpl.
  - destruct (searching count total_samples c); [discriminate|].
    intros [= <-]. exists []. rewrite app_nil_r. split; [reflexivity|simpl; lia].
  - destruct (searching count total_samples c) eqn:Hs.
    + unfold searching in Hs. apply andb_true_iff in Hs. destruct Hs as [_ Hs].
      apply orb_true_iff in Hs. destruct Hs as [Hs|Hs]; [apply Z.eqb_eq in Hs; contradiction|].
      apply Z.ltb_lt in Hs.
      unfold probe_mode2. cbn zeta. intros Hrun.
      apply IH in Hrun. destruct Hrun as (new & -> & Hlen).
      cbn [found] in Hlen.
      eexists. rewrite <- app_assoc. split; [reflexivity|].
      simpl. lia.
    + intros [= <-]. exists []. rewrite app_nil_r. split; [reflexivity|simpl; lia].
Qed.

Lemma locate_mode2_returns_witness :
  (exists out,
     locate_mode2 (fun s => if s =? 0 then 10%Q else 0%Q) 0 1000000
       (Z.to_nat 2000002) (mkCursor 0 0 None) [] = Ok out)
  /\ locate_mode2 (fun s => if s =? 0 then 10%Q else 0%Q) 0 1000000 3
       (mkCursor 0 0 None) []
     = Ok [(10000 # 1000)%Q; (10000 # 1000)%Q; (10000 # 1000)%Q].
Proof.
  split; [|vm_compute; reflexivity].
  apply (locate_mode2_returns (fun s => if s =? 0 then 10%Q else 0%Q) 0 1000000
           (Z.to_nat 2000002) (mkCursor 0 0 None) []).
  - intros s. destruct (s =? 0); discriminate.
  - cbn [seek_sample]. lia.
Defined.

Lemma locate_mode2_count_cap_witness :
  exists new, [(5000 # 1000)%Q; (10000 # 1000)%Q] = [] ++ new
    /\ Z.of_nat (length new) <= Z.max 0 (2 - 0).
Proof.
  apply (locate_mode2_count_cap (fun _ => 5%Q) 2 4800000 ltac:(discriminate) 3
           (mkCursor 0 0 None) [] [(5000 # 1000)%Q; (10000 # 1000)%Q]).
  vm_compute. reflexivity.
Defined.

End SearchProofs.

(** ** locate: the confirmation decode *)

Module ConfirmProofs.
Import Locate.

Section Confirm.
Variable decoder : list Z -> logits.
Variable tokenizer_decode : list Z -> string.
Variable lower : string -> string.
Variable eot : Z.
Variable text : string.
Variable text_tokens : list Z.
Variable probability_threshold : Q.
Variable eots : Z.
Variable max_token_per_seg : Z.
Variable exact_token : bool.
Variable case_sensitive : bool.

Abbreviation step :=
  (decode_step decoder tokenizer_decode lower eot text text_tokens probability_threshold
     eots max_token_per_seg exact_token case_sensitive).
Abbreviation loop :=
  (decode_loop decoder tokenizer_decode lower eot text text_tokens probability_threshold
     eots max_token_per_seg exact_token case_sensitive).

(** What a step that returns does: it adds one prediction and either
    leaves the match as it is (resetting the target position unless the
    target is found), or takes the next target token, or finds the
    text. *)
Lemma decode_step_cases (s s' : decoding) :
  step s = Ok s' ->
  (exists tk p, predictions s' = predictions s ++ [(tk, p)]
    /\ ((found_target s' = found_target s /\ n_found s' = n_found s
         /\ target_token_idx s'
            = (if found_target s then target_token_idx s else 0%nat))
        \/ (found_target s = false
            /\ text_tokens !! target_token_idx s = Some tk
            /\ target_token_idx s' = S (target_token_idx s)
            /\ found_target s' = (S (target_token_idx s) =? length text_tokens)%nat
            /\ n_found s' = (if found_target s' then n_found s + 1 else n_found s))
        \/ (found_target s = false /\ exact_token = false
            /\ found_target s' = true /\ n_found s' = n_found s + 1)))
  /\ (not_end s' = true -> Z.of_nat (length (predictions s')) <= max_token_per_seg).
Proof.
  unfold decode_step. cbn zeta.
  set (lg := decoder (cache s ++ temp_tokens s)).
  cbn [found_target predictions target_token_idx not_end curr_eots tokens_to_decode
       replace_found_tokens infer_tokens temp_tokens cache n_found].
  assert (Hfin : forall s0 tk p,
            not_end (finish_step max_token_per_seg s0 tk p) = true ->
            Z.of_nat (length (predictions (finish_step max_token_per_seg s0 tk p)))
            <= max_token_per_seg).
  { intros s0 tk p. unfold finish_step. cbn [not_end predictions].
    destruct (Z.gtb_spec (Z.of_nat (length (predictions s0 ++ [(tk, p)]))) max_token_per_seg);
      [discriminate | intros _; lia]. }
  assert (Hrej : forall s0 tk,
            predictions s0 = predictions s -> found_target s0 = found_target s ->
            n_found s0 = n_found s -> target_token_idx s0 = target_token_idx s ->
            reject_step eot eots max_token_per_seg s0 lg tk = Ok s' ->
            (exists tk p, predictions s' = predictions s ++ [(tk, p)]
              /\ ((found_target s' = found_target s /\ n_found s' = n_found s
                   /\ target_token_idx s'
                      = (if found_target s then target_token_idx s else 0%nat))
                  \/ (found_target s = false
                      /\ text_tokens !! target_token_idx s = Some tk
                      /\ target_token_idx s' = S (target_token_idx s)
                      /\ found_target s'
                         = (S (target_token_idx s) =? length text_tokens)%nat
                      /\ n_found s'
                         = (if found_target s' then n_found s + 1 else n_found s))
                  \/ (found_target s = false /\ exact_token = false
                      /\ found_target s' = true /\ n_found s' = n_found s + 1)))
            /\ (not_end s' = true
                -> Z.of_nat (length (predictions s')) <= max_token_per_seg)).
  { intros s0 tk Hp Hf Hn Hi. unfold reject_step.
    destruct (_ && negb (cat_fits _ _)); [discriminate|].
    intros [= <-]. split; [|apply Hfin].
    unfold finish_step.
    cbn [found_target predictions target_token_idx not_end curr_eots tokens_to_decode
         replace_found_tokens infer_tokens temp_tokens cache n_found].
    rewrite Hp, Hf, Hn, Hi. eexists _, _. split; [reflexivity|]. left. auto. }
  destruct (found_target s) eqn:Hft.
  { intros Hstep. refine (Hrej _ _ _ _ _ _ Hstep); auto. }
  destruct (text_tokens !! target_token_idx s) as [target|] eqn:Htk; [|discriminate].
  cbn [found_target predictions target_token_idx not_end curr_eots tokens_to_decode
       replace_found_tokens infer_tokens temp_tokens cache n_found].
  destruct (softmax_at _ _ _) as [target_word_prob|]; [|discriminate].
  destruct (accepts _ _ _ _ _).
  2:{ intros Hstep. refine (Hrej _ _ _ _ _ _ Hstep); auto. }
  destruct exact_token eqn:Hex.
  - intros [= <-]. split; [|apply Hfin].
    unfold finish_step.
    cbn [found_target predictions target_token_idx not_end curr_eots tokens_to_decode
         replace_found_tokens infer_tokens temp_tokens cache n_found].
    eexists _, _. split; [reflexivity|]. right. left. auto 10.
  - destruct (endswith _ _).
    + intros [= <-]. split; [|apply Hfin].
      unfold finish_step.
      cbn [found_target predictions target_token_idx not_end curr_eots tokens_to_decode
           replace_found_tokens infer_tokens temp_tokens cache n_found].
      eexists _, _. split; [reflexivity|]. right. right. auto.
    + intros [= <-]. split; [|apply Hfin].
      unfold finish_step.
      cbn [found_target predictions target_token_idx not_end curr_eots tokens_to_decode
           replace_found_tokens infer_tokens temp_tokens cache n_found].
      eexists _, _. split; [reflexivity|]. right. left. auto 10.
Qed.

(** A step raises [IndexError] only while the target is not found, when
    the target position is past the target tokens or the target token is
    outside the vocabulary; otherwise it raises nothing but the
    [RuntimeError] of the rewind. *)
Lemma decode_step_raises (s s0 : decoding) (e : exn) :
  step s = Raise e s0 ->
  (e = IndexError /\ found_target s = false
   /\ (text_tokens !! target_token_idx s = None
       \/ exists t, text_tokens !! target_token_idx s = Some t /\ ~ in_vocabulary eot t))
  \/ e = RuntimeError.
Proof.
  unfold decode_step. cbn zeta.
  cbn [found_target predictions target_token_idx not_end curr_eots tokens_to_decode
       replace_found_tokens infer_tokens temp_tokens cache n_found].
  assert (Hrej : forall s1 lg tk,
            reject_step eot eots max_token_per_seg s1 lg tk = Raise e s0 ->
            e = RuntimeError).
  { intros s1 lg tk. unfold reject_step.
    destruct (_ && negb (cat_fits _ _)); [|discriminate]. intros [= <- _]. reflexivity. }
  destruct (found_target s) eqn:Hft.
  { intros H. right. exact (Hrej _ _ _ H). }
  destruct (text_tokens !! target_token_idx s) as [target|] eqn:Htk.
  - cbn [found_target predictions target_token_idx not_end curr_eots tokens_to_decode
         replace_found_tokens infer_tokens temp_tokens cache n_found].
    destruct (softmax_at _ _ target) as [target_word_prob|] eqn:Hsm.
    + destruct (accepts _ _ _ _ _).
      * destruct (if exact_token then false else _); discriminate.
      * intros H. right. exact (Hrej _ _ _ H).
    + intros [= <- _]. left. split; [reflexivity|]. split; [reflexivity|].
      right. exists target. split; [reflexivity|].
      unfold softmax_at in Hsm. unfold in_vocabulary. intros Hv.
      destruct (Z.leb_spec 0 target); destruct (Z.ltb_spec target eot);
        destruct (Z.leb_spec (- eot) target); destruct (Z.ltb_spec target 0);
        simpl in Hsm; try discriminate; lia.
  - intros [= <- _]. left. auto.
Qed.

Lemma step_inv (s s' : decoding) :
  text_tokens <> [] ->
  (found_target s = false -> (target_token_idx s < length text_tokens)%nat) ->
  step s = Ok s' ->
  (found_target s' = false -> (target_token_idx s' < length text_tokens)%nat).
Proof.
  intros Hne Hinv Hstep.
  destruct (decode_step_cases s s' Hstep) as [(tk & p & _ & Hc) _].
  destruct Hc as [(Hf & _ & Hi) | [(Hf & Htk & Hi & Hf' & _) | (_ & _ & Hf' & _)]].
  - intros Hf0. rewrite Hi. rewrite Hf in Hf0. rewrite Hf0.
    destruct text_tokens; [contradiction | simpl; lia].
  - intros Hf0. rewrite Hi. rewrite Hf0 in Hf'. symmetry in Hf'.
    apply Nat.eqb_neq in Hf'. apply lookup_lt_Some in Htk. lia.
  - congruence.
Qed.

Lemma loop_outcome (fuel : nat) :
  text_tokens <> [] ->
  forall s : decoding,
    (found_target s = false -> (target_token_idx s < length text_tokens)%nat) ->
    (not_end s = true -> Z.of_nat (length (predictions s)) <= Z.max 0 max_token_per_seg) ->
    Z.max 0 max_token_per_seg + 1 <= Z.of_nat fuel + Z.of_nat (length (predictions s)) ->
    match loop fuel s with
    | Ok s' =>
      not_end s' = false
      /\ (not_end s = true ->
          (length (predictions s) < length (predictions s'))%nat
          /\ Z.of_nat (length (predictions s')) <= Z.max 0 max_token_per_seg + 1)
    | Raise e _ =>
      (e = IndexError /\ Exists (fun t => ~ in_vocabulary eot t) text_tokens)
      \/ e = RuntimeError
    | OutOfFuel _ => False
    end.
Proof.
  intros Hne. induction fuel as [|fuel IH]; intros s Hidx Hcap Hfuel; simpl.
  - destruct (not_end s) eqn:Hn; [specialize (Hcap eq_refl); lia|].
    split; [exact Hn | discriminate].
  - destruct (not_end s) eqn:Hn; [|split; [exact Hn | discriminate]].
    specialize (Hcap eq_refl).
    destruct (step s) as [s1|e s1|s1] eqn:Hstep; simpl.
    + pose proof (step_inv s s1 Hne Hidx Hstep) as Hidx1.
      destruct (decode_step_cases s s1 Hstep) as [(tk & p & Hp & _) Hcap1].
      assert (Hlen : length (predictions s1) = S (length (predictions s))).
      { rewrite Hp, length_app. simpl. lia. }
      specialize (IH s1 Hidx1).
      assert (Hc : not_end s1 = true ->
                   Z.of_nat (length (predictions s1)) <= Z.max 0 max_token_per_seg).
      { intros H. specialize (Hcap1 H). lia. }
      specialize (IH Hc ltac:(lia)).
      destruct (loop fuel s1) as [s2|e2 s2|s2] eqn:Hl; try exact IH.
      destruct IH as [Hend Hgrow]. split; [exact Hend|]. intros _.
      destruct (not_end s1) eqn:Hn1.
      * destruct (Hgrow eq_refl) as [H1 H2]. split; [lia | exact H2].
      * destruct fuel; simpl in Hl; rewrite Hn1 in Hl; injection Hl as <-;
          (split; [lia|lia]).
    + destruct (decode_step_raises s s1 e Hstep)
        as [(He & Hf & [Hnone | (t & Ht & Hv)])|H]; [| |right; exact H].
      * exfalso. specialize (Hidx Hf). apply lookup_ge_None in Hnone. lia.
      * left. split; [exact He|]. apply Exists_exists. exists t.
        split; [|exact Hv]. apply list_elem_of_lookup. eauto.
    + exfalso. unfold decode_step in Hstep.
      destruct (found_target _);
        [unfold reject_step in Hstep; destruct (_ && negb _) in Hstep; discriminate|].
      destruct (text_tokens !! _); [|discriminate].
      destruct (softmax_at _ _ _); [|discriminate].
      destruct (accepts _ _ _ _ _);
        [destruct (if exact_token then false else _) in Hstep; discriminate|].
      unfold reject_step in Hstep; destruct (_ && negb _) in Hstep; discriminate.
Qed.

(** The confirmation decode of a window comes to an end within
    [max_token_per_seg + 1] decoder calls (one call when the limit is
    negative).  It raises [IndexError] only when there is no target token
    or a target token lies outside the vocabulary, and without target
    tokens it does so at the first call.  Otherwise it returns with the
    loop ended and with between one and [max_token_per_seg + 1]
    predictions, or the rewind raises [RuntimeError]. *)
Theorem confirm_decode_outcome (fuel : nat) (initial_tokens : list Z) (found0 : Z) :
  Z.max 0 max_token_per_seg + 1 <= Z.of_nat fuel ->
  match loop fuel (decoding_init initial_tokens found0) with
  | Ok s' =>
    text_tokens <> [] /\ not_end s' = false
    /\ (1 <= length (predictions s'))%nat
    /\ Z.of_nat (length (predictions s')) <= Z.max 0 max_token_per_seg + 1
  | Raise e _ =>
    (e = IndexError
     /\ (text_tokens = [] \/ Exists (fun t => ~ in_vocabulary eot t) text_tokens))
    \/ (e = RuntimeError /\ text_tokens <> [])
  | OutOfFuel _ => False
  end.
Proof.
  intros Hfuel.
  assert (Hcase : text_tokens = [] \/ text_tokens <> []).
  { destruct text_tokens; [left; reflexivity | right; discriminate]. }
  destruct Hcase as [Hnil|Hne].
  - destruct fuel as [|fuel]; [simpl in Hfuel; lia|].
    simpl. unfold decode_step. simpl. rewrite Hnil. simpl. left. auto.
  - pose proof (loop_outcome fuel Hne (decoding_init initial_tokens found0)) as H.
    assert (H1 : found_target (decoding_init initial_tokens found0) = false ->
                 (target_token_idx (decoding_init initial_tokens found0)
                  < length text_tokens)%nat).
    { intros _. simpl. destruct text_tokens; [contradiction | simpl; lia]. }
    assert (H2 : not_end (decoding_init initial_tokens found0) = true ->
                 Z.of_nat (length (predictions (decoding_init initial_tokens found0)))
                 <= Z.max 0 max_token_per_seg) by (intros _; simpl; lia).
    specialize (H H1 H2 ltac:(simpl; lia)).
    destruct (loop fuel _) as [s'|e s'|s']; [| |exact H].
    + destruct H as [Hend Hgrow]. destruct (Hgrow eq_refl) as [Hg1 Hg2].
      split; [exact Hne|]. split; [exact Hend|]. simpl in Hg1. split; [lia|exact Hg2].
    + destruct H as [[He Hex]|He]; [left; auto | right; auto].
Qed.

Lemma loop_n_found (found0 : Z) (fuel : nat) :
  forall s s' : decoding,
    n_found s = found0 + (if found_target s then 1 else 0) ->
    loop fuel s = Ok s' ->
    n_found s' = found0 + (if found_target s' then 1 else 0).
Proof.
  induction fuel as [|fuel IH]; intros s s' Hinv; simpl.
  - destruct (not_end s); [discriminate | intros [= <-]; exact Hinv].
  - destruct (not_end s); [|intros [= <-]; exact Hinv].
    destruct (step s) as [s1|e s1|s1] eqn:Hstep; simpl; try discriminate.
    apply IH.
    destruct (decode_step_cases s s1 Hstep) as [(tk & p & _ & Hc) _].
    destruct Hc as [(Hf & Hn & _) | [(Hf & _ & _ & _ & Hn) | (Hf & _ & Hf' & Hn)]].
    + rewrite Hf, Hn. exact Hinv.
    + rewrite Hn, Hinv, Hf. destruct (found_target s1); lia.
    + rewrite Hn, Hinv, Hf, Hf'. lia.
Qed.

(** The confirmation decode of a window counts a find at most once: when
    it returns, [found] is one more than before if the target was found
    in the window and the same if not, however many predictions follow
    the find. *)
Theorem confirm_counts_found_once (fuel : nat) (initial_tokens : list Z)
    (found0 : Z) (s' : decoding) :
  loop fuel (decoding_init initial_tokens found0) = Ok s' ->
  n_found s' = found0 + (if found_target s' then 1 else 0).
Proof.
  apply loop_n_found. simpl. lia.
Qed.

Lemma loop_exact (fuel : nat) :
  exact_token = true ->
  forall s s' : decoding,
    (if found_target s
     then exists pre post, final_tokens s = pre ++ text_tokens ++ post
     else exists pre, final_tokens s = pre ++ take (target_token_idx s) text_tokens) ->
    loop fuel s = Ok s' ->
    (if found_target s'
     then exists pre post, final_tokens s' = pre ++ text_tokens ++ post
     else exists pre, final_tokens s' = pre ++ take (target_token_idx s') text_tokens).
Proof.
  intros Hex. induction fuel as [|fuel IH]; intros s s' Hinv; simpl.
  - destruct (not_end s); [discriminate | intros [= <-]; exact Hinv].
  - destruct (not_end s); [|intros [= <-]; exact Hinv].
    destruct (step s) as [s1|e s1|s1] eqn:Hstep; simpl; try discriminate.
    apply IH.
    destruct (decode_step_cases s s1 Hstep) as [(tk & p & Hp & Hc) _].
    assert (Hft : final_tokens s1 = final_tokens s ++ [tk]).
    { unfold final_tokens. rewrite Hp, map_app. reflexivity. }
    destruct Hc as [(Hf & _ & Hi) | [(Hf & Htk & Hi & Hf' & _) | (_ & Hne & _)]].
    + rewrite Hf, Hi, Hft. destruct (found_target s).
      * destruct Hinv as (pre & post & ->). exists pre, (post ++ [tk]).
        rewrite <- !app_assoc. reflexivity.
      * exists (final_tokens s ++ [tk]). simpl. rewrite app_nil_r. reflexivity.
    + rewrite Hf in Hinv. destruct Hinv as (pre & Hpre).
      assert (Htake : final_tokens s1 = pre ++ take (S (target_token_idx s)) text_tokens).
      { rewrite Hft, Hpre, <- app_assoc. f_equal. symmetry.
        apply take_S_r. exact Htk. }
      rewrite Hf', Hi. destruct (Nat.eqb_spec (S (target_token_idx s)) (length text_tokens))
        as [Hlen|Hlen].
      * exists pre, []. rewrite app_nil_r, Htake, Hlen, firstn_all. reflexivity.
      * exists pre. exact Htake.
    + congruence.
Qed.

(** In exact-token mode a window is confirmed only by the target tokens
    themselves: when the decode returns with the target found, the
    tokens of its predictions contain the target tokens, in order and
    without a gap. *)
Theorem exact_match_contains_text_tokens (fuel : nat) (initial_tokens : list Z)
    (found0 : Z) (s' : decoding) :
  exact_token = true ->
  loop fuel (decoding_init initial_tokens found0) = Ok s' ->
  found_target s' = true ->
  exists pre post, final_tokens s' = pre ++ text_tokens ++ post.
Proof.
  intros Hex Hrun Hfound.
  pose proof (loop_exact fuel Hex (decoding_init initial_tokens found0) s') as H.
  rewrite Hfound in H. apply H; [|exact Hrun].
  simpl. exists []. reflexivity.
Qed.

End Confirm.

Lemma confirm_decode_outcome_witness :
  match decode_loop echo_decoder no_text (fun s => s) 100 EmptyString [7] (1 # 2) 1 20
          true false 21 (decoding_init [50] 0) with
  | Ok s' =>
    [7] <> [] /\ not_end s' = false
    /\ (1 <= length (predictions s'))%nat
    /\ Z.of_nat (length (predictions s')) <= Z.max 0 20 + 1
  | Raise e _ =>
    (e = IndexError /\ ([7] = [] \/ Exists (fun t => ~ in_vocabulary 100 t) [7]))
    \/ (e = RuntimeError /\ [7] <> [])
  | OutOfFuel _ => False
  end.
Proof.
  apply (confirm_decode_outcome echo_decoder no_text (fun s => s) 100 EmptyString [7]
           (1 # 2) 1 20 true false 21 [50] 0).
  vm_compute. discriminate.
Defined.

Lemma confirm_counts_found_once_witness :
  exists s', decode_loop echo_decoder no_text (fun s => s) 100 EmptyString [7] (1 # 2) 1 20
               true false 21 (decoding_init [50] 0) = Ok s'
    /\ n_found s' = 0 + (if found_target s' then 1 else 0).
Proof.
  destruct (decode_loop echo_decoder no_text (fun s => s) 100 EmptyString [7] (1 # 2) 1 20
              true false 21 (decoding_init [50] 0)) as [s'| |] eqn:Hrun.
  - exists s'. split; [reflexivity|].
    exact (confirm_counts_found_once echo_decoder no_text (fun s => s) 100 EmptyString [7]
             (1 # 2) 1 20 true false 21 [50] 0 s' Hrun).
  - vm_compute in Hrun. discriminate.
  - vm_compute in Hrun. discriminate.
Defined.

Lemma exact_match_contains_text_tokens_witness :
  exists s', decode_loop echo_decoder no_text (fun s => s) 100 EmptyString [7] (1 # 2) 1 20
               true false 21 (decoding_init [50] 0) = Ok s'
    /\ exists pre post, final_tokens s' = pre ++ [7] ++ post.
Proof.
  destruct (decode_loop echo_decoder no_text (fun s => s) 100 EmptyString [7] (1 # 2) 1 20
              true false 21 (decoding_init [50] 0)) as [s'| |] eqn:Hrun.
  - exists s'. split; [reflexivity|].
    apply (exact_match_contains_text_tokens echo_decoder no_text (fun s => s) 100
             EmptyString [7] (1 # 2) 1 20 true false 21 [50] 0 s' eq_refl Hrun).
    vm_compute in Hrun. injection Hrun as <-. reflexivity.
  - vm_compute in Hrun. discriminate.
  - vm_compute in Hrun. discriminate.
Defined.

End ConfirmProofs.

(** ** refine: where a timestamp may move *)

Module RefineRangeProofs.
Import Refine.
Import RefineFrame.

Section Range.
Variable duration : Word -> Q.
Variable get_prob : batch -> list Word -> bool -> list nat -> mel -> nat -> Q * Z.
Variable o : options.

Lemma rewritten_refl (e_ts : bool) (t0 : Q) (fw : nat) (P : nat -> Z -> Prop)
    (r : WhisperResult) :
  rewritten e_ts t0 fw P r r.
Proof. intros t w Hw. exists w. auto. Qed.

Lemma rewritten_trans (e_ts : bool) (t0 : Q) (fw : nat) (P : nat -> Z -> Prop)
    (r1 r2 r3 : WhisperResult) :
  rewritten e_ts t0 fw P r1 r2 -> rewritten e_ts t0 fw P r2 r3 ->
  rewritten e_ts t0 fw P r1 r3.
Proof.
  intros H12 H23 t w Hw.
  destruct (H12 t w Hw) as (w2 & Hw2 & Hc2).
  destruct (H23 t w2 Hw2) as (w3 & Hw3 & Hc3).
  exists w3. split; [exact Hw3|].
  destruct Hc3 as [-> | (idx & f & Ht & HP & ->)]; [exact Hc2|].
  right. exists idx, f. split; [exact Ht|]. split; [exact HP|].
  destruct Hc2 as [-> | (idx2 & f2 & _ & _ & ->)]; [reflexivity|].
  destruct e_ts; reflexivity.
Qed.

Section Batch.
Variable c : context.
Variable P : nat -> Z -> Prop.

Abbreviation rel := (rewritten (is_end_ts c) (time_offset c) (first_word c) P).

Lemma update_ts_rewritten (idx : nat) (e : interval) (r : WhisperResult) :
  in_search (is_end_ts c) (P idx) e ->
  rel r (update_ts o (is_end_ts c) (time_offset c) (first_word c + idx) e r).
Proof.
  intros [_ Hlast]. unfold update_ts, last_change in *.
  destruct (changes e) as [[c0 c1] cl]. simpl in Hlast.
  destruct (negb (is_finish e) || (cl =? -1)) eqn:Hg; [apply rewritten_refl|].
  apply orb_false_iff in Hg. destruct Hg as [_ Hg]. apply Z.eqb_neq in Hg.
  destruct Hlast as [Hlast|Hlast]; [contradiction|].
  destruct (all_words r !! (first_word c + idx)%nat) as [w0|] eqn:Hw0;
    [|apply rewritten_refl].
  destruct (negb (c0 =? 0) && (c1 =? 0) && _); [apply rewritten_refl|].
  destruct (negb (truthy (verbose o))); [apply rewritten_refl|].
  assert (Hgoal : rel r (mkResult (update_word (segments r) (first_word c + idx)
                    ((if is_end_ts c then set_end else set_start)
                       (frame_time (time_offset c) cl))))).
  { destruct r as [segs]. intros t w Hw. cbn [segments].
    rewrite RefineProofs.all_words_update_word.
    destruct (Nat.eq_dec t (first_word c + idx)%nat) as [->|Hne].
    - rewrite list_lookup_alter_eq, Hw. simpl. eexists. split; [reflexivity|].
      right. exists idx, cl. auto.
    - rewrite list_lookup_alter_ne by auto. exists w. auto. }
  destruct (is_end_ts c); exact Hgoal.
Qed.

Lemma refine_idx_range (idx : nat) (prob : Q) (pos : Z)
    (e : interval) (m : mel) (r : WhisperResult) :
  in_search (is_end_ts c) (P idx) e ->
  rel r (store_of snd (refine_idx o c idx prob pos e m r))
  /\ forall e' m' r', refine_idx o c idx prob pos e m r = Ok (e', m', r') ->
       in_search (is_end_ts c) (P idx) e'.
Proof.
  intros Hin.
  pose proof (RefineProofs.frame_precision_ge_2 o) as Hfp.
  pose proof (update_ts_rewritten idx) as Hupd.
  unfold refine_idx.
  destruct e as [[[smn smx] smd] [[emn emx] emd] fin [[c0 c1] cl] op pp otp].
  cbn [is_finish set_prev_probs starts ends changes orig_probs prev_probs orig_tk_poss].
  destruct fin.
  { split; [apply rewritten_refl|]. intros e' m' r' [= <- <- <-].
    destruct Hin as [_ Hl]. split; [discriminate | exact Hl]. }
  destruct Hin as [Hin Hl]. specialize (Hin eq_refl). destruct Hin as [Hc Hr].
  unfold in_search, last_change, centred, bounds, min_of, max_of, mid_of in *.
  destruct (is_end_ts c);
    cbn [is_finish set_prev_probs starts ends changes orig_probs prev_probs
         orig_tk_poss fst snd] in *;
    (destruct (prob_indices c !! idx) as [row|];
       [|split; [apply rewritten_refl | intros; discriminate]]);
    destruct (failed_requirements _ _ _ _ _ _);
    cbn [is_finish set_changes set_finish starts ends changes orig_probs prev_probs
         orig_tk_poss fst snd];
    match goal with |- context [half_round ?w <? _] =>
      pose proof (half_round_bounds w) as Hb2;
      destruct (Z.ltb_spec (half_round w) (frame_precision o)) as [Hlt|Hge] end.
  all: match type of Hc with _ = _ + half_round ?w0 =>
         pose proof (half_round_bounds w0) as Hb1 end.
  all: try (split;
            [ cbn [store_of snd]; apply Hupd; split; [discriminate | exact Hl]
            | intros e' m' r' [= <- <- <-]; split; [discriminate | exact Hl] ]).
  all: destruct (_ >? _);
    (split; [apply rewritten_refl|]);
    intros e' m' r' [= <- <- <-];
    cbn [is_finish set_bounds set_changes set_orig_probs starts ends changes
         orig_probs prev_probs orig_tk_poss fst snd];
    (split; [intros _; split; [reflexivity | intros f Hf; apply Hr; lia]|]);
    try exact Hl; right; apply Hr; lia.
Qed.

Lemma refine_for_range (probs : nat -> Q * Z) :
  forall (es : list interval) (i : nat) (m : mel) (r : WhisperResult),
    (forall j e, es !! j = Some e -> in_search (is_end_ts c) (P (i + j)) e) ->
    rel r (store_of snd (refine_for o c probs i es m r))
    /\ forall es' m' r', refine_for o c probs i es m r = Ok (es', m', r') ->
         forall j e', es' !! j = Some e' -> in_search (is_end_ts c) (P (i + j)) e'.
Proof.
  induction es as [|e es IH]; intros i m r Hin; simpl.
  - split; [apply rewritten_refl|]. intros es' m' r' [= <- <- <-] j e' H; discriminate.
  - assert (Hin0 : in_search (is_end_ts c) (P i) e).
    { specialize (Hin 0%nat e eq_refl). rewrite Nat.add_0_r in Hin. exact Hin. }
    destruct (refine_idx_range i (fst (probs i)) (snd (probs i)) e m r Hin0) as [H1 H1'].
    destruct (refine_idx o c i (fst (probs i)) (snd (probs i)) e m r)
      as [[[e1 m1] r1]| |] eqn:Hidx; simpl in *;
      [|split; [exact H1|intros; discriminate]..].
    destruct (IH (S i) m1 r1) as [H2 H3].
    { intros j e0 He0. specialize (Hin (S j) e0 He0).
      replace (S i + j)%nat with (i + S j)%nat by lia. exact Hin. }
    destruct (refine_for o c probs (S i) es m1 r1) as [[[es1 m2] r2]| |] eqn:Hfor;
      simpl in *.
    + split; [eapply rewritten_trans; eauto|].
      intros es' m' r' [= <- <- <-] [|j] e' He'; simpl in He'.
      * injection He' as <-. rewrite Nat.add_0_r. eapply H1'. reflexivity.
      * specialize (H3 _ _ _ eq_refl j e' He').
        replace (i + S j)%nat with (S i + j)%nat by lia. exact H3.
    + split; [eapply rewritten_trans; eauto|intros; discriminate].
    + split; [eapply rewritten_trans; eauto|intros; discriminate].
Qed.

Lemma refine_while_range (b : batch) :
  forall (fuel : nat) (st : state),
    (forall j e, fst (fst st) !! j = Some e -> in_search (is_end_ts c) (P j) e) ->
    rel (snd st) (store_of snd (refine_while get_prob o fuel b c st)).
Proof.
  induction fuel as [|fuel IH]; intros [[es m] r] Hin; simpl in *;
    destruct (forallb is_finish es); try apply rewritten_refl.
  destruct (refine_for_range
    (get_prob b (batch_words r b) (is_end_ts c) (prob_indices c)
       (curr_mel_segment (prob_indices c) m)) es 0%nat m r Hin) as [H1 H2].
  destruct (refine_for _ _ _ _ _ _ _) as [[[es1 m1] r1]| |]; simpl in *; try exact H1.
  eapply rewritten_trans; [exact H1|].
  apply (IH (es1, m1, r1)). simpl. intros j e He.
  apply (H2 _ _ _ eq_refl j e He).
Qed.

End Batch.

(** The intervals a batch starts from lie in the search frames of their
    words. *)
Lemma refine_init_in_search (e_ts : bool) (b : batch) (r : WhisperResult)
    (c : context) (es : list interval) (m : mel) :
  refine_init duration get_prob o e_ts b r = Ok (c, es, m) ->
  is_end_ts c = e_ts /\ first_word c = first b
  /\ head (curr_starts b) = Some (time_offset c)
  /\ forall j e, es !! j = Some e ->
       in_search e_ts (search_frames e_ts b r (time_offset c) j) e.
Proof.
  unfold refine_init. destruct (curr_starts b) as [|t0 ts] eqn:Hcs; [discriminate|].
  intros [= <- <- <-]. split; [reflexivity|]. split; [reflexivity|].
  split; [reflexivity|]. cbn [time_offset].
  intros j e He.
  rewrite list_lookup_imap in He.
  destruct (init_intervals duration o e_ts t0 (batch_words r b) b !! j) as [e1|] eqn:H1;
    [|discriminate].
  simpl in He. injection He as <-.
  unfold init_intervals in H1. rewrite lookup_zip_with in H1.
  destruct (batch_words r b !! j) as [w|] eqn:Hw; [|discriminate]. simpl in H1.
  destruct (zip (curr_starts b) (zip (curr_ends b) (edge_mask b)) !! j)
    as [[cs [ce mk]]|] eqn:Hz; [|discriminate].
  simpl in H1. injection H1 as <-.
  unfold batch_words in Hw.
  apply lookup_take_Some in Hw. destruct Hw as [Hw Hj].
  rewrite lookup_drop in Hw.
  rewrite lookup_zip_with in Hz.
  destruct (curr_starts b !! j) as [cs'|] eqn:Hcsj; [|discriminate]. simpl in Hz.
  rewrite lookup_zip_with in Hz.
  destruct (curr_ends b !! j) as [ce'|] eqn:Hcej; [|discriminate]. simpl in Hz.
  destruct (edge_mask b !! j) as [mk'|]; [|discriminate]. simpl in Hz.
  injection Hz as -> -> ->.
  unfold in_search, last_change, init_interval, centred, bounds, min_of, max_of.
  cbn [is_finish set_orig_tk_poss set_prev_probs set_orig_probs starts ends changes snd fst].
  split; [|left; reflexivity].
  intros _. destruct e_ts; cbn [fst snd].
  - split; [reflexivity|]. intros f Hf. exists w, cs, ce.
    split; [exact Hw|]. split; [exact Hcsj|]. split; [exact Hcej|]. exact Hf.
  - split; [reflexivity|]. intros f Hf. exists w, cs, ce.
    split; [exact Hw|]. split; [exact Hcsj|]. split; [exact Hcej|]. exact Hf.
Qed.

Lemma refine_batch_rewritten (fuel : nat) (e_ts : bool) (b : batch)
    (r : WhisperResult) (t0 : Q) :
  head (curr_starts b) = Some t0 ->
  rewritten e_ts t0 (first b) (search_frames e_ts b r t0) r
    (store_of id (refine_batch duration get_prob o fuel e_ts b r)).
Proof.
  intros Hhead. unfold refine_batch.
  destruct (refine_init duration get_prob o e_ts b r) as [[[c es] m]| |] eqn:Hinit.
  2,3: unfold refine_init in Hinit; destruct (curr_starts b); try discriminate;
       injection Hinit as _ <-; apply rewritten_refl.
  destruct (refine_init_in_search _ _ _ _ _ _ Hinit) as (Hts & Hfw & Ht0 & Hes).
  rewrite Hhead in Ht0. injection Ht0 as Ht0.
  simpl.
  pose proof (refine_while_range c (search_frames e_ts b r t0) b fuel (es, m, r)) as H.
  rewrite Hts, Hfw, <- Ht0 in H. rewrite <- Ht0 in Hes.
  specialize (H Hes). simpl in H.
  destruct (refine_while get_prob o fuel b c (es, m, r)) as [[[es1 m1] r1]| |];
    simpl in *; exact H.
Qed.

(** A pass over a batch moves a timestamp only to the time of a frame
    between the two ends its search started from: an end to a frame
    between the start of the word and its upper clamp, a start to a
    frame between its lower clamp and the end of the word.  Frames count
    from [t0], the first start clamp of the batch. *)
Theorem refine_batch_moves_within_search (fuel : nat) (e_ts : bool) (b : batch)
    (r : WhisperResult) (t0 : Q) (t : nat) (w : Word) :
  head (curr_starts b) = Some t0 ->
  all_words r !! t = Some w ->
  exists w',
    all_words (store_of id (refine_batch duration get_prob o fuel e_ts b r)) !! t = Some w'
    /\ (w' = w
        \/ exists idx cs ce f,
             t = (first b + idx)%nat
             /\ curr_starts b !! idx = Some cs /\ curr_ends b !! idx = Some ce
             /\ if e_ts
                then ts_to_frames (start w - t0) <= f <= ts_to_frames (ce - t0)
                     /\ w' = set_end (frame_time t0 f) w
                else ts_to_frames (cs - t0) <= f <= ts_to_frames (end_ w - t0)
                     /\ w' = set_start (frame_time t0 f) w).
Proof.
  intros Hhead Hw.
  destruct (refine_batch_rewritten fuel e_ts b r t0 Hhead t w Hw) as (w' & Hw' & Hc).
  exists w'. split; [exact Hw'|].
  destruct Hc as [-> | (idx & f & Ht & (w0 & cs & ce & Hw0 & Hcs & Hce & Hf) & Hset)];
    [left; reflexivity|].
  right. exists idx, cs, ce, f.
  split; [exact Ht|]. split; [exact Hcs|]. split; [exact Hce|].
  rewrite <- Ht, Hw in Hw0. injection Hw0 as <-.
  destruct e_ts; split; assumption.
Qed.

Lemma frame_time_near (t0 ts : Q) (f : Z) :
  (ts_to_frames (ts - t0) <= f ->
   (ts - (11 # 2000) <= frame_time t0 f)%Q)
  /\ (f <= ts_to_frames (ts - t0) ->
      (frame_time t0 f <= ts + (11 # 2000))%Q).
Proof.
  unfold frame_time, ts_to_frames.
  change (inject_Z FRAMES_PER_SECOND) with (100 # 1)%Q.
  pose proof (round_half_even_near ((ts - t0) * (100 # 1))) as Hr.
  pose proof (round3_near (t0 + inject_Z f / (100 # 1))) as H3.
  unfold Qdiv in *. change (/ (100 # 1))%Q with (1 # 100)%Q in *.
  split; intros Hf; rewrite Zle_Qle in Hf; lra.
Qed.

(** In seconds: a pass over a batch leaves a word as it is or moves the
    timestamp of the pass, and then no further than 5.5 ms outside the
    span its search started from: an end stays between the start of the
    word and its upper clamp, a start between its lower clamp and the
    end of the word. *)
Theorem refine_batch_moves_within_clamps (fuel : nat) (e_ts : bool) (b : batch)
    (r : WhisperResult) (t : nat) (w : Word) :
  all_words r !! t = Some w ->
  exists w',
    all_words (store_of id (refine_batch duration get_prob o fuel e_ts b r)) !! t = Some w'
    /\ (w' = w
        \/ exists idx cs ce ts,
             t = (first b + idx)%nat
             /\ curr_starts b !! idx = Some cs /\ curr_ends b !! idx = Some ce
             /\ if e_ts
                then w' = set_end ts w
                     /\ (start w - (11 # 2000) <= ts <= ce + (11 # 2000))%Q
                else w' = set_start ts w
                     /\ (cs - (11 # 2000) <= ts <= end_ w + (11 # 2000))%Q).
Proof.
  intros Hw.
  destruct (head (curr_starts b)) as [t0|] eqn:Hhead.
  - destruct (refine_batch_rewritten fuel e_ts b r t0 Hhead t w Hw) as (w' & Hw' & Hc).
    exists w'. split; [exact Hw'|].
    destruct Hc as [-> | (idx & f & Ht & (w0 & cs & ce & Hw0 & Hcs & Hce & Hf) & Hset)];
      [left; reflexivity|].
    right. exists idx, cs, ce, (frame_time t0 f).
    split; [exact Ht|]. split; [exact Hcs|]. split; [exact Hce|].
    rewrite <- Ht, Hw in Hw0. injection Hw0 as <-.
    destruct e_ts; (split; [exact Hset|]); destruct Hf as [Hf1 Hf2].
    + split; [apply (frame_time_near t0 (start w) f); exact Hf1
             |apply (frame_time_near t0 ce f); exact Hf2].
    + split; [apply (frame_time_near t0 cs f); exact Hf1
             |apply (frame_time_near t0 (end_ w) f); exact Hf2].
  - exists w. split; [|left; reflexivity].
    unfold refine_batch, refine_init.
    destruct (curr_starts b); [simpl; exact Hw | discriminate].
Qed.

End Range.

Lemma refine_batch_moves_within_search_witness :
  exists w',
    all_words (store_of id (refine_batch sample_duration drifting_model
                              (start_options (Some true)) 10 false sample_batch
                              sample_result)) !! 0%nat = Some w'
    /\ (w' = sample_word
        \/ exists idx cs ce f,
             0%nat = (first sample_batch + idx)%nat
             /\ curr_starts sample_batch !! idx = Some cs
             /\ curr_ends sample_batch !! idx = Some ce
             /\ ts_to_frames (cs - (1 # 2)) <= f <= ts_to_frames (end_ sample_word - (1 # 2))
             /\ w' = set_start (frame_time (1 # 2) f) sample_word).
Proof.
  apply (refine_batch_moves_within_search sample_duration drifting_model
           (start_options (Some true)) 10 false sample_batch sample_result (1 # 2)
           0 sample_word).
  - reflexivity.
  - reflexivity.
Defined.

Lemma refine_batch_moves_within_clamps_witness :
  exists w',
    all_words (store_of id (refine_batch sample_duration drifting_model
                              (start_options (Some true)) 10 false sample_batch
                              sample_result)) !! 0%nat = Some w'
    /\ (w' = sample_word
        \/ exists idx cs ce ts,
             0%nat = (first sample_batch + idx)%nat
             /\ curr_starts sample_batch !! idx = Some cs
             /\ curr_ends sample_batch !! idx = Some ce
             /\ w' = set_start ts sample_word
             /\ (cs - (11 # 2000) <= ts <= end_ sample_word + (11 # 2000))%Q).
Proof.
  apply (refine_batch_moves_within_clamps sample_duration drifting_model
           (start_options (Some true)) 10 false sample_batch sample_result
           0 sample_word).
  reflexivity.
Defined.

End RefineRangeProofs.

(** ** refine: the call comes to an end *)

Module RefineEndsProofs.
Import Refine.

Lemma settles_const {S A} (x : outcome S A) : terminates x -> settles (fun _ => x).
Proof. intros H. exists 0%nat. intros fuel _. split; [exact H | reflexivity]. Qed.

Lemma settles_bind {S A B} (f : nat -> outcome S A) (g : A -> nat -> outcome S B) :
  settles f -> (forall a, settles (g a)) ->
  settles (fun fuel => obind (f fuel) (fun a => g a fuel)).
Proof.
  intros [n1 Hf] Hg.
  destruct (Hf n1 (Nat.le_refl n1)) as [Ht1 _].
  destruct (f n1) as [a|e s|s] eqn:Hfn; [| |destruct Ht1].
  - destruct (Hg a) as [n2 Hga].
    exists (Nat.max n1 n2). intros fuel Hfuel. cbv beta.
    destruct (Hf fuel ltac:(lia)) as [_ E1].
    destruct (Hf (Nat.max n1 n2) ltac:(lia)) as [_ E2].
    rewrite E1, E2. simpl.
    destruct (Hga fuel ltac:(lia)) as [T3 E3].
    destruct (Hga (Nat.max n1 n2) ltac:(lia)) as [_ E4].
    split; [exact T3 | congruence].
  - exists n1. intros fuel Hfuel. cbv beta.
    destruct (Hf fuel Hfuel) as [_ E1]. rewrite E1, Hfn. simpl. split; [exact I | reflexivity].
Qed.

Section Ends.
Variable duration : Word -> Q.
Variable has_words : WhisperResult -> bool.
Variable update_all_segs_with_words : WhisperResult -> WhisperResult.
Variable get_prob : batch -> list Word -> bool -> list nat -> mel -> nat -> Q * Z.
Variable n_text_ctx : Z.
Variable total_samples : Z.
Variable o : options.

Lemma refine_while_more_fuel (b : batch) (c : context) :
  forall (fuel : nat) (st : state),
    terminates (refine_while get_prob o fuel b c st) ->
    forall fuel', (fuel <= fuel')%nat ->
      refine_while get_prob o fuel' b c st = refine_while get_prob o fuel b c st.
Proof.
  induction fuel as [|fuel IH]; intros st Hterm fuel' Hle.
  - simpl in *. destruct (forallb is_finish (fst (fst st))) eqn:Hfin; [|destruct Hterm].
    destruct fuel'; simpl; rewrite Hfin; reflexivity.
  - destruct fuel' as [|fuel']; [lia|]. simpl in *.
    destruct (forallb is_finish (fst (fst st))); [reflexivity|].
    destruct (refine_body get_prob o b c st) as [st'| |]; simpl in *; try reflexivity.
    apply IH; [exact Hterm | lia].
Qed.

Lemma refine_while_settles (e_ts : bool) (b : batch) (r : WhisperResult)
    (c : context) (es : list interval) (m : mel) :
  refine_init duration get_prob o e_ts b r = Ok (c, es, m) ->
  settles (fun fuel => refine_while get_prob o fuel b c (es, m, r)).
Proof.
  intros Hinit.
  destruct (RefineProofs.refine_init_centred _ _ _ _ _ _ _ _ _ Hinit) as [Hts Hc].
  subst e_ts.
  pose proof (RefineProofs.good_iteration_bound o (is_end_ts c) es Hc) as Hgood.
  set (n := S (iteration_bound (frame_precision o) (is_end_ts c) es)).
  assert (Hterm : forall fuel, (n <= fuel)%nat ->
            terminates (refine_while get_prob o fuel b c (es, m, r))).
  { intros fuel Hfuel.
    apply (RefineProofs.refine_while_terminates get_prob o b c
             (pred (iteration_bound (frame_precision o) (is_end_ts c) es)));
      [exact Hgood | subst n; lia]. }
  exists n. intros fuel Hfuel. split; [apply Hterm; exact Hfuel|].
  apply refine_while_more_fuel; [apply Hterm; lia | exact Hfuel].
Qed.

Lemma refine_batch_settles (e_ts : bool) (b : batch) (r : WhisperResult) :
  settles (fun fuel => refine_batch duration get_prob o fuel e_ts b r).
Proof.
  unfold refine_batch.
  destruct (refine_init duration get_prob o e_ts b r) as [[[c es] m]| |] eqn:Hinit.
  - simpl.
    apply (settles_bind (fun fuel => refine_while get_prob o fuel b c (es, m, r))
             (fun (st : state) (_ : nat) => let '(_, _, r') := st in Ok r')).
    + eapply refine_while_settles; exact Hinit.
    + intros [[es1 m1] r1]. apply settles_const. exact I.
  - simpl. apply settles_const. exact I.
  - unfold refine_init in Hinit. destruct (curr_starts b); discriminate.
Qed.

Lemma refine_batches_settles (e_ts : bool) :
  forall (bs : list batch) (r : WhisperResult),
    settles (fun fuel => refine_batches duration get_prob o fuel e_ts bs r).
Proof.
  induction bs as [|b bs IH]; intros r; simpl.
  - apply settles_const. exact I.
  - apply (settles_bind (fun fuel => refine_batch duration get_prob o fuel e_ts b r)
             (fun r' fuel => refine_batches duration get_prob o fuel e_ts bs r')).
    + apply refine_batch_settles.
    + intros r'. apply IH.
Qed.

Lemma refine_pass_settles (_step : ascii) (r : WhisperResult) :
  settles (fun fuel => _refine duration get_prob n_text_ctx total_samples o fuel _step r).
Proof.
  unfold _refine.
  apply (settles_bind (fun _ => curr_segments duration n_text_ctx total_samples o r)
           (fun bs fuel =>
              refine_batches duration get_prob o fuel (Ascii.eqb _step "e") bs r)).
  - apply settles_const. unfold curr_segments. destruct (imap _ _); exact I.
  - intros bs. apply refine_batches_settles.
Qed.

Lemma refine_steps_settles :
  forall (ss : list ascii) (r : WhisperResult),
    settles (fun fuel =>
      refine_steps duration get_prob n_text_ctx total_samples o fuel ss r).
Proof.
  induction ss as [|s ss IH]; intros r; simpl.
  - apply settles_const. exact I.
  - apply (settles_bind
             (fun fuel => _refine duration get_prob n_text_ctx total_samples o fuel s r)
             (fun r' fuel =>
                refine_steps duration get_prob n_text_ctx total_samples o fuel ss r')).
    + apply refine_pass_settles.
    + intros r'. apply IH.
Qed.

(** [refine] comes to an end on every input, whatever the model
    answers: there is a number of turns of the bisection loop within
    which every pass of every step has finished, so that the call has
    returned or raised, and allowing more turns changes neither the
    outcome nor the objects it leaves behind. *)
Theorem refine_always_ends (h : heap) (result : nat) :
  exists n, forall fuel, (n <= fuel)%nat ->
    terminates (snd (refine duration has_words update_all_segs_with_words get_prob
                       n_text_ctx total_samples o fuel h result))
    /\ refine duration has_words update_all_segs_with_words get_prob
         n_text_ctx total_samples o fuel h result
       = refine duration has_words update_all_segs_with_words get_prob
           n_text_ctx total_samples o n h result.
Proof.
  unfold refine.
  destruct (h !! result) as [r0|]; [|exists 0%nat; intros; split; [exact I | reflexivity]].
  destruct (nonempty _); [exists 0%nat; intros; split; [exact I | reflexivity]|].
  destruct (negb _); [exists 0%nat; intros; split; [exact I | reflexivity]|].
  destruct (refine_steps_settles
              (list_ascii_of_string (effective_steps o)) r0) as [n Hn].
  exists n. intros fuel Hfuel. destruct (Hn fuel Hfuel) as [Ht He].
  unfold refine_object. rewrite He.
  destruct (if inplace o then (h, result) else deepcopy h r0) as [h1 result1].
  rewrite He in Ht.
  destruct (refine_steps duration get_prob n_text_ctx total_samples o n
              (list_ascii_of_string (effective_steps o)) r0) as [r'| |];
    simpl; split; try exact I; try reflexivity.
  destruct Ht.
Qed.

End Ends.

End RefineEndsProofs.

(** ** align: the loop comes to an end *)

Module AlignEndsProofs.
Import Align.
Import AlignLoop.

Lemma token_count_tokens (l : list word_dict) :
  token_count (map tokens l) = dict_token_count l.
Proof. induction l as [|w l IH]; simpl; [reflexivity | rewrite IH; reflexivity]. Qed.

Lemma dict_token_count_nonneg (l : list word_dict) : 0 <= dict_token_count l.
Proof. induction l as [|w l IH]; simpl; lia. Qed.

Lemma dict_token_count_pos (l : list word_dict) (w : word_dict) :
  In w l -> tokens w <> [] -> 1 <= dict_token_count l.
Proof.
  induction l as [|x l IH]; intros Hin Hne; [destruct Hin|].
  simpl. pose proof (dict_token_count_nonneg l) as Hl. destruct Hin as [-> | Hin].
  - destruct (tokens w); [contradiction | simpl; lia].
  - specialize (IH Hin Hne). lia.
Qed.

Lemma windows_left_step (total_samples seek : Z) :
  0 <= seek < total_samples ->
  windows_left total_samples (Z.min total_samples (seek + N_SAMPLES)) + 1
  <= windows_left total_samples seek.
Proof.
  intros Hseek. unfold windows_left.
  assert (HN : N_SAMPLES = 480000) by reflexivity. rewrite HN.
  destruct (Z.le_gt_cases (seek + 480000) total_samples) as [Hle|Hgt].
  - rewrite Z.min_r by lia.
    replace (total_samples - seek + 480000 - 1)
      with (total_samples - (seek + 480000) + 480000 - 1 + 1 * 480000) by lia.
    rewrite Z.div_add by lia. lia.
  - rewrite Z.min_l by lia.
    replace (total_samples - total_samples + 480000 - 1) with 479999 by lia.
    assert (0 < (total_samples - seek + 480000 - 1) / 480000)
      by (apply Z.div_str_pos; lia).
    change (479999 / 480000) with 0. lia.
Qed.

Lemma windows_left_le (total_samples seek : Z) :
  0 <= seek -> windows_left total_samples seek <= windows_left total_samples 0.
Proof.
  intros Hseek. unfold windows_left. apply Z.div_le_mono; [reflexivity | lia].
Qed.

Section Ends.
Variable extract : Z -> list string -> list (list token) -> list word_dict.
Variable token_step : Z.
Variable total_samples : Z.
Hypothesis Hext : extractor_keeps_tokens extract.

Abbreviation step := (align_step extract token_step total_samples).
Abbreviation loop := (align_loop extract token_step total_samples).

(** A turn of the loop either resolves nothing and moves to the next
    window, or takes tokens off the queue. *)
Lemma align_step_progress (p : progress) :
  aligned (pending p) ->
  Forall (fun t => t <> []) (word_tokens (pending p)) ->
  0 <= seek_sample p < total_samples ->
  exists p',
    step p = Ok p'
    /\ aligned (pending p')
    /\ Forall (fun t => t <> []) (word_tokens (pending p'))
    /\ 0 <= seek_sample p'
    /\ (token_count (word_tokens (pending p')) = token_count (word_tokens (pending p))
        /\ seek_sample p' = Z.min total_samples (seek_sample p + N_SAMPLES)
        \/ token_count (word_tokens (pending p')) < token_count (word_tokens (pending p))).
Proof.
  intros Hq Hne Hseek. unfold align_step.
  destruct (AlignLoopProofs.get_curr_words_aligned token_step (pending p) Hq)
    as (w & wt & q1 & Hrun & Hq1 & Hlen & Hws & Hwts).
  rewrite Hrun. simpl.
  destruct (Hext (seek_sample p) w wt Hlen ltac:(lia)) as (Htok & Hend & Hnon).
  rewrite Hwts in Hne. apply Forall_app in Hne. destruct Hne as [Hne_wt Hne_q1].
  specialize (Hnon Hne_wt).
  pose proof (AlignLoopProofs.requeue_aligned (extract (seek_sample p) w wt) q1 Hq1) as Hq2.
  unfold requeue in *.
  destruct (requeue_loop (rev (extract (seek_sample p) w wt)) q1) as [kept0 q2] eqn:Hre.
  simpl in Hq2.
  destruct (AlignLoopProofs.requeue_loop_spec _ _ _ _ Hre) as (back & Hrw & _ & Hback & _).
  assert (Hsplit : extract (seek_sample p) w wt = rev kept0 ++ back).
  { rewrite <- (rev_involutive (extract _ _ _)), Hrw, rev_app_distr, rev_involutive.
    reflexivity. }
  set (kept := rev kept0) in *.
  rewrite Hsplit in Htok, Hend, Hnon.
  rewrite AlignLoopProofs.dict_token_count_app in Htok.
  apply Forall_app in Hend. destruct Hend as [Hend_k _].
  apply Forall_app in Hnon. destruct Hnon as [Hnon_k Hnon_b].
  assert (Hcount : token_count (word_tokens q2)
                   = token_count (word_tokens (pending p)) - dict_token_count kept).
  { rewrite Hback, Hwts, !AlignProofs.token_count_app, token_count_tokens. lia. }
  eexists. split; [reflexivity|]. cbn [pending seek_sample].
  split; [exact Hq2|]. split.
  { rewrite Hback. apply Forall_app. split; [|exact Hne_q1].
    apply Forall_forall. intros t Ht. apply list_elem_of_In, in_map_iff in Ht.
    destruct Ht as (x & <- & Hx). rewrite Forall_forall in Hnon_b. apply Hnon_b.
    apply list_elem_of_In. exact Hx. }
  destruct (last kept) as [lw|] eqn:Hlast.
  - apply last_Some in Hlast. destruct Hlast as (l' & Hl').
    assert (Hin : In lw kept) by (rewrite Hl'; apply in_or_app; right; left; reflexivity).
    rewrite Forall_forall in Hend_k, Hnon_k.
    split.
    { apply SearchProofs.round_half_even_nonneg.
      apply Qmult_le_0_compat; [apply Hend_k, list_elem_of_In, Hin | discriminate]. }
    right. rewrite Hcount.
    pose proof (dict_token_count_pos kept lw Hin (Hnon_k lw (proj2 (list_elem_of_In _ _) Hin))).
    lia.
  - apply last_None in Hlast.
    assert (Hseg : seek_sample p + segment_samples total_samples (seek_sample p)
                   = Z.min total_samples (seek_sample p + N_SAMPLES)).
    { unfold segment_samples, Refine.slice_index.
      assert (HN : N_SAMPLES = 480000) by reflexivity. rewrite HN.
      destruct (Z.ltb_spec (seek_sample p + 480000) 0); [lia|].
      destruct (Z.ltb_spec (seek_sample p) 0); lia. }
    rewrite Hseg. assert (HN : N_SAMPLES = 480000) by reflexivity. split; [lia|]. left. split; [|reflexivity].
    rewrite Hcount, Hlast. simpl. lia.
Qed.

Lemma align_loop_fuel :
  forall (fuel : nat) (p : progress),
    aligned (pending p) ->
    Forall (fun t => t <> []) (word_tokens (pending p)) ->
    0 <= seek_sample p ->
    token_count (word_tokens (pending p)) * (windows_left total_samples 0 + 1)
    + windows_left total_samples (seek_sample p) <= Z.of_nat fuel ->
    exists p', loop fuel p = Ok p'.
Proof.
  induction fuel as [|fuel IH]; intros p Hq Hne Hseek Hfuel; simpl;
    (destruct (nonempty (words (pending p)) && (seek_sample p <? total_samples)) eqn:Hg;
       [|eauto]);
    apply andb_true_iff in Hg; destruct Hg as [_ Hg]; apply Z.ltb_lt in Hg;
    assert (HN : N_SAMPLES = 480000) by reflexivity;
    pose proof (AlignProofs.token_count_nonneg (word_tokens (pending p))) as HT;
    pose proof (windows_left_step total_samples (seek_sample p) ltac:(lia)) as Hwl;
    pose proof (windows_left_le total_samples (seek_sample p) Hseek) as HK;
    pose proof (windows_left_le total_samples
                  (Z.min total_samples (seek_sample p + N_SAMPLES)) ltac:(lia)) as HK0.
  - assert (0 <= windows_left total_samples
                   (Z.min total_samples (seek_sample p + N_SAMPLES))).
    { unfold windows_left. apply Z.div_pos; [|reflexivity]. lia. }
    nia.
  - assert (Hwl0 : 0 <= windows_left total_samples
                          (Z.min total_samples (seek_sample p + N_SAMPLES))).
    { unfold windows_left. apply Z.div_pos; [|reflexivity]. lia. }
    destruct (align_step_progress p Hq Hne ltac:(lia))
      as (p1 & Hstep & Hq1 & Hne1 & Hseek1 & Hprog).
    rewrite Hstep. simpl. apply (IH p1 Hq1 Hne1 Hseek1).
    pose proof (AlignProofs.token_count_nonneg (word_tokens (pending p1))) as HT1.
    pose proof (windows_left_le total_samples (seek_sample p1) Hseek1) as HK1.
    destruct Hprog as [[Hsame Hnext] | Hless].
    + rewrite Hsame, Hnext. lia.
    + nia.
Qed.

Lemma align_loop_stops (fuel : nat) :
  forall p p' : progress,
    loop fuel p = Ok p' ->
    words (pending p') = [] \/ total_samples <= seek_sample p'.
Proof.
  induction fuel as [|fuel IH]; intros p p'; simpl;
    destruct (nonempty (words (pending p)) && (seek_sample p <? total_samples)) eqn:Hg;
    try discriminate.
  1,3: intros [= <-]; apply andb_false_iff in Hg; destruct Hg as [Hg|Hg];
       [left; destruct (words (pending p)); [reflexivity | discriminate]
       |right; apply Z.ltb_ge; exact Hg].
  destruct (step p) as [p1| |]; simpl; try discriminate. apply IH.
Qed.

(** The loop of [align] comes to an end when the extractor returns the
    tokens it was given: a window that resolves nothing moves the cursor
    on by a window, any other window takes at least one token off the
    queue, so within (tokens + 1) * (windows + 1) turns the loop returns,
    with no word pending or the cursor at the end of the audio. *)
Theorem align_loop_terminates (fuel : nat) (p : progress) :
  aligned (pending p) ->
  Forall (fun t => t <> []) (word_tokens (pending p)) ->
  0 <= seek_sample p ->
  (token_count (word_tokens (pending p)) + 1) * (windows_left total_samples 0 + 1)
  <= Z.of_nat fuel ->
  exists p',
    loop fuel p = Ok p'
    /\ (words (pending p') = [] \/ total_samples <= seek_sample p').
Proof.
  intros Hq Hne Hseek Hfuel.
  assert (Hrun : exists p', loop fuel p = Ok p').
  { destruct (nonempty (words (pending p)) && (seek_sample p <? total_samples)) eqn:Hg.
    - apply andb_true_iff in Hg. destruct Hg as [_ Hg]. apply Z.ltb_lt in Hg.
      apply align_loop_fuel; try assumption.
      assert (HN : N_SAMPLES = 480000) by reflexivity.
      pose proof (AlignProofs.token_count_nonneg (word_tokens (pending p))) as HT.
      pose proof (windows_left_le total_samples (seek_sample p) Hseek) as HK.
      pose proof (windows_left_step total_samples (seek_sample p) ltac:(lia)) as Hwl.
      assert (0 <= windows_left total_samples
                     (Z.min total_samples (seek_sample p + N_SAMPLES))).
      { unfold windows_left. apply Z.div_pos; [|reflexivity]. lia. }
      nia.
    - exists p. destruct fuel; simpl; rewrite Hg; reflexivity. }
  destruct Hrun as [p' Hrun]. exists p'. split; [exact Hrun|].
  apply (align_loop_stops fuel p p' Hrun).
Qed.

End Ends.

Lemma echo_extract_keeps_tokens : extractor_keeps_tokens echo_extract.
Proof.
  intros seek ws wts Hlen Hseek. unfold echo_extract.
  revert wts Hlen. induction ws as [|w ws IH]; intros [|wt wts] Hlen; try discriminate.
  - simpl. repeat split; constructor.
  - simpl in Hlen. injection Hlen as Hlen.
    destruct (IH wts Hlen) as (H1 & H2 & H3). simpl.
    split; [rewrite H1; reflexivity|]. split.
    + constructor; [|exact H2]. simpl.
      rewrite Zle_Qle in Hseek.
      unfold Qdiv. change (/ inject_Z SAMPLE_RATE)%Q with (1 # 16000)%Q.
      change (inject_Z 0) with 0%Q in Hseek. lra.
    + intros Hne. inversion Hne as [|? ? Hwt Hwts]; subst.
      constructor; [exact Hwt | apply H3; exact Hwts].
Qed.

Lemma align_loop_terminates_witness :
  exists p',
    align_loop echo_extract 3 960000 18 sample_progress = Ok p'
    /\ (words (pending p') = [] \/ 960000 <= seek_sample p').
Proof.
  apply (align_loop_terminates echo_extract 3 960000 echo_extract_keeps_tokens 18
           sample_progress).
  - reflexivity.
  - repeat constructor; discriminate.
  - simpl. lia.
  - vm_compute. discriminate.
Defined.

End AlignEndsProofs.

(** ** locate: windows that are not confirmed *)

Module WindowProofs.
Import Locate.

Lemma CHUNK_SAMPLES_value : CHUNK_SAMPLES = 480000.
Proof. reflexivity. Qed.

(** A window of modes 0 and 1 in which the target is not found: a
    window cut short by the end of the audio sends the cursor to the
    end; a full window moves it by [adjusted_chunk_size], so the cursor
    advances exactly when the window is cut short or the first duration
    window is shorter than a chunk. *)
Theorem unconfirmed_window_step (total_samples seek : Z) (dw0 : Q) :
  0 <= seek < total_samples ->
  let seek' := unconfirmed_seek total_samples seek dw0 in
  (total_samples < seek + CHUNK_SAMPLES -> seek' = total_samples)
  /\ (seek + CHUNK_SAMPLES <= total_samples -> seek' = seek + adjusted_chunk_size dw0)
  /\ (seek < seek' <->
      total_samples < seek + CHUNK_SAMPLES
      \/ round_half_even (dw0 * inject_Z SAMPLE_RATE) < CHUNK_SAMPLES).
Proof.
  intros Hseek. cbn zeta.
  unfold unconfirmed_seek, audio_segment_len, Refine.slice_index, adjusted_chunk_size.
  rewrite CHUNK_SAMPLES_value.
  set (d := round_half_even (dw0 * inject_Z SAMPLE_RATE)). clearbody d.
  destruct (Z.ltb_spec (seek + 480000) 0); [lia|].
  destruct (Z.ltb_spec seek 0); [lia|].
  destruct (Z.eqb_spec (Z.max 0 (Z.min (seek + 480000) total_samples
                                  - Z.min seek total_samples)) 480000) as [He|He];
    repeat split; intros; lia.
Qed.

(** The assertion on [duration_window] does not keep the cursor from
    moving backwards: it compares seconds with a number of samples, so it
    admits a first window of more than 30 seconds, and then every full
    window in which the target is not found moves the cursor back. *)
Theorem window_assert_admits_backward_step (total_samples seek : Z) (dw0 dw1 : Q) :
  (30 + (1 # 10000) <= dw0)%Q ->
  (dw0 + dw1 < 480000)%Q ->
  0 <= seek -> seek + CHUNK_SAMPLES <= total_samples ->
  window_assert dw0 dw1 = true
  /\ unconfirmed_seek total_samples seek dw0 < seek.
Proof.
  intros Hdw Hsum Hseek Hfull. split.
  - unfold window_assert, Qlt_bool. rewrite CHUNK_SAMPLES_value.
    apply negb_true_iff. destruct (Qle_bool _ _) eqn:Hle; [|reflexivity].
    apply Qle_bool_iff in Hle. change (inject_Z 480000) with 480000%Q in Hle. lra.
  - assert (Hd : 480000 < round_half_even (dw0 * inject_Z SAMPLE_RATE)).
    { pose proof (round_half_even_near (dw0 * inject_Z SAMPLE_RATE)) as [Hlo _].
      change (inject_Z SAMPLE_RATE) with 16000%Q in *.
      assert (Hq : (inject_Z 480000 < inject_Z (round_half_even (dw0 * 16000)))%Q).
      { change (inject_Z 480000) with 480000%Q. lra. }
      rewrite <- Zlt_Qlt in Hq. exact Hq. }
    revert Hd. unfold unconfirmed_seek, audio_segment_len, Refine.slice_index,
      adjusted_chunk_size.
    rewrite CHUNK_SAMPLES_value in *.
    set (d := round_half_even (dw0 * inject_Z SAMPLE_RATE)). clearbody d. intros Hd.
    destruct (Z.ltb_spec (seek + 480000) 0); [lia|].
    destruct (Z.ltb_spec seek 0); [lia|].
    destruct (Z.eqb_spec (Z.max 0 (Z.min (seek + 480000) total_samples
                                    - Z.min seek total_samples)) 480000); lia.
Qed.

Lemma unconfirmed_window_step_witness :
  unconfirmed_seek 960000 0 5 = 0 + adjusted_chunk_size 5.
Proof.
  destruct (unconfirmed_window_step 960000 0 5 ltac:(lia)) as (_ & H & _).
  apply H. vm_compute. discriminate.
Defined.

Lemma window_assert_admits_backward_step_witness :
  window_assert 31 0 = true /\ unconfirmed_seek 960000 0 31 < 0.
Proof.
  apply (window_assert_admits_backward_step 960000 0 31 0).
  - vm_compute. discriminate.
  - reflexivity.
  - lia.
  - vm_compute. discriminate.
Defined.

End WindowProofs.

(** ** refine: the passes return *)

Module RefineReturnsProofs.
Import Refine.
Import RefineFrame.


Section Returns.
Variable duration : Word -> Q.
Variable get_prob : batch -> list Word -> bool -> list nat -> mel -> nat -> Q * Z.
Variable n_text_ctx : Z.
Variable total_samples : Z.
Variable o : options.












End Returns.

End RefineReturnsProofs.

(** ** refine: the object worked on *)

Module RefineCopyProofs.
Import Refine.

Section Copy.
Variable duration : Word -> Q.
Variable has_words : WhisperResult -> bool.
Variable update_all_segs_with_words : WhisperResult -> WhisperResult.
Variable get_prob : batch -> list Word -> bool -> list nat -> mel -> nat -> Q * Z.
Variable n_text_ctx : Z.
Variable total_samples : Z.
Variable o : options.

Abbreviation refine_call :=
  (refine duration has_words update_all_segs_with_words get_prob n_text_ctx total_samples o).
Abbreviation refine_value :=
  (refine_object duration update_all_segs_with_words get_prob n_text_ctx total_samples o).


End Copy.


End RefineCopyProofs.
